(** * gensql66: schema parser, data generator and data analyzer

    A shallow embedding of [src/schema_parser.py], [src/data_generator.py]
    and [src/data_analyzer.py], and of the quick validation in
    [src/page/data_generator_page.py], with the properties their
    specification states about them and further properties read off the
    code.

    Text is modelled as [string] over 7-bit characters: the classes [\w],
    [\s] and the case mappings below are Python's restricted to ASCII, and a
    code above 127 belongs to none of them. *)

From Stdlib Require Import ZArith Ascii String Floats.
From stdpp Require Import gmap strings list pretty.

Local Open Scope Z_scope.

(** ** Python [str] operations on ASCII text *)

Module PyStr.

Definition code (c : ascii) : N := N_of_ascii c.

Definition in_range (lo hi : N) (c : ascii) : bool :=
  ((lo <=? code c) && (code c <=? hi))%N.

(** [str.isspace] on one ASCII character: TAB..CR, FS..US and the blank. *)
Definition is_space (c : ascii) : bool :=
  in_range 9 13 c || in_range 28 31 c || (code c =? 32)%N.

Definition is_upper (c : ascii) : bool := in_range 65 90 c.
Definition is_lower (c : ascii) : bool := in_range 97 122 c.
Definition is_digit (c : ascii) : bool := in_range 48 57 c.

(** The class [\w] of the [re] module, on 7-bit characters. *)
Definition is_word (c : ascii) : bool :=
  is_upper c || is_lower c || is_digit c || (code c =? 95)%N.

Definition lower_char (c : ascii) : ascii :=
  if is_upper c then ascii_of_N (code c + 32) else c.
Definition upper_char (c : ascii) : ascii :=
  if is_lower c then ascii_of_N (code c - 32) else c.

Definition eqc (a b : ascii) : bool := (code a =? code b)%N.

Fixpoint map_chars (f : ascii -> ascii) (s : string) : string :=
  match s with
  | EmptyString => EmptyString
  | String c s' => String (f c) (map_chars f s')
  end.

Definition lower : string -> string := map_chars lower_char.
Definition upper : string -> string := map_chars upper_char.

Fixpoint lstrip_by (p : ascii -> bool) (s : string) : string :=
  match s with
  | EmptyString => EmptyString
  | String c s' => if p c then lstrip_by p s' else s
  end.

Definition rstrip_by (p : ascii -> bool) (s : string) : string :=
  String.rev (lstrip_by p (String.rev s)).

Definition strip_by (p : ascii -> bool) (s : string) : string :=
  rstrip_by p (lstrip_by p s).

(** [s.strip()] and [s.strip(chars)] for a one-character [chars]. *)
Definition strip : string -> string := strip_by is_space.
Definition strip_char (c : ascii) : string -> string := strip_by (eqc c).

(** [s.replace(c, '')] for a one-character [c]. *)
Fixpoint remove_char (c : ascii) (s : string) : string :=
  match s with
  | EmptyString => EmptyString
  | String a s' => if eqc c a then remove_char c s' else String a (remove_char c s')
  end.

Fixpoint startswith (p s : string) : bool :=
  match p, s with
  | EmptyString, _ => true
  | String a p', String b s' => eqc a b && startswith p' s'
  | String _ _, EmptyString => false
  end.

(** [p in s]. *)
Fixpoint contains (p s : string) : bool :=
  startswith p s ||
  match s with
  | EmptyString => false
  | String _ s' => contains p s'
  end.

Definition eqs (a b : string) : bool := String.eqb a b.

Fixpoint take (n : nat) (s : string) : string :=
  match n, s with
  | S n', String c s' => String c (take n' s')
  | _, _ => EmptyString
  end.

(** [sep.join(parts)]. *)
Fixpoint join (sep : string) (parts : list string) : string :=
  match parts with
  | [] => EmptyString
  | [p] => p
  | p :: rest => p +:+ sep +:+ join sep rest
  end.

Definition LF : ascii := ascii_of_N 10.
Definition CR : ascii := ascii_of_N 13.

(** Line boundaries of [str.splitlines]: LF, VT, FF, CR, FS, GS, RS. *)
Definition is_linebreak (c : ascii) : bool :=
  in_range 10 13 c || in_range 28 30 c.

(** [s.splitlines()]: CR LF counts as one boundary, and a final boundary
    opens no empty last line. [cur] is the current line, reversed;
    [after_cr] says that the previous character was a CR. *)
Fixpoint splitlines_go (after_cr : bool) (cur : string) (s : string) : list string :=
  match s with
  | EmptyString =>
      match cur with EmptyString => [] | _ => [String.rev cur] end
  | String c s' =>
      if after_cr && eqc c LF then splitlines_go false cur s'
      else if is_linebreak c then String.rev cur :: splitlines_go (eqc c CR) EmptyString s'
      else splitlines_go false (String c cur) s'
  end.

Definition splitlines : string -> list string := splitlines_go false EmptyString.

End PyStr.

(** ** A backtracking matcher for the patterns of the [re] module

    The matcher tries alternatives in the order Python's engine does: a
    greedy repetition takes one more round before it tries the rest, a lazy
    one tries the rest first, and [Alt] tries its left branch first. A failed
    branch leaves no capture behind. *)

Module Re.
Import PyStr.

Inductive regex : Type :=
| Eps                                   (* the empty pattern *)
| Class (p : ascii -> bool)             (* one character of a class *)
| Cat (r1 r2 : regex)
| Alt (r1 r2 : regex)
| Star (greedy : bool) (r : regex)      (* [r*] and [r*?] *)
| Group (n : nat) (r : regex)           (* capturing group number [n] *)
| Bol (multiline : bool)                (* [^] *)
| Eol (multiline : bool).               (* [$] *)

Definition Plus (r : regex) : regex := Cat r (Star true r).
Definition Opt (r : regex) : regex := Alt r Eps.

(** One literal character; [ci] is the IGNORECASE flag. *)
Definition Chr (ci : bool) (c : ascii) : regex :=
  Class (fun a => if ci then eqc (lower_char a) (lower_char c) else eqc a c).

Fixpoint Lit (ci : bool) (s : string) : regex :=
  match s with
  | EmptyString => Eps
  | String c EmptyString => Chr ci c
  | String c s' => Cat (Chr ci c) (Lit ci s')
  end.

(** [.] with and without DOTALL. *)
Definition Dot (dotall : bool) : regex :=
  Class (fun a => dotall || negb (eqc a LF)).

Definition Space : regex := Class is_space.
Definition Word : regex := Class is_word.

Fixpoint cats (rs : list regex) : regex :=
  match rs with
  | [] => Eps
  | [r] => r
  | r :: rs' => Cat r (cats rs')
  end.

(** Captured groups, by number. *)
Definition caps : Type := nat -> option string.
Definition no_caps : caps := fun _ => None.
Definition set_cap (n : nat) (s : string) (c : caps) : caps :=
  fun m => if Nat.eqb m n then Some s else c m.

(** [m.group(n)] as [findall] reports it: the empty string for a group
    that took no part in the match. *)
Definition group (c : caps) (n : nat) : string := default EmptyString (c n).

(** A position in the subject: the character before it, if any, and the
    text from it on. *)
Definition at_bol (multiline : bool) (prev : option ascii) : bool :=
  match prev with
  | None => true
  | Some a => multiline && eqc a LF
  end.

Definition at_eol (multiline : bool) (s : string) : bool :=
  match s with
  | EmptyString => true
  | String a EmptyString => eqc a LF
  | String a _ => multiline && eqc a LF
  end.

Section Matcher.
Context {R : Type}.

(** The rounds of a repetition whose body is matched by [body]. A round
    that consumes nothing is not repeated, so a subject of length [n] admits
    at most [n] rounds, and the fuel [n + 1] that [rmatch] provides is never
    used up. *)
Fixpoint star_rounds (greedy : bool)
    (body : option ascii -> string -> caps ->
            (option ascii -> string -> caps -> option R) -> option R)
    (k : option ascii -> string -> caps -> option R)
    (fuel : nat) (prev : option ascii) (s : string) (c : caps) : option R :=
  match fuel with
  | O => k prev s c
  | S fuel' =>
      let again (_ : unit) :=
        body prev s c (fun prev' s' c' =>
          if (String.length s' <? String.length s)%nat
          then star_rounds greedy body k fuel' prev' s' c' else None) in
      if greedy then
        match again tt with
        | Some x => Some x
        | None => k prev s c
        end
      else
        match k prev s c with
        | Some x => Some x
        | None => again tt
        end
  end.

(** [rmatch r prev s c k]: match [r] at the position [(prev, s)] with the
    captures [c] and hand the position after it to [k]; [None] when every
    way of matching [r] here makes [k] fail. *)
Fixpoint rmatch (r : regex) (prev : option ascii) (s : string) (c : caps)
    (k : option ascii -> string -> caps -> option R) {struct r} : option R :=
  match r with
  | Eps => k prev s c
  | Class p =>
      match s with
      | String a s' => if p a then k (Some a) s' c else None
      | EmptyString => None
      end
  | Cat r1 r2 =>
      rmatch r1 prev s c (fun prev' s' c' => rmatch r2 prev' s' c' k)
  | Alt r1 r2 =>
      match rmatch r1 prev s c k with
      | Some x => Some x
      | None => rmatch r2 prev s c k
      end
  | Star greedy r1 =>
      star_rounds greedy (rmatch r1) k (S (String.length s)) prev s c
  | Group n r1 =>
      rmatch r1 prev s c (fun prev' s' c' =>
        k prev' s' (set_cap n (take (String.length s - String.length s') s) c'))
  | Bol ml => if at_bol ml prev then k prev s c else None
  | Eol ml => if at_eol ml s then k prev s c else None
  end.
End Matcher.

(** A match found by a scan: the text skipped before it, the matched text,
    the captures, and the position after it. *)
Record found : Type := Found {
  f_before : string;
  f_text : string;
  f_caps : caps;
  f_prev : option ascii;
  f_rest : string
}.

(** One attempt at the position [(prev, s)]; with [must_advance] an empty
    match does not count and the engine backtracks past it. *)
Definition match_here (r : regex) (must_advance : bool)
    (prev : option ascii) (s : string) : option found :=
  rmatch r prev s no_caps (fun prev' s' c' =>
    if must_advance && (String.length s' =? String.length s)%nat then None
    else Some (Found EmptyString (take (String.length s - String.length s') s) c' prev' s')).

(** [pattern.match(s)]. *)
Definition re_match (r : regex) (s : string) : option caps :=
  f_caps <$> match_here r false None s.

(** [pattern.search] from a position: the leftmost start at which the
    pattern matches. [skipped] is the text passed over, reversed. *)
Fixpoint search_from (r : regex) (must_advance : bool) (skipped : string)
    (prev : option ascii) (s : string) : option found :=
  match match_here r must_advance prev s with
  | Some f => Some (Found (String.rev skipped) (f_text f) (f_caps f) (f_prev f) (f_rest f))
  | None =>
      match s with
      | EmptyString => None
      | String a s' => search_from r false (String a skipped) (Some a) s'
      end
  end.

(** The successive non-overlapping matches that [findall] and [sub] walk
    through, and the text left after the last one. After an empty match
    the next one must advance. *)
Fixpoint scan (fuel : nat) (r : regex) (must_advance : bool)
    (prev : option ascii) (s : string) : list found * string :=
  match fuel with
  | O => ([], s)
  | S fuel' =>
      match search_from r must_advance EmptyString prev s with
      | None => ([], s)
      | Some f =>
          let '(fs, tail) :=
            scan fuel' r (String.length (f_text f) =? 0)%nat (f_prev f) (f_rest f) in
          (f :: fs, tail)
      end
  end.

Definition scan_all (r : regex) (s : string) : list found * string :=
  scan (2 * String.length s + 2) r false None s.

(** [pattern.findall(s)], as the captures of each match. *)
Definition findall (r : regex) (s : string) : list caps :=
  f_caps <$> (scan_all r s).1.

(** [re.sub(pattern, repl, s)] for a replacement without group references. *)
Definition sub (r : regex) (repl : string) (s : string) : string :=
  let '(fs, tail) := scan_all r s in
  foldr (fun f acc => f_before f +:+ repl +:+ acc) tail fs.

End Re.

(** ** Values and column definitions shared by the parser and the generator *)

(** The Python values that occur as generation parameters and as generated
    cells. Dates and datetimes are kept as their ordinal. *)
Inductive pyval : Type :=
| PNone
| PBool (b : bool)
| PInt (z : Z)
| PFloat (f : float)
| PStr (s : string)
| PDate (d : Z)
| PDateTime (t : Z).

(** The dictionary that [_parse_columns] builds for one column. *)
Record ColumnDefinition : Type := mkColumn {
  name : string;
  type : string;
  raw_type : string;
  params : gmap string pyval;
  constraints : list string
}.

(** ** [src/schema_parser.py] *)

Module SchemaParser.
Import PyStr Re.

Definition KNOWN_DIALECTS : list string :=
  ["MySQL"; "PostgreSQL"; "SQLite"; "MS SQL Server"; "Oracle"; "MariaDB"].

Definition backtick : regex := Chr true "`".

(** [CREATE\s+TABLE\s+(?:IF\s+NOT\s+EXISTS\s+)?(?:`?(\w+)`?\.?)?`?(\w+)`?\s*\((.*?)\)\s*;]
    with IGNORECASE and DOTALL. *)
Definition table_pattern : regex :=
  cats [ Lit true "CREATE"; Plus Space; Lit true "TABLE"; Plus Space;
         Opt (cats [ Lit true "IF"; Plus Space; Lit true "NOT"; Plus Space;
                     Lit true "EXISTS"; Plus Space ]);
         Opt (cats [ Opt backtick; Group 1 (Plus Word); Opt backtick; Opt (Chr true ".") ]);
         Opt backtick; Group 2 (Plus Word); Opt backtick; Star true Space;
         Chr true "("; Group 3 (Star false (Dot true)); Chr true ")";
         Star true Space; Chr true ";" ].

(** [^\s*`?(\w+)`?\s+([\w\s]+(?:\([\d,\s]*\))?)([^,]*?)(?:,|\n|$)]
    with IGNORECASE and MULTILINE. *)
Definition column_pattern : regex :=
  cats [ Bol true; Star true Space; Opt backtick; Group 1 (Plus Word); Opt backtick;
         Plus Space;
         Group 2 (Cat (Plus (Class (fun a => is_word a || is_space a)))
                      (Opt (cats [ Chr true "(";
                                   Star true (Class (fun a => is_digit a || eqc a "," || is_space a));
                                   Chr true ")" ])));
         Group 3 (Star false (Class (fun a => negb (eqc a ","))));
         Alt (Chr true ",") (Alt (Chr true LF) (Eol true)) ].

(** [^[-/#\*\s]+|\s*[\*/]*$], the cleaning of the first line. *)
Definition dialect_marker_pattern : regex :=
  Alt (Cat (Bol false)
           (Plus (Class (fun a => eqc a "-" || eqc a "/" || eqc a "#" || eqc a "*" || is_space a))))
      (cats [ Star true Space; Star true (Class (fun a => eqc a "*" || eqc a "/")); Eol false ]).

(** [--.*?\n], [#.*?\n] and, with DOTALL, [/\*.*?\*/]. *)
Definition dash_comment : regex := cats [ Lit false "--"; Star false (Dot false); Chr false LF ].
Definition hash_comment : regex := cats [ Lit false "#"; Star false (Dot false); Chr false LF ].
Definition block_comment : regex := cats [ Lit false "/*"; Star false (Dot true); Lit false "*/" ].

Definition newline : string := String LF EmptyString.

Definition _remove_comments (content : string) : string :=
  let content := sub dash_comment newline content in
  let content := sub hash_comment newline content in
  let content := sub block_comment EmptyString content in
  strip content.

(** The character loop of [_parse_columns] that cuts the body of a table at
    its top-level commas. [buffer] is kept reversed. *)
Fixpoint split_columns (s : string) (buffer : string) (paren_level : Z) : list string :=
  match s with
  | EmptyString =>
      let last := strip (String.rev buffer) in
      match last with EmptyString => [] | _ => [last] end
  | String char s' =>
      let paren_level :=
        if eqc char "(" then paren_level + 1
        else if eqc char ")" then paren_level - 1
        else paren_level in
      if eqc char "," && (paren_level =? 0) then
        strip (String.rev buffer) :: split_columns s' EmptyString paren_level
      else split_columns s' (String char buffer) paren_level
  end.

Definition constraint_keywords : list string :=
  ["PRIMARY KEY"; "FOREIGN KEY"; "UNIQUE"; "CONSTRAINT"; "CHECK"; "INDEX"; "KEY"; "TABLESPACE"].

(** The chain of substring tests that maps a raw type to a canonical one. *)
Definition normalize_type (raw_type_full : string) : string :=
  let data_type_lower := lower raw_type_full in
  if contains "int" data_type_lower then "integer"
  else if contains "char" data_type_lower || contains "text" data_type_lower then "string"
  else if contains "float" data_type_lower || contains "double" data_type_lower
          || contains "real" data_type_lower then "float"
  else if contains "decimal" data_type_lower || contains "numeric" data_type_lower then "float"
  else if eqs "date" data_type_lower
          || (startswith "date" data_type_lower && negb (contains "(" data_type_lower)) then "date"
  else if contains "datetime" data_type_lower || contains "timestamp" data_type_lower then "datetime"
  else if contains "bool" data_type_lower then "boolean"
  else "string".

(** The body of the loop over the fragments: no column for a constraint
    line or for a fragment the column pattern does not match. *)
Definition parse_column_def (col_def_full : string) : option ColumnDefinition :=
  let col_def_full := strip col_def_full in
  if eqs col_def_full EmptyString
     || existsb (fun kw => startswith kw (upper col_def_full)) constraint_keywords
  then None
  else
    match re_match column_pattern col_def_full with
    | None => None
    | Some m =>
        let name := strip_char "`" (group m 1) in
        let raw_type_full := strip (group m 2) in
        Some {| name := name;
                type := normalize_type raw_type_full;
                raw_type := raw_type_full;
                params := ∅;
                constraints := [] |}
    end.

Definition _parse_columns (columns_text : string) : list ColumnDefinition :=
  let columns_text_no_comments := _remove_comments columns_text in
  let potential_column_defs := split_columns columns_text_no_comments EmptyString 0 in
  omap parse_column_def potential_column_defs.

Record ParseResult : Type := mkParseResult {
  tables : gmap string (list ColumnDefinition);
  dialect : option string
}.

(** The dialect line: the first known dialect that the cleaned first line
    equals, case aside. *)
Definition detect_dialect (first_line : string) : option string :=
  let first_line_stripped := strip first_line in
  let first_line_cleaned_for_dialect :=
    sub dialect_marker_pattern EmptyString first_line_stripped in
  List.find (fun dialect_candidate =>
               eqs (lower first_line_cleaned_for_dialect) (lower dialect_candidate))
            KNOWN_DIALECTS.

(** The name under which a matched block is stored: lower-cased, and
    prefixed with the schema name when the block has one. *)
Definition table_name_of (match_groups : caps) : string :=
  let db_schema_name := group match_groups 1 in
  let table_name_str := group match_groups 2 in
  let actual_table_name := remove_char "`" (lower (strip table_name_str)) in
  match db_schema_name with
  | EmptyString => actual_table_name
  | _ => remove_char "`" (lower (strip db_schema_name)) +:+ "." +:+ actual_table_name
  end.

(** One round of the loop over the matches of the table pattern. *)
Definition add_table (tables : gmap string (list ColumnDefinition)) (match_groups : caps)
    : gmap string (list ColumnDefinition) :=
  let actual_table_name := table_name_of match_groups in
  let columns := _parse_columns (group match_groups 3) in
  match columns with
  | [] => tables
  | _ => <[actual_table_name := columns]> tables
  end.

(** The first part of [parse_schema]: the detected dialect and the text
    that is left to parse. *)
Definition split_dialect (schema_content : string) : option string * string :=
  match splitlines schema_content with
  | [] => (None, schema_content)
  | first :: rest =>
      match detect_dialect first with
      | Some d => (Some d, join newline rest)
      | None => (None, schema_content)
      end
  end.

(** The matches of the table pattern that [parse_schema] walks through. *)
Definition table_matches (schema_content : string) : list caps :=
  let content_to_parse := (split_dialect schema_content).2 in
  let schema_content_no_comments := _remove_comments content_to_parse in
  findall table_pattern schema_content_no_comments.

Definition parse_schema (schema_content : string) : ParseResult :=
  let detected_dialect := (split_dialect schema_content).1 in
  let matches := table_matches schema_content in
  {| tables := foldl add_table ∅ matches; dialect := detected_dialect |}.

(** The helper [_split_column_definitions], which nothing calls. *)

(** The character loop of [_split_column_definitions]; [current_def] is
    kept reversed. *)
Fixpoint split_definitions (s : string) (current_def : string) (paren_level : Z)
    : list string :=
  match s with
  | EmptyString =>
      let last := strip (String.rev current_def) in
      match last with EmptyString => [] | _ => [last] end
  | String char s' =>
      if eqc char "(" then split_definitions s' (String char current_def) (paren_level + 1)
      else if eqc char ")" then
        split_definitions s' (String char current_def) (paren_level - 1)
      else if eqc char "," && (paren_level =? 0) then
        let this := strip (String.rev current_def) in
        match this with
        | EmptyString => split_definitions s' EmptyString paren_level
        | _ => this :: split_definitions s' EmptyString paren_level
        end
      else split_definitions s' (String char current_def) paren_level
  end.

Definition _split_column_definitions (columns_text : string) : list string :=
  split_definitions columns_text EmptyString 0.

End SchemaParser.

(** ** Exceptions, and the Python values the generator computes with *)

Inductive exn : Type :=
| ValueError (msg : string)
| TypeError (msg : string)
| OverflowError (msg : string)
| IndexError (msg : string)
| UnicodeDecodeError (msg : string)
| EmptyDataError (msg : string)        (* pandas.errors.EmptyDataError *)
| ParserError (msg : string).          (* pandas.errors.ParserError *)

Inductive result (A : Type) : Type :=
| Ok (a : A)
| Raise (e : exn).
Arguments Ok {A} a.
Arguments Raise {A} e.

Definition bind {A B : Type} (m : result A) (k : A -> result B) : result B :=
  match m with
  | Ok a => k a
  | Raise e => Raise e
  end.

Notation "'do' x <- m ; k" := (bind m (fun x => k))
  (at level 10, x name, m at level 100, k at level 200).
Notation "'do' ( x , y ) <- m ; k" := (bind m (fun '(x, y) => k))
  (at level 10, x name, y name, m at level 100, k at level 200).
Notation "'do' ( x , y , z ) <- m ; k" := (bind m (fun '(x, y, z) => k))
  (at level 10, x name, y name, z name, m at level 100, k at level 200).

Module Py.

(** The truth value of an object, as [if x:] takes it. *)
Definition truthy (v : pyval) : bool :=
  match v with
  | PNone => false
  | PBool b => b
  | PInt z => negb (z =? 0)
  | PFloat f => negb (PrimFloat.eqb f 0%float)
  | PStr s => negb (PyStr.eqs s EmptyString)
  | PDate _ | PDateTime _ => true
  end.

(** [d.get(key, default)]. *)
Definition get (d : gmap string pyval) (key : string) (dflt : pyval) : pyval :=
  default dflt (d !! key).

(** An object used where an integer is required; a [bool] is one. *)
Definition as_int (v : pyval) : result Z :=
  match v with
  | PInt z => Ok z
  | PBool b => Ok (Z.b2z b)
  | _ => Raise (TypeError "an integer is required")
  end.

Definition as_str (v : pyval) : result string :=
  match v with
  | PStr s => Ok s
  | _ => Raise (TypeError "a string is required")
  end.

(** [float(z)]: the nearest double, or OverflowError beyond the doubles. *)
Definition float_of_Z (z : Z) : result float :=
  let f := SF2Prim (binary_normalize prec emax z 0 false) in
  if is_infinity f then Raise (OverflowError "int too large to convert to float")
  else Ok f.

(** [int(f)]: truncation toward zero. *)
Definition int_of_float (f : float) : result Z :=
  match Prim2SF f with
  | S754_zero _ => Ok 0
  | S754_finite s m e =>
      let mag := if 0 <=? e then Z.pos m * 2 ^ e else Z.pos m / 2 ^ (- e) in
      Ok (if s then - mag else mag)
  | S754_infinity _ => Raise (OverflowError "cannot convert float infinity to integer")
  | S754_nan => Raise (ValueError "cannot convert float NaN to integer")
  end.

Definition as_float (v : pyval) : result float :=
  match v with
  | PFloat f => Ok f
  | PInt z => float_of_Z z
  | PBool b => float_of_Z (Z.b2z b)
  | _ => Raise (TypeError "a number is required")
  end.

Definition is_integral (v : pyval) : bool :=
  match v with PInt _ | PBool _ => true | _ => false end.

(** [a - b] and [a + b] on numbers: exact on integers, in doubles as soon
    as one side is a float. *)
Definition sub (a b : pyval) : result pyval :=
  if is_integral a && is_integral b then
    do x <- as_int a; do y <- as_int b; Ok (PInt (x - y))
  else do x <- as_float a; do y <- as_float b; Ok (PFloat (x - y)%float).

Definition add (a b : pyval) : result pyval :=
  if is_integral a && is_integral b then
    do x <- as_int a; do y <- as_int b; Ok (PInt (x + y))
  else do x <- as_float a; do y <- as_float b; Ok (PFloat (x + y)%float).

Definition mul_float (a : pyval) (r : float) : result float :=
  do x <- as_float a; Ok (x * r)%float.

(** A double against an integer, compared exactly; [None] for NaN. *)
Definition float_compare_int (f : float) (z : Z) : option comparison :=
  match Prim2SF f with
  | S754_zero _ => Some (0 ?= z)
  | S754_finite s m e =>
      let sm := if s then Z.neg m else Z.pos m in
      Some (if 0 <=? e then sm * 2 ^ e ?= z else sm ?= z * 2 ^ (- e))
  | S754_infinity s => Some (if s then Lt else Gt)
  | S754_nan => None
  end.

(** How a number stands to an integer; [None] when unordered. *)
Definition compare_int (v : pyval) (z : Z) : result (option comparison) :=
  match v with
  | PInt y => Ok (Some (y ?= z))
  | PBool b => Ok (Some (Z.b2z b ?= z))
  | PFloat g => Ok (float_compare_int g z)
  | _ => Raise (TypeError "comparison not supported between these operands")
  end.

(** [v < z] and [z < v]. *)
Definition lt_int (v : pyval) (z : Z) : result bool :=
  do c <- compare_int v z;
  Ok (match c with Some Lt => true | _ => false end).

Definition int_lt (z : Z) (v : pyval) : result bool :=
  do c <- compare_int v z;
  Ok (match c with Some Gt => true | _ => false end).

(** [f < v] for a double [f]. *)
Definition float_lt (f : float) (v : pyval) : result bool :=
  match v with
  | PFloat g => Ok (PrimFloat.ltb f g)
  | PInt z => Ok (match float_compare_int f z with Some Lt => true | _ => false end)
  | PBool b => Ok (match float_compare_int f (Z.b2z b) with Some Lt => true | _ => false end)
  | _ => Raise (TypeError "comparison not supported between these operands")
  end.

End Py.

(** ** The [random] module

    The state of the seeded generators (the [random] module and the Faker
    instance) is abstracted to a tape of natural numbers read cell by cell:
    whatever the Mersenne Twister delivers after [seed(42)] is one such tape,
    so a property shown for every tape holds of the seeded generator. *)

Module Random.

Record Rng : Type := mkRng {
  tape : nat -> nat;
  cursor : nat
}.

Definition draw (g : Rng) : nat * Rng :=
  (tape g (cursor g), mkRng (tape g) (S (cursor g))).

(** [random.randint(a, b)]. *)
Definition randint (a b : Z) (g : Rng) : result (Z * Rng) :=
  if b <? a then Raise (ValueError "empty range for randrange()")
  else let '(r, g) := draw g in Ok (a + Z.of_nat r mod (b - a + 1), g).

(** [random.random()]: a double in [0, 1) with 53 random bits. *)
Definition random (g : Rng) : float * Rng :=
  let '(r, g) := draw g in
  ((PrimFloat.of_uint63 (Uint63.of_Z (Z.of_nat r mod 2 ^ 53)) * 0x1p-53)%float, g).

(** The selection loop of [random.sample]: an element is picked by
    position and leaves the pool. *)
Fixpoint sample_go {A : Type} (pool : list A) (k : nat) (g : Rng) : list A * Rng :=
  match k with
  | O => ([], g)
  | S k' =>
      let '(r, g) := draw g in
      let j := (r mod length pool)%nat in
      match pool !! j with
      | Some x => let '(xs, g) := sample_go (delete j pool) k' g in (x :: xs, g)
      | None => ([], g)
      end
  end.

(** [random.sample(population, k)]. *)
Definition sample {A : Type} (population : list A) (k : Z) (g : Rng)
    : result (list A * Rng) :=
  if (k <? 0) || (Z.of_nat (length population) <? k)
  then Raise (ValueError "Sample larger than population or is negative")
  else Ok (sample_go population (Z.to_nat k) g).

(** [random.choices(population, k=k)] with equal weights. *)
Fixpoint choices_go {A : Type} (population : list A) (dflt : A) (k : nat) (g : Rng)
    : list A * Rng :=
  match k with
  | O => ([], g)
  | S k' =>
      let '(r, g) := draw g in
      let x := nth (r mod length population)%nat population dflt in
      let '(xs, g) := choices_go population dflt k' g in (x :: xs, g)
  end.

Definition choices {A : Type} (population : list A) (k : Z) (g : Rng)
    : result (list A * Rng) :=
  match population with
  | [] => if 0 <? k then Raise (IndexError "Cannot choose from an empty sequence")
          else Ok ([], g)
  | x :: _ => Ok (choices_go population x (Z.to_nat k) g)
  end.

End Random.

(** ** [src/data_generator.py], generation from a schema *)

Module DataGenerator.
Import Random.

(** What the generator calls outside this repository and outside the
    [random] module: Faker's providers, [datetime.strptime] and the
    built-in [round]. Each is a function of its arguments and, where it is
    random, of one cell of the tape. *)
Record Libraries : Type := mkLibraries {
  (* [str(getattr(self.fake, method)())] *)
  faker_text : string -> nat -> string;
  (* [datetime.strptime(s, '%Y-%m-%d')] as an ordinal *)
  strptime : string -> result Z;
  (* [self.fake.date_between] and [self.fake.date_time_between] *)
  date_between : Z -> Z -> nat -> result Z;
  date_time_between : Z -> Z -> nat -> result Z;
  (* [round(value, ndigits)] for an integer [ndigits], and [round(value, None)] *)
  round_digits : float -> Z -> float;
  round_int : float -> result Z
}.

(** A generated column is a list of values, with [PNone] for null. *)
Fixpoint count_none (values : list pyval) : nat :=
  match values with
  | [] => 0
  | PNone :: rest => S (count_none rest)
  | _ :: rest => count_none rest
  end.

Definition is_none (v : pyval) : bool :=
  match v with PNone => true | _ => false end.

(** [for idx in null_indices: values[idx] = None]. *)
Fixpoint set_nulls (null_indices : list Z) (values : list pyval) : result (list pyval) :=
  match null_indices with
  | [] => Ok values
  | idx :: rest =>
      if (0 <=? idx) && (idx <? Z.of_nat (length values))
      then set_nulls rest (<[Z.to_nat idx := PNone]> values)
      else Raise (IndexError "list assignment index out of range")
  end.

(** [int(num_samples * 0.05)], in doubles as Python computes it. *)
Definition null_count_of (num_samples : Z) : result Z :=
  do n <- Py.float_of_Z num_samples;
  Py.int_of_float (n * 0x1.999999999999ap-5)%float.

(** The block [# Add null values if nullable] that closes each of the six
    generators. *)
Definition add_nulls (num_samples : Z) (nullable : pyval) (values : list pyval)
    (g : Rng) : result (list pyval * Rng) :=
  if Py.truthy nullable then
    do null_count <- null_count_of num_samples;
    do (null_indices, g) <- sample (seqZ 0 num_samples) null_count g;
    do values <- set_nulls null_indices values;
    Ok (values, g)
  else Ok (values, g).

(** [[f() for _ in range(n)]] for a computation that reads the tape. *)
Fixpoint repeat_gen {A : Type} (n : nat) (f : Rng -> result (A * Rng)) (g : Rng)
    : result (list A * Rng) :=
  match n with
  | O => Ok ([], g)
  | S n' =>
      do (x, g) <- f g;
      do (xs, g) <- repeat_gen n' f g;
      Ok (x :: xs, g)
  end.

(** *** Integers *)

(** The values of [_generate_integers], before the null step. *)
Definition integer_values (num_samples : Z) (params : gmap string pyval)
    (unique_counters : gmap string Z) (col_name : string) (g : Rng)
    : result (list pyval * gmap string Z * Rng) :=
  let min_val := Py.get params "min_value" (PInt 1) in
  let max_val := Py.get params "max_value" (PInt 100000) in
  let unique := Py.get params "unique" (PBool false) in
  let auto_increment := Py.get params "auto_increment" (PBool false) in
  if Py.truthy auto_increment then
    let start_val := default 1 (unique_counters !! col_name) in
    let values := PInt <$> seqZ start_val num_samples in
    Ok (values, <[col_name := start_val + num_samples]> unique_counters, g)
  else if Py.truthy unique then
    do width <- (do d <- Py.sub max_val min_val; Py.add d (PInt 1));
    do narrow <- Py.lt_int width num_samples;
    do max_val <- (if narrow : bool then Py.add min_val (PInt num_samples) else Ok max_val);
    do lo <- Py.as_int min_val;
    do hi <- (do m <- Py.add max_val (PInt 1); Py.as_int m);
    do (values, g) <- sample (seqZ lo (hi - lo)) num_samples g;
    Ok (PInt <$> values, unique_counters, g)
  else
    do (values, g) <-
      repeat_gen (Z.to_nat num_samples)
        (fun g => do lo <- Py.as_int min_val; do hi <- Py.as_int max_val; randint lo hi g) g;
    Ok (PInt <$> values, unique_counters, g).

Definition _generate_integers (num_samples : Z) (params : gmap string pyval)
    (unique_counters : gmap string Z) (col_name : string) (g : Rng)
    : result (list pyval * gmap string Z * Rng) :=
  let nullable := Py.get params "nullable" (PBool false) in
  do (values, unique_counters, g) <-
    integer_values num_samples params unique_counters col_name g;
  do (values, g) <- add_nulls num_samples nullable values g;
  Ok (values, unique_counters, g).

Section WithLibraries.
Variable lib : Libraries.

(** *** Floats *)

(** [random.uniform(a, b)], that is [a + (b - a) * random()]. *)
Definition uniform (a b : pyval) (g : Rng) : result (float * Rng) :=
  let '(r, g) := random g in
  do d <- Py.sub b a;
  do p <- Py.mul_float d r;
  do x <- Py.as_float a;
  Ok ((x + p)%float, g).

(** [round(value, scale)]. *)
Definition py_round (value : float) (scale : pyval) : result pyval :=
  match scale with
  | PNone => do z <- round_int lib value; Ok (PInt z)
  | PInt _ | PBool _ => do nd <- Py.as_int scale; Ok (PFloat (round_digits lib value nd))
  | _ => Raise (TypeError "ndigits cannot be interpreted as an integer")
  end.

Definition float_values (num_samples : Z) (params : gmap string pyval) (g : Rng)
    : result (list pyval * Rng) :=
  let min_val := Py.get params "min_value" (PFloat 0%float) in
  let max_val := Py.get params "max_value" (PFloat 10000%float) in
  let precision := Py.get params "precision" PNone in
  let scale := Py.get params "scale" (PInt 2) in
  repeat_gen (Z.to_nat num_samples)
    (fun g =>
       do (value, g) <- uniform min_val max_val g;
       do value <- (if Py.truthy precision then py_round value scale
                    else Ok (PFloat value));
       Ok (value, g)) g.

Definition _generate_floats (num_samples : Z) (params : gmap string pyval) (g : Rng)
    : result (list pyval * Rng) :=
  let nullable := Py.get params "nullable" (PBool false) in
  do (values, g) <- float_values num_samples params g;
  add_nulls num_samples nullable values g.

(** *** Strings *)

Definition faker_keywords : list (list string * string) :=
  [ (["name"; "first_name"; "lastname"], "name");
    (["email"; "mail"], "email");
    (["phone"; "mobile"; "tel"], "phone_number");
    (["address"; "street"], "address");
    (["city"], "city");
    (["state"; "province"], "state");
    (["country"], "country");
    (["company"; "organization"], "company");
    (["job"; "position"; "title"], "job");
    (["description"; "text"; "comment"], "text") ].

Definition _choose_faker_method (col_name : string) : option string :=
  let col_lower := PyStr.lower col_name in
  snd <$> List.find (fun entry => existsb (fun keyword => PyStr.contains keyword col_lower)
                                          entry.1)
                    faker_keywords.

(** [string.ascii_letters + string.digits + ' ']. *)
Definition alphabet : list ascii :=
  list_ascii_of_string
    "abcdefghijklmnopqrstuvwxyzABCDEFGHIJKLMNOPQRSTUVWXYZ0123456789 ".

(** The loop [while value in used_values] that appends [_1], [_2], ...
    to the original value. It stops within [size used_values + 1]
    rounds, which is the fuel it is given. *)
Fixpoint uniquify (fuel : nat) (original_value : string) (counter : Z)
    (value : string) (used_values : gset string) : string :=
  match fuel with
  | O => value
  | S fuel' =>
      if bool_decide (value ∈ used_values)
      then uniquify fuel' original_value (counter + 1)
             (original_value +:+ "_" +:+ pretty counter) used_values
      else value
  end.

(** [value[:stop]]. *)
Definition slice_to (value : string) (stop : Z) : string :=
  if 0 <=? stop then PyStr.take (Z.to_nat stop) value
  else PyStr.take (Z.to_nat (Z.of_nat (String.length value) + stop)) value.

(** One round of the loop of [_generate_strings]. *)
Definition string_value (params : gmap string pyval) (faker_method : option string)
    (used_values : gset string) (g : Rng) : result (string * gset string * Rng) :=
  let min_length := Py.get params "min_length" (PInt 1) in
  let max_length := Py.get params "max_length" (PInt 255) in
  let unique := Py.get params "unique" (PBool false) in
  do (value, g) <-
    match faker_method with
    | Some method => let '(r, g) := draw g in Ok (faker_text lib method r, g)
    | None =>
        do capped <- Py.int_lt 50 max_length;
        do lo <- Py.as_int min_length;
        do hi <- Py.as_int (if capped : bool then PInt 50 else max_length);
        do (len, g) <- randint lo hi g;
        do (chars, g) <- choices alphabet len g;
        Ok (string_of_list_ascii chars, g)
    end;
  let '(value, used_values) :=
    if Py.truthy unique then
      let value := uniquify (S (size used_values)) value 1 value used_values in
      (value, {[value]} ∪ used_values)
    else (value, used_values) in
  do too_long <- Py.lt_int max_length (Z.of_nat (String.length value));
  do value <- (if too_long : bool
               then do stop <- Py.as_int max_length; Ok (slice_to value stop)
               else Ok value);
  Ok (value, used_values, g).

Fixpoint string_loop (n : nat) (params : gmap string pyval)
    (faker_method : option string) (used_values : gset string) (g : Rng)
    : result (list pyval * Rng) :=
  match n with
  | O => Ok ([], g)
  | S n' =>
      do (value, used_values, g) <- string_value params faker_method used_values g;
      do (values, g) <- string_loop n' params faker_method used_values g;
      Ok (PStr value :: values, g)
  end.

Definition string_values (num_samples : Z) (params : gmap string pyval)
    (col_name : string) (g : Rng) : result (list pyval * Rng) :=
  string_loop (Z.to_nat num_samples) params (_choose_faker_method col_name) ∅ g.

Definition _generate_strings (num_samples : Z) (params : gmap string pyval)
    (col_name : string) (g : Rng) : result (list pyval * Rng) :=
  let nullable := Py.get params "nullable" (PBool false) in
  do (values, g) <- string_values num_samples params col_name g;
  add_nulls num_samples nullable values g.

(** *** Dates, datetimes and booleans *)

Definition date_bounds (params : gmap string pyval) : result (Z * Z) :=
  do s <- Py.as_str (Py.get params "start_date" (PStr "2020-01-01"));
  do start_date <- strptime lib s;
  do e <- Py.as_str (Py.get params "end_date" (PStr "2024-12-31"));
  do end_date <- strptime lib e;
  Ok (start_date, end_date).

Definition date_values (num_samples : Z) (params : gmap string pyval) (g : Rng)
    : result (list pyval * Rng) :=
  do (start_date, end_date) <- date_bounds params;
  repeat_gen (Z.to_nat num_samples)
    (fun g => let '(r, g) := draw g in
              do d <- date_between lib start_date end_date r; Ok (PDate d, g)) g.

Definition _generate_dates (num_samples : Z) (params : gmap string pyval) (g : Rng)
    : result (list pyval * Rng) :=
  let nullable := Py.get params "nullable" (PBool false) in
  do (values, g) <- date_values num_samples params g;
  add_nulls num_samples nullable values g.

Definition datetime_values (num_samples : Z) (params : gmap string pyval) (g : Rng)
    : result (list pyval * Rng) :=
  do (start_date, end_date) <- date_bounds params;
  repeat_gen (Z.to_nat num_samples)
    (fun g => let '(r, g) := draw g in
              do t <- date_time_between lib start_date end_date r; Ok (PDateTime t, g)) g.

Definition _generate_datetimes (num_samples : Z) (params : gmap string pyval) (g : Rng)
    : result (list pyval * Rng) :=
  let nullable := Py.get params "nullable" (PBool false) in
  do (values, g) <- datetime_values num_samples params g;
  add_nulls num_samples nullable values g.

Definition boolean_values (num_samples : Z) (params : gmap string pyval) (g : Rng)
    : result (list pyval * Rng) :=
  let true_prob := Py.get params "true_probability" (PFloat 0.5%float) in
  repeat_gen (Z.to_nat num_samples)
    (fun g => let '(r, g) := random g in
              do value <- Py.float_lt r true_prob; Ok (PBool value, g)) g.

Definition _generate_booleans (num_samples : Z) (params : gmap string pyval) (g : Rng)
    : result (list pyval * Rng) :=
  let nullable := Py.get params "nullable" (PBool false) in
  do (values, g) <- boolean_values num_samples params g;
  add_nulls num_samples nullable values g.

(** *** [generate_from_schema] *)

(** The dispatch on the column type inside the loop over the columns. *)
Definition generate_column (column : ColumnDefinition) (num_samples : Z)
    (unique_counters : gmap string Z) (g : Rng)
    : result (list pyval * gmap string Z * Rng) :=
  let col_name := name column in
  let col_type := type column in
  let params := params column in
  let keep r := do (values, g) <- r; Ok (values, unique_counters, g) in
  if PyStr.eqs col_type "integer" then
    _generate_integers num_samples params unique_counters col_name g
  else if PyStr.eqs col_type "float" then keep (_generate_floats num_samples params g)
  else if PyStr.eqs col_type "string" then
    keep (_generate_strings num_samples params col_name g)
  else if PyStr.eqs col_type "date" then keep (_generate_dates num_samples params g)
  else if PyStr.eqs col_type "datetime" then
    keep (_generate_datetimes num_samples params g)
  else if PyStr.eqs col_type "boolean" then
    keep (_generate_booleans num_samples params g)
  else keep (_generate_strings num_samples params col_name g).

Fixpoint generate_columns (columns : list ColumnDefinition) (num_samples : Z)
    (data : gmap string (list pyval)) (unique_counters : gmap string Z) (g : Rng)
    : result (gmap string (list pyval) * Rng) :=
  match columns with
  | [] => Ok (data, g)
  | column :: rest =>
      do (values, unique_counters, g) <-
        generate_column column num_samples unique_counters g;
      generate_columns rest num_samples (<[name column := values]> data)
        unique_counters g
  end.

(** The frame is kept as the dictionary it is built from; the generator
    instance is the state [g] of its random sources. *)
Definition generate_from_schema (columns : list ColumnDefinition) (num_samples : Z)
    (g : Rng) : result (gmap string (list pyval) * Rng) :=
  generate_columns columns num_samples ∅ ∅ g.

End WithLibraries.

End DataGenerator.

(** ** [src/data_analyzer.py] *)

Module DataAnalyzer.

Definition supported_extensions : list string := [".csv"; ".xlsx"; ".xls"].

(** [filename.split('.')[-1]]: the text after the last dot, the whole name
    when it has none. [cur] is the current piece, reversed. *)
Fixpoint last_piece (cur : string) (filename : string) : string :=
  match filename with
  | EmptyString => String.rev cur
  | String c rest =>
      if PyStr.eqc c "." then last_piece EmptyString rest
      else last_piece (String c cur) rest
  end.

Definition _get_file_extension (filename : string) : string :=
  "." +:+ PyStr.lower (last_piece EmptyString filename).

(** The uploaded file object: its name and its bytes. *)
Record UploadedFile : Type := mkUploadedFile {
  name : string;
  content : string
}.

Section WithPandas.
(** The frames and the profile of a frame. The profiling of the columns
    of a frame, [_analyze_dataframe], is pandas calls from end to end and
    is taken as a function here; the one part of it that is decision
    logic, [_get_distribution_info], is embedded below. *)
Variables DataFrame Analysis : Type.
Variable read_csv : UploadedFile -> string -> result DataFrame.
Variable sheet_names : UploadedFile -> result (list string).
Variable read_excel : UploadedFile -> string -> result DataFrame.
Variable _analyze_dataframe : DataFrame -> float -> result Analysis.

(** What [analyze_file] returns: one profile for a CSV file, a profile
    per sheet for a workbook. *)
Inductive FileAnalysis : Type :=
| OfCsv (analysis : Analysis)
| OfExcel (sheet_analyses : gmap string Analysis).

Definition _analyze_csv (uploaded_file : UploadedFile) (noise_level : float)
    : result Analysis :=
  do df <- match read_csv uploaded_file "utf-8" with
           | Raise (UnicodeDecodeError _) => read_csv uploaded_file "latin-1"
           | r => r
           end;
  _analyze_dataframe df noise_level.

Fixpoint analyze_sheets (uploaded_file : UploadedFile) (noise_level : float)
    (names : list string) (sheet_analyses : gmap string Analysis)
    : result (gmap string Analysis) :=
  match names with
  | [] => Ok sheet_analyses
  | sheet_name :: rest =>
      do df <- read_excel uploaded_file sheet_name;
      do a <- _analyze_dataframe df noise_level;
      analyze_sheets uploaded_file noise_level rest (<[sheet_name := a]> sheet_analyses)
  end.

Definition _analyze_excel (uploaded_file : UploadedFile) (noise_level : float)
    : result (gmap string Analysis) :=
  do names <- sheet_names uploaded_file;
  analyze_sheets uploaded_file noise_level names ∅.

Definition analyze_file (uploaded_file : UploadedFile) (noise_level : float)
    : result FileAnalysis :=
  let file_extension := _get_file_extension (name uploaded_file) in
  if PyStr.eqs file_extension ".csv" then
    do a <- _analyze_csv uploaded_file noise_level; Ok (OfCsv a)
  else if existsb (PyStr.eqs file_extension) [".xlsx"; ".xls"] then
    do a <- _analyze_excel uploaded_file noise_level; Ok (OfExcel a)
  else Raise (ValueError ("Unsupported file type: " +:+ file_extension)).

End WithPandas.

Arguments OfCsv {Analysis} analysis.
Arguments OfExcel {Analysis} sheet_analyses.
Arguments _analyze_csv {DataFrame Analysis} read_csv _analyze_dataframe uploaded_file noise_level.
Arguments analyze_sheets {DataFrame Analysis} read_excel _analyze_dataframe
  uploaded_file noise_level names sheet_analyses.
Arguments _analyze_excel {DataFrame Analysis} sheet_names read_excel _analyze_dataframe
  uploaded_file noise_level.
Arguments analyze_file {DataFrame Analysis} read_csv sheet_names read_excel
  _analyze_dataframe uploaded_file noise_level.

(** A numeric column, as far as [_get_distribution_info] looks at it: the
    outcome of each pandas call it makes. The statistics are doubles (for
    an integer column with extremes within 2^53 the arithmetic below gives
    the same doubles). *)
Record Series : Type := mkSeries {
  skew : result float;
  kurtosis : result float;
  min : result float;
  max : result float;
  std : result float
}.

(** The dictionary [_get_distribution_info] returns; the two statistics
    are absent from the fallback. *)
Record Distribution : Type := mkDistribution {
  d_skewness : option float;
  d_kurtosis : option float;
  d_type : string
}.

(** The body of the [try] block. *)
Definition distribution_body (series : Series) : result Distribution :=
  do skewness <- skew series;
  do kurtosis <- kurtosis series;
  do distribution_type <-
    (if PrimFloat.ltb 1 (PrimFloat.abs skewness) then Ok "skewed"
     else
       do lowest <- min series;
       if PrimFloat.leb 0 lowest then
         do highest <- max series;
         do lowest <- min series;
         do spread <- std series;
         if PrimFloat.ltb ((highest - lowest) / spread) 2 then Ok "uniform"
         else Ok "normal"
       else Ok "normal");
  Ok {| d_skewness := Some skewness; d_kurtosis := Some kurtosis;
        d_type := distribution_type |}.

Definition unknown_distribution : Distribution :=
  {| d_skewness := None; d_kurtosis := None; d_type := "unknown" |}.

Definition _get_distribution_info (series : Series) : Distribution :=
  match distribution_body series with
  | Ok d => d
  | Raise _ => unknown_distribution
  end.

End DataAnalyzer.

(** ** [src/page/data_generator_page.py]: the quick validation of a schema *)

Module Page.

(** The Streamlit calls that a function makes, in their order. *)
Inductive ui_event : Type :=
| st_success (body : string)
| st_error (body : string)
| st_write (body : string).

(** The values of the dictionary that [parse_schema] returns, and the
    dictionary itself, in the order of its keys. *)
Inductive parsed_value : Type :=
| TablesValue (tables : gmap string (list ColumnDefinition))
| DialectValue (dialect : option string).

Definition parsed_dict (parsed_output : SchemaParser.ParseResult)
    : list (string * parsed_value) :=
  [ ("tables", TablesValue (SchemaParser.tables parsed_output));
    ("dialect", DialectValue (SchemaParser.dialect parsed_output)) ].

(** [len(x)] on such a value. *)
Definition py_len (x : parsed_value) : result Z :=
  match x with
  | TablesValue tables => Ok (Z.of_nat (size tables))
  | DialectValue (Some d) => Ok (Z.of_nat (String.length d))
  | DialectValue None => Raise (TypeError "object of type 'NoneType' has no len()")
  end.

(** [str(e)]. *)
Definition str_of_exn (e : exn) : string :=
  match e with
  | ValueError msg | TypeError msg | OverflowError msg | IndexError msg
  | UnicodeDecodeError msg | EmptyDataError msg | ParserError msg => msg
  end.

(** The loop over [tables.items()]: the calls made so far and, when the
    loop was left by an exception, the exception. *)
Fixpoint write_items (items : list (string * parsed_value)) (shown : list ui_event)
    : list ui_event * option exn :=
  match items with
  | [] => (shown, None)
  | (table_name, columns) :: rest =>
      match py_len columns with
      | Ok n =>
          write_items rest
            (shown ++ [st_write ("• **" +:+ table_name +:+ "**: " +:+ pretty n
                                 +:+ " columns")])
      | Raise e => (shown, Some e)
      end
  end.

Definition validate_schema_quick (schema : string) : list ui_event :=
  let tables := parsed_dict (SchemaParser.parse_schema schema) in
  let '(shown, raised) :=
    match tables with
    | [] => ([st_error "No valid tables found"], None)
    | _ :: _ =>
        write_items tables
          [st_success ("Valid schema with " +:+ pretty (Z.of_nat (length tables))
                       +:+ " table(s)")]
    end in
  match raised with
  | None => shown
  | Some e => shown ++ [st_error ("Validation error: " +:+ str_of_exn e)]
  end.

End Page.

(** * Notions used in the statements *)

(** A column definition that carries no generation hint. *)
Definition blank (column : ColumnDefinition) : Prop :=
  params column = ∅ ∧ constraints column = [].

(** An entry of the table map comes from one of the matched blocks, whose
    parsed column list is not empty. *)
Definition from_block (matches : list Re.caps) (table_name : string)
    (columns : list ColumnDefinition) : Prop :=
  columns ≠ [] ∧
  ∃ m, m ∈ matches ∧ table_name = SchemaParser.table_name_of m ∧
       columns = SchemaParser._parse_columns (Re.group m 3).

Definition no_nulls (values : list pyval) : Prop :=
  Forall (λ v, DataGenerator.is_none v = false) values.

Definition nullable_of (column : ColumnDefinition) : pyval :=
  Py.get (params column) "nullable" (PBool false).

(** The values a column gets before the null step: the dispatch of
    [generate_column] over the value loops of the six generators. *)
Definition column_values (lib : DataGenerator.Libraries) (column : ColumnDefinition)
    (num_samples : Z) (unique_counters : gmap string Z) (g : Random.Rng)
    : result (list pyval * gmap string Z * Random.Rng) :=
  let col_name := name column in
  let col_type := type column in
  let params := params column in
  let keep r := do (values, g) <- r; Ok (values, unique_counters, g) in
  if PyStr.eqs col_type "integer" then
    DataGenerator.integer_values num_samples params unique_counters col_name g
  else if PyStr.eqs col_type "float" then
    keep (DataGenerator.float_values lib num_samples params g)
  else if PyStr.eqs col_type "string" then
    keep (DataGenerator.string_values lib num_samples params col_name g)
  else if PyStr.eqs col_type "date" then
    keep (DataGenerator.date_values lib num_samples params g)
  else if PyStr.eqs col_type "datetime" then
    keep (DataGenerator.datetime_values lib num_samples params g)
  else if PyStr.eqs col_type "boolean" then
    keep (DataGenerator.boolean_values num_samples params g)
  else keep (DataGenerator.string_values lib num_samples params col_name g).

(** [f"{original}_{k}"]. *)
Definition suffixed (original : string) (k : Z) : string :=
  original +:+ "_" +:+ pretty k.

Definition one_char (c : ascii) : string := String c EmptyString.

(** ** Notions about the matcher *)

Section MatcherNotions.
Import Re.
Context {R : Type}.
Implicit Types k : option ascii → string → caps → option R.

(** Two continuations that agree on the positions not longer than [n]. *)
Definition agree_upto (n : nat) k1 k2 : Prop :=
  ∀ prev s c, (String.length s ≤ n)%nat → k1 prev s c = k2 prev s c.

(** The outcome of a body depends on its continuation only at positions
    that are not longer than the one it starts from. *)
Definition local_body
    (body : option ascii → string → caps →
            (option ascii → string → caps → option R) → option R) : Prop :=
  ∀ prev s c k1 k2, agree_upto (String.length s) k1 k2 → body prev s c k1 = body prev s c k2.

(** A successful match ends on a continuation that succeeds at a position
    not longer than the start. *)
Definition ends_within
    (body : option ascii → string → caps →
            (option ascii → string → caps → option R) → option R) : Prop :=
  ∀ prev s c k x, body prev s c k = Some x →
    ∃ prev' s' c', k prev' s' c' = Some x ∧ (String.length s' ≤ String.length s)%nat.

End MatcherNotions.

(** What is left to scan, counted so that every match makes it smaller. *)
Definition scan_measure (must_advance : bool) (s : string) : nat :=
  2 * String.length s + (if must_advance then 0 else 1).

(** ** Concrete inputs *)

Definition id_column : ColumnDefinition :=
  {| name := "id"; type := "integer"; raw_type := "INT"; params := ∅; constraints := [] |}.

Definition dialect_schema : string :=
  "PostgreSQL" +:+ SchemaParser.newline +:+ "CREATE TABLE t (id INT);".

Definition plain_schema : string := "CREATE TABLE t (id INT);".

(** A column written with constraints, and what the parser makes of it:
    the constraints stay in the raw type. *)
Definition constrained_schema : string :=
  "CREATE TABLE t (id INT NOT NULL AUTO_INCREMENT);".

Definition constrained_column : ColumnDefinition :=
  {| name := "id"; type := "integer"; raw_type := "INT NOT NULL AUTO_INCREMENT";
     params := ∅; constraints := [] |}.

Definition seven_types : string :=
  "a INT, b VARCHAR(255), c DECIMAL(10,2), d DATE, e DATETIME, f BOOLEAN, g TEXT".

(** A tape and stand-ins for the libraries, to run the generator with. *)
Definition zero_tape : Random.Rng := Random.mkRng (fun _ => 0%nat) 0.

Definition plain_libraries : DataGenerator.Libraries :=
  {| DataGenerator.faker_text := fun method r => method +:+ "_" +:+ pretty r;
     DataGenerator.strptime := fun s => Ok (Z.of_nat (String.length s));
     DataGenerator.date_between := fun start_date end_date r => Ok start_date;
     DataGenerator.date_time_between := fun start_date end_date r => Ok start_date;
     DataGenerator.round_digits := fun value ndigits => value;
     DataGenerator.round_int := fun value => Py.int_of_float value |}.

Definition auto_id : ColumnDefinition :=
  {| name := "id"; type := "integer"; raw_type := "INT";
     params := {[ "auto_increment" := PBool true ]}; constraints := [] |}.

Definition nullable_id : ColumnDefinition :=
  {| name := "id"; type := "integer"; raw_type := "INT";
     params := {[ "auto_increment" := PBool true; "nullable" := PBool true ]};
     constraints := [] |}.

Definition narrow_unique : gmap string pyval :=
  {[ "min_value" := PInt 1; "max_value" := PInt 10; "unique" := PBool true ]}.

Definition one_char_unique : gmap string pyval :=
  {[ "unique" := PBool true; "max_length" := PInt 1 ]}.

(** A CSV reader that does what pandas does on a file without content: it
    raises [EmptyDataError]. Other files are read to a frame the model does
    not look into. *)
Definition read_csv_strict (uploaded_file : DataAnalyzer.UploadedFile) (encoding : string)
    : result unit :=
  match DataAnalyzer.content uploaded_file with
  | EmptyString => Raise (EmptyDataError "No columns to parse from file")
  | _ => Ok tt
  end.

Definition empty_csv : DataAnalyzer.UploadedFile :=
  {| DataAnalyzer.name := "data.csv"; DataAnalyzer.content := EmptyString |}.

Definition notes_txt : DataAnalyzer.UploadedFile :=
  {| DataAnalyzer.name := "notes.txt"; DataAnalyzer.content := "hello" |}.

(** A column with a single value: pandas reports NaN for its skewness,
    kurtosis and standard deviation. *)
Definition single_value_series : DataAnalyzer.Series :=
  {| DataAnalyzer.skew := Ok nan; DataAnalyzer.kurtosis := Ok nan;
     DataAnalyzer.min := Ok 5%float; DataAnalyzer.max := Ok 5%float;
     DataAnalyzer.std := Ok nan |}.

(** ** The libraries on the default date range *)

(** [strptime] reads the two default bounds, and Faker's [date_between] and
    [date_time_between] return a value between them: what a working
    installation of the libraries does. *)
Definition dates_supported (lib : DataGenerator.Libraries) : Prop :=
  ∃ s e, DataGenerator.strptime lib "2020-01-01" = Ok s ∧
         DataGenerator.strptime lib "2024-12-31" = Ok e ∧
         (∀ r, ∃ d, DataGenerator.date_between lib s e r = Ok d) ∧
         (∀ r, ∃ t, DataGenerator.date_time_between lib s e r = Ok t).

(** ** More concrete inputs *)

Definition order_id : ColumnDefinition :=
  {| name := "order_id"; type := "integer"; raw_type := "INT";
     params := {[ "auto_increment" := PBool true ]}; constraints := [] |}.

Definition dice : gmap string pyval :=
  {[ "min_value" := PInt 1; "max_value" := PInt 6 ]}.

Definition reversed_bounds : gmap string pyval :=
  {[ "min_value" := PInt 6; "max_value" := PInt 1 ]}.

Definition unique_codes : gmap string pyval :=
  {[ "unique" := PBool true; "max_length" := PInt 3 ]}.

Definition short_codes : gmap string pyval :=
  {[ "min_length" := PInt 2; "max_length" := PInt 4 ]}.

Definition no_room : gmap string pyval :=
  {[ "max_length" := PInt 0 ]}.

(** ** Generation with the built-in defaults *)

(** What the generator does for a column that gives it no parameter, written
    out with the values that its [params.get] calls fall back on: integers
    drawn between 1 and 100000; floats drawn between 0.0 and 10000.0 and not
    rounded; strings that are a Faker text chosen by the name of the column
    or else 1 to [min(255, 50)] characters of the alphabet, cut after 255
    characters; dates and datetimes between 2020-01-01 and 2024-12-31;
    booleans that are true with probability 0.5. No value is made null,
    none is made unique, no column counts up, and no counter is kept. *)
Definition default_text (lib : DataGenerator.Libraries) (col_name : string)
    (g : Random.Rng) : result (string * Random.Rng) :=
  do (value, g) <-
    match DataGenerator._choose_faker_method col_name with
    | Some method =>
        let '(r, g) := Random.draw g in Ok (DataGenerator.faker_text lib method r, g)
    | None =>
        do (len, g) <- Random.randint 1 50 g;
        do (chars, g) <- Random.choices DataGenerator.alphabet len g;
        Ok (string_of_list_ascii chars, g)
    end;
  Ok (if 255 <? Z.of_nat (String.length value) then PyStr.take 255 value else value, g).

Definition default_values (lib : DataGenerator.Libraries) (col_type col_name : string)
    (num_samples : Z) (g : Random.Rng) : result (list pyval * Random.Rng) :=
  let n := Z.to_nat num_samples in
  let strings :=
    DataGenerator.repeat_gen n
      (fun g => do (value, g) <- default_text lib col_name g; Ok (PStr value, g)) g in
  if PyStr.eqs col_type "integer" then
    do (values, g) <- DataGenerator.repeat_gen n (fun g => Random.randint 1 100000 g) g;
    Ok (PInt <$> values, g)
  else if PyStr.eqs col_type "float" then
    DataGenerator.repeat_gen n
      (fun g => let '(r, g) := Random.random g in Ok (PFloat (0 + 10000 * r)%float, g)) g
  else if PyStr.eqs col_type "string" then strings
  else if PyStr.eqs col_type "date" then
    do start_date <- DataGenerator.strptime lib "2020-01-01";
    do end_date <- DataGenerator.strptime lib "2024-12-31";
    DataGenerator.repeat_gen n
      (fun g => let '(r, g) := Random.draw g in
                do d <- DataGenerator.date_between lib start_date end_date r;
                Ok (PDate d, g)) g
  else if PyStr.eqs col_type "datetime" then
    do start_date <- DataGenerator.strptime lib "2020-01-01";
    do end_date <- DataGenerator.strptime lib "2024-12-31";
    DataGenerator.repeat_gen n
      (fun g => let '(r, g) := Random.draw g in
                do t <- DataGenerator.date_time_between lib start_date end_date r;
                Ok (PDateTime t, g)) g
  else if PyStr.eqs col_type "boolean" then
    DataGenerator.repeat_gen n
      (fun g => let '(r, g) := Random.random g in
                Ok (PBool (PrimFloat.ltb r 0.5%float), g)) g
  else strings.

(** The frame of a list of columns generated this way. *)
Fixpoint default_frame (lib : DataGenerator.Libraries) (columns : list ColumnDefinition)
    (num_samples : Z) (data : gmap string (list pyval)) (g : Random.Rng)
    : result (gmap string (list pyval) * Random.Rng) :=
  match columns with
  | [] => Ok (data, g)
  | column :: rest =>
      do (values, g) <- default_values lib (type column) (name column) num_samples g;
      default_frame lib rest num_samples (<[name column := values]> data) g
  end.

(** ** The characters of a text, and the texts of a pattern *)

(** Some character of [s] is in the class [q]; every character of [s] is. *)
Fixpoint any_char (q : ascii → bool) (s : string) : bool :=
  match s with
  | EmptyString => false
  | String a s' => q a || any_char q s'
  end.

Fixpoint all_chars (q : ascii → bool) (s : string) : bool :=
  match s with
  | EmptyString => true
  | String a s' => q a && all_chars q s'
  end.

Definition concat_strings (ts : list string) : string := foldr String.app EmptyString ts.

(** The texts that a pattern can consume, the positions that its anchors
    ask for left aside. *)
Fixpoint lang (r : Re.regex) (t : string) : Prop :=
  match r with
  | Re.Eps | Re.Bol _ | Re.Eol _ => t = EmptyString
  | Re.Class p => ∃ a, p a = true ∧ t = String a EmptyString
  | Re.Cat r1 r2 => ∃ t1 t2, t = t1 +:+ t2 ∧ lang r1 t1 ∧ lang r2 t2
  | Re.Alt r1 r2 => lang r1 t ∨ lang r2 t
  | Re.Star _ r1 => ∃ ts, t = concat_strings ts ∧ Forall (lang r1) ts
  | Re.Group _ r1 => lang r1 t
  end.

Definition all_ascii : list ascii := ascii_of_nat <$> seq 0 256.

Definition class_subset (p q : ascii → bool) : bool :=
  forallb (fun a => implb (p a) (q a)) all_ascii.

(** Every text of [r] has a character of the class [q]; every text of [r]
    is made of characters of [q]; every match of [r] sets the group [n]. *)
Fixpoint requires (q : ascii → bool) (r : Re.regex) : bool :=
  match r with
  | Re.Class p => class_subset p q
  | Re.Cat r1 r2 => requires q r1 || requires q r2
  | Re.Alt r1 r2 => requires q r1 && requires q r2
  | Re.Group _ r1 => requires q r1
  | _ => false
  end.

Fixpoint within (q : ascii → bool) (r : Re.regex) : bool :=
  match r with
  | Re.Class p => class_subset p q
  | Re.Cat r1 r2 | Re.Alt r1 r2 => within q r1 && within q r2
  | Re.Star _ r1 | Re.Group _ r1 => within q r1
  | _ => true
  end.

Fixpoint defines (n : nat) (r : Re.regex) : bool :=
  match r with
  | Re.Cat r1 r2 => defines n r1 || defines n r2
  | Re.Alt r1 r2 => defines n r1 && defines n r2
  | Re.Group m r1 => Nat.eqb m n || defines n r1
  | _ => false
  end.

(** What is known of the captured groups: [G n t] for a text [t] captured
    as group [n]. A pattern keeps to [G] when the texts of each of its
    groups satisfy it. *)
Definition caps_ok (G : nat → string → Prop) (c : Re.caps) : Prop :=
  ∀ n t, c n = Some t → G n t.

Fixpoint groups_ok (G : nat → string → Prop) (r : Re.regex) : Prop :=
  match r with
  | Re.Cat r1 r2 | Re.Alt r1 r2 => groups_ok G r1 ∧ groups_ok G r2
  | Re.Star _ r1 => groups_ok G r1
  | Re.Group n r1 => (∀ t, lang r1 t → G n t) ∧ groups_ok G r1
  | _ => True
  end.

(** Every match of [r] leaves the group [n] as it found it. *)
Fixpoint leaves (n : nat) (r : Re.regex) : bool :=
  match r with
  | Re.Cat r1 r2 | Re.Alt r1 r2 => leaves n r1 && leaves n r2
  | Re.Star _ r1 => leaves n r1
  | Re.Group m r1 => negb (Nat.eqb m n) && leaves n r1
  | _ => true
  end.

(** One way of matching [r]: from the position [(prev, s)] with the
    captures [c] to the position [(prev', s')] with the captures [c']. The
    matcher walks through these in its order of preference; the relation
    leaves the order aside. A round of a repetition consumes something. *)
Inductive derive : Re.regex → option ascii → string → Re.caps →
                   option ascii → string → Re.caps → Prop :=
| derive_Eps prev s c : derive Re.Eps prev s c prev s c
| derive_Class (p : ascii → bool) prev a s c :
    p a = true → derive (Re.Class p) prev (String a s) c (Some a) s c
| derive_Cat r1 r2 prev s c prev1 s1 c1 prev2 s2 c2 :
    derive r1 prev s c prev1 s1 c1 → derive r2 prev1 s1 c1 prev2 s2 c2 →
    derive (Re.Cat r1 r2) prev s c prev2 s2 c2
| derive_Alt_l r1 r2 prev s c prev1 s1 c1 :
    derive r1 prev s c prev1 s1 c1 → derive (Re.Alt r1 r2) prev s c prev1 s1 c1
| derive_Alt_r r1 r2 prev s c prev1 s1 c1 :
    derive r2 prev s c prev1 s1 c1 → derive (Re.Alt r1 r2) prev s c prev1 s1 c1
| derive_Star_stop greedy r prev s c : derive (Re.Star greedy r) prev s c prev s c
| derive_Star_round greedy r prev s c prev1 s1 c1 prev2 s2 c2 :
    derive r prev s c prev1 s1 c1 → (String.length s1 < String.length s)%nat →
    derive (Re.Star greedy r) prev1 s1 c1 prev2 s2 c2 →
    derive (Re.Star greedy r) prev s c prev2 s2 c2
| derive_Group n r prev s c prev1 s1 c1 :
    derive r prev s c prev1 s1 c1 →
    derive (Re.Group n r) prev s c prev1 s1
           (Re.set_cap n (PyStr.take (String.length s - String.length s1) s) c1)
| derive_Bol ml prev s c :
    Re.at_bol ml prev = true → derive (Re.Bol ml) prev s c prev s c
| derive_Eol ml prev s c :
    Re.at_eol ml s = true → derive (Re.Eol ml) prev s c prev s c.

(** The text that a list of matches was found in, and the text that [sub]
    makes of it. *)
Definition rebuild (fs : list Re.found) (tail : string) : string :=
  foldr (fun f acc => Re.f_before f +:+ Re.f_text f +:+ acc) tail fs.

(** What is known of a reported match: its text is a text of the pattern,
    its captures keep to [G], and the groups that the pattern always sets
    are set. *)
Definition found_ok (G : nat → string → Prop) (r : Re.regex) (f : Re.found) : Prop :=
  lang r (Re.f_text f) ∧ caps_ok G (Re.f_caps f) ∧
  ∀ n, defines n r = true → is_Some (Re.f_caps f n).

(** ** Notions for the parser *)

(** A text of 7-bit characters. The classes and case mappings of [PyStr]
    are Python's on such text; outside it Python's are wider ([\w] takes
    the letters and digits of every script), so a statement that says in
    which class the characters of a result are is made for a text of this
    kind. *)
Definition is_ascii (a : ascii) : bool := (PyStr.code a <? 128)%N.

Definition ascii_text (s : string) : Prop := all_chars is_ascii s = true.

(** A non-empty text over the class [q]. *)
Definition text_of (q : ascii → bool) (t : string) : Prop :=
  t ≠ EmptyString ∧ all_chars q t = true.

(** The characters of a lower-case identifier. *)
Definition is_ident_char (a : ascii) : bool :=
  PyStr.is_lower a || PyStr.is_digit a || PyStr.eqc a "_".

Definition identifier : string → Prop := text_of is_ident_char.

(** The six types that the generator dispatches on. *)
Definition canonical_types : list string :=
  ["integer"; "float"; "string"; "date"; "datetime"; "boolean"].

(** What the groups of a pattern hold when each group [n] with [spec n =
    Some q] is a non-empty text over [q], and the check that a pattern
    keeps to it. *)
Definition groups_of (spec : nat → option (ascii → bool)) (n : nat) (t : string) : Prop :=
  match spec n with
  | Some q => text_of q t
  | None => True
  end.

Fixpoint groups_within (spec : nat → option (ascii → bool)) (r : Re.regex) : bool :=
  match r with
  | Re.Cat r1 r2 | Re.Alt r1 r2 => groups_within spec r1 && groups_within spec r2
  | Re.Star _ r1 => groups_within spec r1
  | Re.Group n r1 =>
      match spec n with
      | Some q => within q r1 && requires q r1
      | None => true
      end && groups_within spec r1
  | _ => true
  end.

(** The groups of the table pattern: the schema name and the table name
    are words. *)
Definition table_groups (n : nat) : option (ascii → bool) :=
  match n with
  | 1%nat | 2%nat => Some PyStr.is_word
  | _ => None
  end.

(** The groups of the column pattern: the name is a word, the raw type is
    made of word characters, white space, parentheses and commas. *)
Definition is_raw_type_char (a : ascii) : bool :=
  PyStr.is_word a || PyStr.is_space a || PyStr.eqc a "(" || PyStr.eqc a ")"
  || PyStr.eqc a ",".

Definition column_groups (n : nat) : option (ascii → bool) :=
  match n with
  | 1%nat => Some PyStr.is_word
  | 2%nat => Some is_raw_type_char
  | _ => None
  end.

(** The parts of the table pattern: what stands before the optional
    qualifier, the qualifier, and what follows the table name. *)
Definition table_head : list Re.regex :=
  [ Re.Lit true "CREATE"; Re.Plus Re.Space; Re.Lit true "TABLE"; Re.Plus Re.Space;
    Re.Opt (Re.cats [ Re.Lit true "IF"; Re.Plus Re.Space; Re.Lit true "NOT";
                      Re.Plus Re.Space; Re.Lit true "EXISTS"; Re.Plus Re.Space ]) ].

Definition table_qualifier : Re.regex :=
  Re.cats [ Re.Opt SchemaParser.backtick; Re.Group 1 (Re.Plus Re.Word);
            Re.Opt SchemaParser.backtick; Re.Opt (Re.Chr true ".") ].

Definition table_tail : Re.regex :=
  Re.cats [ Re.Opt SchemaParser.backtick; Re.Star true Re.Space;
            Re.Chr true "("; Re.Group 3 (Re.Star false (Re.Dot true)); Re.Chr true ")";
            Re.Star true Re.Space; Re.Chr true ";" ].

Definition table_rest : Re.regex :=
  Re.Cat (Re.Opt SchemaParser.backtick) (Re.Cat (Re.Group 2 (Re.Plus Re.Word)) table_tail).

(** The position before which a run of characters ends. *)
Fixpoint last_prev (prev : option ascii) (w : string) : option ascii :=
  match w with
  | EmptyString => prev
  | String a w' => last_prev (Some a) w'
  end.

(** A comma at which the loop of [_parse_columns] cuts: one met at
    parenthesis level 0, the level counted from [paren_level] on. *)
Fixpoint top_level_comma (paren_level : Z) (s : string) : bool :=
  match s with
  | EmptyString => false
  | String char s' =>
      let paren_level :=
        if PyStr.eqc char "(" then paren_level + 1
        else if PyStr.eqc char ")" then paren_level - 1
        else paren_level in
      (PyStr.eqc char "," && (paren_level =? 0)) || top_level_comma paren_level s'
  end.

(** The parenthesis level that the loop has reached after a text. *)
Fixpoint paren_level_after (paren_level : Z) (s : string) : Z :=
  match s with
  | EmptyString => paren_level
  | String char s' =>
      paren_level_after
        (if PyStr.eqc char "(" then paren_level + 1
         else if PyStr.eqc char ")" then paren_level - 1
         else paren_level) s'
  end.

Definition users_schema : string := "CREATE TABLE users (id INT);".

(** ** Inputs for the analyzer *)

(** A workbook with the sheets [a] and [b]; a frame is stood for by the
    name of its sheet, its profile by the length of that name. *)
Definition two_sheets (uploaded_file : DataAnalyzer.UploadedFile) : result (list string) :=
  Ok ["a"; "b"].

Definition read_sheet (uploaded_file : DataAnalyzer.UploadedFile) (sheet_name : string)
    : result string :=
  Ok sheet_name.

Definition profile_length (df : string) (noise_level : float) : result nat :=
  Ok (String.length df).

Definition book_xlsx : DataAnalyzer.UploadedFile :=
  {| DataAnalyzer.name := "book.xlsx"; DataAnalyzer.content := "PK" |}.

(** One of the pandas calls that [_get_distribution_info] comes to make
    raises. The skewness and the kurtosis are always asked for; the minimum
    only when the skewness is not beyond 1 in absolute value; the maximum
    and the standard deviation only when, besides, the minimum is not
    negative. *)
Definition raises {A : Type} (outcome : result A) : Prop := ∃ e, outcome = Raise e.

Definition reached_call_raises (series : DataAnalyzer.Series) : Prop :=
  raises (DataAnalyzer.skew series) ∨ raises (DataAnalyzer.kurtosis series) ∨
  ∃ skewness,
    DataAnalyzer.skew series = Ok skewness ∧
    PrimFloat.ltb 1 (PrimFloat.abs skewness) = false ∧
    (raises (DataAnalyzer.min series) ∨
     ∃ lowest,
       DataAnalyzer.min series = Ok lowest ∧ PrimFloat.leb 0 lowest = true ∧
       (raises (DataAnalyzer.max series) ∨ raises (DataAnalyzer.std series))).

(** A series on which only the standard deviation cannot be computed and
    whose skewness is beyond 1. *)
Definition skewed_without_std : DataAnalyzer.Series :=
  {| DataAnalyzer.skew := Ok 2%float; DataAnalyzer.kurtosis := Ok 0%float;
     DataAnalyzer.min := Ok 0%float; DataAnalyzer.max := Ok 1%float;
     DataAnalyzer.std := Raise (TypeError "unsupported operand") |}.

(** * Properties *)

Ltac case_result :=
  match goal with
  | |- context [bind ?m _] =>
      lazymatch m with
      | bind _ _ => fail
      | _ => first [ destruct m as [[[??]?]|?] eqn:?
                   | destruct m as [[??]|?] eqn:?
                   | destruct m as [?|?] eqn:? ]; cbn [bind]
      end
  end.

Lemma eqs_true a b : PyStr.eqs a b = true ↔ a = b.
Proof. apply String.eqb_eq. Qed.

(** ** The matcher: the fuel it is given is enough *)

Section MatcherFacts.
Import Re.
Context {R : Type}.
Implicit Types k : option ascii → string → caps → option R.

Lemma star_rounds_local greedy body fuel prev s c k1 k2 :
  local_body body → agree_upto (String.length s) k1 k2 →
  star_rounds greedy body k1 fuel prev s c = star_rounds greedy body k2 fuel prev s c.
Proof.
  intros Hbody. revert prev s c.
  induction fuel as [|fuel IH]; intros prev s c Hk; simpl.
  - by apply Hk.
  - assert (Hagain :
      body prev s c (λ prev' s' c',
        if (String.length s' <? String.length s)%nat
        then star_rounds greedy body k1 fuel prev' s' c' else None) =
      body prev s c (λ prev' s' c',
        if (String.length s' <? String.length s)%nat
        then star_rounds greedy body k2 fuel prev' s' c' else None)).
    { apply Hbody. intros prev' s' c' Hlen.
      destruct (String.length s' <? String.length s)%nat eqn:Hlt; [|done].
      apply IH. intros p t d Ht. apply Hk. lia. }
    rewrite Hagain, (Hk prev s c) by lia. done.
Qed.

Lemma rmatch_local r : local_body (rmatch (R:=R) r).
Proof.
  induction r as [|p|r1 IH1 r2 IH2|r1 IH1 r2 IH2|greedy r IH|n r IH|ml|ml];
    intros prev s c k1 k2 Hk; cbn [rmatch].
  - by apply Hk.
  - destruct s as [|a s]; [done|]. destruct (p a); [|done]. apply Hk. simpl. lia.
  - apply IH1. intros prev' s' c' Hlen. apply IH2.
    intros p t d Ht. apply Hk. lia.
  - by rewrite (IH1 _ _ _ k1 k2), (IH2 _ _ _ k1 k2).
  - by apply star_rounds_local.
  - apply IH. intros prev' s' c' Hlen. by apply Hk.
  - destruct (at_bol ml prev); [|done]. by apply Hk.
  - destruct (at_eol ml s); [|done]. by apply Hk.
Qed.

(** More fuel than the subject is long makes no difference. *)
Lemma star_rounds_fuel greedy body k fuel1 fuel2 prev s c :
  local_body body →
  (String.length s < fuel1)%nat → (String.length s < fuel2)%nat →
  star_rounds greedy body k fuel1 prev s c = star_rounds greedy body k fuel2 prev s c.
Proof.
  intros Hbody. revert fuel2 prev s c.
  induction fuel1 as [|fuel1 IH]; intros [|fuel2] prev s c H1 H2; try lia.
  simpl.
  assert (Hagain :
    body prev s c (λ prev' s' c',
      if (String.length s' <? String.length s)%nat
      then star_rounds greedy body k fuel1 prev' s' c' else None) =
    body prev s c (λ prev' s' c',
      if (String.length s' <? String.length s)%nat
      then star_rounds greedy body k fuel2 prev' s' c' else None)).
  { apply Hbody. intros prev' s' c' Hlen.
    destruct (String.length s' <? String.length s)%nat eqn:Hlt; [|done].
    apply Nat.ltb_lt in Hlt. apply IH; lia. }
  by rewrite Hagain.
Qed.

(** The equation of a repetition: one round of the body and the repetition
    again, or the rest, in the order its greediness asks for. *)
Lemma rmatch_Star greedy r prev s c k :
  rmatch (Star greedy r) prev s c k =
  let again :=
    rmatch r prev s c (λ prev' s' c',
      if (String.length s' <? String.length s)%nat
      then rmatch (Star greedy r) prev' s' c' k else None) in
  if greedy then match again with Some x => Some x | None => k prev s c end
  else match k prev s c with Some x => Some x | None => again end.
Proof.
  cbn [rmatch star_rounds].
  assert (Hagain :
    rmatch r prev s c (λ prev' s' c',
      if (String.length s' <? String.length s)%nat
      then star_rounds greedy (rmatch r) k (String.length s) prev' s' c' else None) =
    rmatch r prev s c (λ prev' s' c',
      if (String.length s' <? String.length s)%nat
      then star_rounds greedy (rmatch r) k (S (String.length s')) prev' s' c' else None)).
  { apply rmatch_local. intros prev' s' c' Hlen.
    destruct (String.length s' <? String.length s)%nat eqn:Hlt; [|done].
    apply Nat.ltb_lt in Hlt. apply star_rounds_fuel; [apply rmatch_local|lia..]. }
  by rewrite Hagain.
Qed.
Lemma star_rounds_ends_within greedy body k fuel prev s c x :
  ends_within body →
  star_rounds greedy body k fuel prev s c = Some x →
  ∃ prev' s' c', k prev' s' c' = Some x ∧ (String.length s' ≤ String.length s)%nat.
Proof.
  intros Hbody. revert prev s c. induction fuel as [|fuel IH]; intros prev s c; simpl.
  - intros Hk. by exists prev, s, c.
  - set (again := body prev s c _).
    assert (Hagain : again = Some x →
      ∃ prev' s' c', k prev' s' c' = Some x ∧ (String.length s' ≤ String.length s)%nat).
    { intros (p1 & s1 & c1 & Hk1 & Hlen1)%Hbody.
      destruct (String.length s1 <? String.length s)%nat; [|done].
      apply IH in Hk1 as (p2 & s2 & c2 & Hk2 & Hlen2).
      exists p2, s2, c2. split; [done|lia]. }
    destruct greedy.
    + destruct again as [y|]; [intros [= ->]; by apply Hagain|].
      intros Hk. by exists prev, s, c.
    + destruct (k prev s c) as [y|] eqn:Hk; [intros [= ->]; by exists prev, s, c|].
      done.
Qed.

Lemma rmatch_ends_within r : ends_within (rmatch (R:=R) r).
Proof.
  induction r as [|p|r1 IH1 r2 IH2|r1 IH1 r2 IH2|greedy r IH|n r IH|ml|ml];
    intros prev s c k x; cbn [rmatch].
  - intros Hk. by exists prev, s, c.
  - destruct s as [|a s]; [done|]. destruct (p a); [|done].
    intros Hk. exists (Some a), s, c. split; [done|simpl; lia].
  - intros (p1 & s1 & c1 & H1 & Hlen1)%IH1.
    apply IH2 in H1 as (p2 & s2 & c2 & H2 & Hlen2).
    exists p2, s2, c2. split; [done|lia].
  - destruct (rmatch r1 prev s c k) as [y|] eqn:H1.
    + intros [= ->]. by apply IH1 in H1.
    + by intros ?%IH2.
  - by apply star_rounds_ends_within.
  - intros (p1 & s1 & c1 & H1 & Hlen1)%IH. eauto.
  - destruct (at_bol ml prev); [|done]. intros Hk. by exists prev, s, c.
  - destruct (at_eol ml s); [|done]. intros Hk. by exists prev, s, c.
Qed.

End MatcherFacts.

Section ScanFacts.
Import Re.

(** An attempt either consumes something, or matches the empty text where
    that is allowed. *)
Lemma match_here_progress r must_advance prev s f :
  match_here r must_advance prev s = Some f →
  (String.length (f_rest f) < String.length s)%nat ∨
  (String.length (f_rest f) = String.length s ∧ must_advance = false ∧
   String.length (f_text f) = 0%nat).
Proof.
  unfold match_here. intros (p1 & s1 & c1 & Hk & Hlen)%rmatch_ends_within.
  destruct (must_advance && _) eqn:Hadv; [done|]. injection Hk as <-. simpl.
  destruct (decide (String.length s1 = String.length s)) as [Heq|Hne]; [|left; lia].
  right. split; [done|]. rewrite Heq, Nat.eqb_refl, andb_true_r in Hadv.
  split; [done|]. rewrite Heq. replace (String.length s - String.length s)%nat with 0%nat by lia. by destruct s.
Qed.

Lemma search_from_progress r must_advance skipped prev s f :
  search_from r must_advance skipped prev s = Some f →
  (String.length (f_rest f) < String.length s)%nat ∨
  (String.length (f_rest f) = String.length s ∧ must_advance = false ∧
   String.length (f_text f) = 0%nat).
Proof.
  revert must_advance skipped prev.
  induction s as [|a s IH]; intros must_advance skipped prev; cbn [search_from].
  - destruct (match_here r must_advance prev "") as [f0|] eqn:Hm; [|done].
    intros [= <-]. simpl. by apply match_here_progress in Hm.
  - destruct (match_here r must_advance prev (String a s)) as [f0|] eqn:Hm.
    + intros [= <-]. simpl. by apply match_here_progress in Hm.
    + intros Hs. apply IH in Hs as [Hs|(Hs & _)]; left; simpl; lia.
Qed.

(** More fuel than the measure makes no difference: [scan_all] walks
    through all the matches. *)
Lemma scan_fuel r fuel1 fuel2 must_advance prev s :
  (scan_measure must_advance s < fuel1)%nat →
  (scan_measure must_advance s < fuel2)%nat →
  scan fuel1 r must_advance prev s = scan fuel2 r must_advance prev s.
Proof.
  revert fuel2 must_advance prev s.
  induction fuel1 as [|fuel1 IH]; intros [|fuel2] must_advance prev s H1 H2; try lia.
  cbn [scan].
  destruct (search_from r must_advance "" prev s) as [f|] eqn:Hs; [|done].
  rewrite (IH fuel2); [done|..];
    apply search_from_progress in Hs as [Hs|(Hs & -> & ->)];
    unfold scan_measure in *; simpl; try lia;
    destruct (String.length (f_text f) =? 0)%nat; lia.
Qed.
(** The fuel of [scan_all] is such a fuel. *)
Lemma scan_all_fuel r s extra :
  scan (2 * String.length s + 2 + extra) r false None s = scan_all r s.
Proof. unfold scan_all. apply scan_fuel; unfold scan_measure; lia. Qed.

End ScanFacts.

(** ** The schema parser *)

Section ParserFacts.
Import SchemaParser.

Lemma parse_column_def_blank fragment column :
  parse_column_def fragment = Some column → blank column.
Proof.
  unfold parse_column_def.
  destruct (_ || _); [discriminate|].
  destruct (Re.re_match _ _); [|discriminate].
  intros [= <-]. by split.
Qed.

Lemma _parse_columns_blank columns_text column :
  column ∈ _parse_columns columns_text → blank column.
Proof.
  unfold _parse_columns. intros Hin.
  apply list_elem_of_omap in Hin as (fragment & _ & Hdef).
  by eapply parse_column_def_blank.
Qed.

Lemma add_table_lookup tables m table_name columns :
  add_table tables m !! table_name = Some columns →
  tables !! table_name = Some columns ∨ from_block [m] table_name columns.
Proof.
  unfold add_table.
  destruct (_parse_columns (Re.group m 3)) as [|c cs] eqn:Hcols; [by left|].
  destruct (decide (table_name_of m = table_name)) as [<-|Hne].
  - rewrite lookup_insert_eq. intros [= <-]. right. split; [done|].
    exists m. rewrite Hcols. split; [by apply list_elem_of_singleton|done].
  - rewrite lookup_insert_ne by done. by left.
Qed.

Lemma foldl_add_table_lookup matches tables table_name columns :
  foldl add_table tables matches !! table_name = Some columns →
  tables !! table_name = Some columns ∨ from_block matches table_name columns.
Proof.
  revert tables. induction matches as [|m matches IH]; intros tables; simpl.
  - by left.
  - intros Hl. apply IH in Hl as [Hl|(Hne & m' & Hin & Hn & Hc)].
    + apply add_table_lookup in Hl as [Hl|(Hne & m' & Hin & Hn & Hc)]; [by left|].
      right. split; [done|]. exists m'. split; [|done].
      apply list_elem_of_singleton in Hin as ->. left.
    + right. split; [done|]. exists m'. split; [by right|done].
Qed.

(** Every entry of the result of [parse_schema] comes from a matched block
    with at least one parsed column. *)
Lemma parse_schema_from_block schema_content table_name columns :
  tables (parse_schema schema_content) !! table_name = Some columns →
  from_block (table_matches schema_content) table_name columns.
Proof.
  unfold parse_schema. cbn [tables]. intros Hl.
  apply foldl_add_table_lookup in Hl as [Hl|Hl]; [|done].
  by rewrite lookup_empty in Hl.
Qed.

(** A block without a parsed column leaves the table map as it is. *)
Lemma add_table_no_columns tables m :
  _parse_columns (Re.group m 3) = [] → add_table tables m = tables.
Proof. unfold add_table. by intros ->. Qed.

(** The raw types of the specification's list, each as the type of a column
    of one table body. *)
Example seven_types_raw :
  raw_type <$> _parse_columns seven_types
  = ["INT"; "VARCHAR(255)"; "DECIMAL(10,2)"; "DATE"; "DATETIME"; "BOOLEAN"; "TEXT"].
Proof. vm_compute. reflexivity. Qed.

(** C1. Of the seven raw types INT, VARCHAR(255), DECIMAL(10,2), DATE,
    DATETIME, BOOLEAN and TEXT, six get the canonical type the specification
    names; DATETIME does not: it starts with [date] and has no parenthesis,
    so the test for [date] takes it before the test for [datetime] is
    reached, and the column is typed [date]. The same holds when the column
    is parsed through [parse_schema]. *)
Theorem datetime_column_typed_date :
  type <$> _parse_columns seven_types
    = ["integer"; "string"; "float"; "date"; "date"; "boolean"; "string"]
  ∧ tables (parse_schema "CREATE TABLE t (e DATETIME);") !! "t"
    = Some [ {| name := "e"; type := "date"; raw_type := "DATETIME";
                params := ∅; constraints := [] |} ]
  ∧ normalize_type "DATETIME" ≠ "datetime".
Proof. split; [|split]; [vm_compute; reflexivity..|vm_compute; discriminate]. Qed.

(** The branch for [datetime] is there and is reached by other spellings. *)
Example datetime_branch_reached :
  normalize_type "TIMESTAMP" = "datetime" ∧ normalize_type "DATETIME(6)" = "datetime".
Proof. split; vm_compute; reflexivity. Qed.

(** C7. With the dialect line, [parse_schema] reports PostgreSQL and the
    table [t] with the one integer column [id]; without it, no dialect and
    the same table. *)
Theorem parse_schema_dialect_line :
  parse_schema dialect_schema
    = {| tables := {[ "t" := [id_column] ]}; dialect := Some "PostgreSQL" |}
  ∧ parse_schema plain_schema
    = {| tables := {[ "t" := [id_column] ]}; dialect := None |}.
Proof. split; vm_compute; reflexivity. Qed.

(** C8. A table name in the result of [parse_schema] is mapped to a
    non-empty column list, the one parsed from a matched block of that
    name. *)
Theorem parse_schema_tables_nonempty schema_content table_name columns
    (Hlookup : tables (parse_schema schema_content) !! table_name = Some columns) :
  columns ≠ [] ∧
  ∃ m, m ∈ table_matches schema_content ∧ table_name = table_name_of m ∧
       columns = _parse_columns (Re.group m 3).
Proof. by apply parse_schema_from_block. Qed.

Lemma parse_schema_tables_nonempty_witness :
  tables (parse_schema plain_schema) !! "t" = Some [id_column] ∧
  ([id_column] ≠ [] ∧
   ∃ m, m ∈ table_matches plain_schema ∧ "t" = table_name_of m ∧
        [id_column] = _parse_columns (Re.group m 3)).
Proof.
  split; [vm_compute; reflexivity|].
  apply (parse_schema_tables_nonempty plain_schema "t" [id_column]).
  vm_compute; reflexivity.
Defined.

(** A body made of constraint lines only: the block is matched, no column
    is parsed from it, and the result has no table. *)
Example constraint_only_table_dropped :
  length (table_matches "CREATE TABLE t (PRIMARY KEY (id), UNIQUE (id));") = 1%nat ∧
  tables (parse_schema "CREATE TABLE t (PRIMARY KEY (id), UNIQUE (id));") = ∅.
Proof. split; vm_compute; reflexivity. Qed.

End ParserFacts.

(** ** The [random] module *)

Section RandomFacts.
Import Random.
Context {A : Type}.
Implicit Types pool xs population : list A.

Lemma sample_go_length pool k g :
  (k ≤ length pool)%nat → length (sample_go pool k g).1 = k.
Proof.
  revert pool g. induction k as [|k IH]; intros pool g Hk; [done|].
  cbn [sample_go]. destruct (draw g) as [r g1].
  assert (Hj : (r mod length pool < length pool)%nat) by (apply Nat.mod_upper_bound; lia).
  destruct (lookup_lt_is_Some_2 _ _ Hj) as [x Hx]. rewrite Hx.
  specialize (IH (delete (r mod length pool)%nat pool) g1).
  destruct (sample_go _ k g1) as [xs g2]. simpl in *.
  rewrite IH; [done|]. rewrite length_delete by eauto. lia.
Qed.

Lemma sample_go_submseteq pool k g : (sample_go pool k g).1 ⊆+ pool.
Proof.
  revert pool g. induction k as [|k IH]; intros pool g; cbn [sample_go].
  - apply submseteq_nil_l.
  - destruct (draw g) as [r g1].
    destruct (pool !! (r mod length pool)%nat) as [x|] eqn:Hx; simpl.
    + specialize (IH (delete (r mod length pool)%nat pool) g1).
      destruct (sample_go _ k g1) as [xs g2]. simpl in *.
      apply submseteq_cons_l. eexists. split; [|exact IH].
      by apply delete_Permutation.
    + apply submseteq_nil_l.
Qed.

Lemma submseteq_NoDup xs pool : NoDup pool → xs ⊆+ pool → NoDup xs.
Proof.
  intros Hnd [k Hk]%submseteq_Permutation. rewrite Hk in Hnd.
  by apply NoDup_app in Hnd as [? _].
Qed.

(** What [random.sample] returns is [k] elements taken from distinct
    positions of the population. *)
Lemma sample_Ok population k g xs g' :
  sample population k g = Ok (xs, g') →
  0 ≤ k ∧ length xs = Z.to_nat k ∧ xs ⊆+ population.
Proof.
  unfold sample. destruct (_ || _) eqn:Hrange; [discriminate|].
  apply orb_false_iff in Hrange as [Hneg Hbig].
  apply Z.ltb_ge in Hneg, Hbig. intros [= Hs].
  pose proof (sample_go_length population (Z.to_nat k) g) as Hlen.
  pose proof (sample_go_submseteq population (Z.to_nat k) g) as Hsub.
  rewrite Hs in Hlen, Hsub. simpl in *. split; [done|]. split; [|done].
  apply Hlen. lia.
Qed.

(** It raises only when [k] is negative or exceeds the population. *)
Lemma sample_in_range population k g :
  0 ≤ k ≤ Z.of_nat (length population) →
  ∃ xs g', sample population k g = Ok (xs, g').
Proof.
  intros [Hlo Hhi]. unfold sample.
  destruct (_ || _) eqn:Hrange.
  - apply orb_true_iff in Hrange as [H|H]; apply Z.ltb_lt in H; lia.
  - destruct (sample_go population (Z.to_nat k) g) as [xs g']. eauto.
Qed.

Lemma choices_one population g :
  population ≠ [] →
  ∃ x g', choices population 1 g = Ok ([x], g') ∧ x ∈ population.
Proof.
  destruct population as [|d rest]; [done|]. intros _.
  unfold choices. change (Z.to_nat 1) with 1%nat. cbn [choices_go].
  destruct (draw g) as [r g']. eexists _, g'. split; [done|].
  apply list_elem_of_In, nth_In, Nat.mod_upper_bound. done.
Qed.

End RandomFacts.

(** ** The null step *)

Section NullFacts.
Import Random DataGenerator.

Lemma count_none_no_nulls values : no_nulls values → count_none values = 0%nat.
Proof.
  induction 1 as [|v values Hv _ IH]; [done|].
  destruct v; simpl in *; done.
Qed.

Lemma count_none_insert values i v :
  values !! i = Some v → is_none v = false →
  count_none (<[i := PNone]> values) = S (count_none values).
Proof.
  revert i. induction values as [|w values IH]; intros [|i] Hl Hv; simplify_eq/=.
  - by destruct v.
  - rewrite (IH i) by done. by destruct w.
Qed.

(** Overwriting distinct positions that hold a value adds one null each,
    and no index is out of range. *)
Lemma set_nulls_count null_indices values :
  NoDup null_indices →
  (∀ idx, idx ∈ null_indices →
     ∃ v, 0 ≤ idx ∧ values !! Z.to_nat idx = Some v ∧ is_none v = false) →
  ∃ values', set_nulls null_indices values = Ok values' ∧
    length values' = length values ∧
    count_none values' = (count_none values + length null_indices)%nat.
Proof.
  revert values. induction null_indices as [|idx rest IH]; intros values Hnd Hin; simpl.
  - exists values. repeat split; lia.
  - apply NoDup_cons in Hnd as [Hfresh Hnd].
    destruct (Hin idx) as (v & Hpos & Hv & Hnone); [left|].
    assert (Hlt : (Z.to_nat idx < length values)%nat) by (eapply lookup_lt_Some; eauto).
    replace ((0 <=? idx) && (idx <? Z.of_nat (length values))) with true
      by (symmetry; apply andb_true_iff; split; [apply Z.leb_le|apply Z.ltb_lt]; lia).
    destruct (IH (<[Z.to_nat idx := PNone]> values) Hnd) as (values' & Hset & Hlen & Hcount).
    { intros j Hj. destruct (Hin j) as (w & Hjpos & Hw & Hwnone); [by right|].
      exists w. split; [done|]. split; [|done].
      rewrite list_lookup_insert_ne; [done|].
      intros Heq. apply Hfresh. replace idx with j by lia. done. }
    exists values'. split; [done|]. rewrite Hlen, Hcount, length_insert.
    rewrite (count_none_insert _ _ v) by done. split; lia.
Qed.

(** [int(1000 * 0.05)]: the product of the doubles is 50.0 exactly. *)
Lemma null_count_of_1000 : null_count_of 1000 = Ok 50.
Proof. vm_compute. reflexivity. Qed.

(** The null step on [n] values without a null, when 5% of [n] is [k]. *)
Lemma add_nulls_spec n k nullable values g :
  Py.truthy nullable = true → null_count_of n = Ok k → 0 ≤ k ≤ n →
  length values = Z.to_nat n → no_nulls values →
  ∃ null_indices values' g',
    add_nulls n nullable values g = Ok (values', g') ∧
    NoDup null_indices ∧ length null_indices = Z.to_nat k ∧
    (∀ idx, idx ∈ null_indices → 0 ≤ idx < n) ∧
    set_nulls null_indices values = Ok values' ∧
    length values' = Z.to_nat n ∧ count_none values' = Z.to_nat k.
Proof.
  intros Htruthy Hk Hrange Hlen Hnn. unfold add_nulls. rewrite Htruthy, Hk. cbn [bind].
  destruct (sample_in_range (seqZ 0 n) k g) as (idxs & g' & Hs).
  { rewrite length_seqZ. lia. }
  rewrite Hs. cbn [bind].
  apply sample_Ok in Hs as (_ & Hlk & Hsub).
  assert (Hnd : NoDup idxs) by (eapply submseteq_NoDup; [apply NoDup_seqZ|done]).
  assert (Hin : ∀ idx, idx ∈ idxs → 0 ≤ idx < n).
  { intros idx Hi. eapply elem_of_submseteq in Hi; [|done].
    apply elem_of_seqZ in Hi. lia. }
  destruct (set_nulls_count idxs values Hnd) as (values' & Hset & Hlen' & Hcount).
  { intros idx Hi. apply Hin in Hi.
    destruct (lookup_lt_is_Some_2 values (Z.to_nat idx)) as [v Hv]; [lia|].
    exists v. split; [lia|]. split; [done|].
    eapply Forall_lookup_1 in Hnn; eauto. }
  rewrite Hset. cbn [bind]. exists idxs, values', g'.
  rewrite (count_none_no_nulls _ Hnn) in Hcount.
  repeat split; try done; try lia; by apply Hin.
Qed.

End NullFacts.

(** ** The generators *)

Section GeneratorFacts.
Import Random DataGenerator.
Variable lib : Libraries.

(** [generate_column] is the value loop of the column's type followed by the
    null step. *)
Lemma generate_column_phases column num_samples unique_counters g :
  generate_column lib column num_samples unique_counters g =
  do (values, unique_counters', g1) <-
    column_values lib column num_samples unique_counters g;
  do (values, g2) <- add_nulls num_samples (nullable_of column) values g1;
  Ok (values, unique_counters', g2).
Proof.
  unfold generate_column, column_values, nullable_of,
    _generate_integers, _generate_floats, _generate_strings, _generate_dates,
    _generate_datetimes, _generate_booleans.
  repeat (destruct (PyStr.eqs (type column) _);
          [repeat (case_result; try done)|]).
  repeat (case_result; try done).
Qed.

Lemma repeat_gen_shape {A} (P : A → Prop) (f : Rng → result (A * Rng)) n g xs g' :
  (∀ g x g', f g = Ok (x, g') → P x) →
  repeat_gen n f g = Ok (xs, g') → length xs = n ∧ Forall P xs.
Proof.
  intros Hf. revert g xs g'. induction n as [|n IH]; intros g xs g'; simpl.
  - intros [= <- <-]. by split.
  - destruct (f g) as [[x g1]|] eqn:Hx; [|discriminate]. simpl.
    destruct (repeat_gen n f g1) as [[ys g2]|] eqn:Hys; [|discriminate]. simpl.
    intros [= <- <-]. destruct (IH _ _ _ Hys) as [<- Hall].
    split; [done|]. constructor; eauto.
Qed.

Lemma no_nulls_fmap_PInt (zs : list Z) : no_nulls (PInt <$> zs).
Proof. apply Forall_fmap, Forall_true. done. Qed.

Lemma integer_values_shape n params unique_counters col_name g values unique_counters' g' :
  integer_values n params unique_counters col_name g = Ok (values, unique_counters', g') →
  length values = Z.to_nat n ∧ no_nulls values.
Proof.
  unfold integer_values.
  destruct (Py.truthy (Py.get params "auto_increment" _)).
  { intros [= <- <- <-]. rewrite length_fmap, length_seqZ. split; [done|].
    apply no_nulls_fmap_PInt. }
  destruct (Py.truthy (Py.get params "unique" _)).
  - repeat (case_result; [|discriminate]).
    intros [= <- <- <-]. rewrite length_fmap. split; [|apply no_nulls_fmap_PInt].
    match goal with H : sample _ _ _ = Ok _ |- _ => apply sample_Ok in H as (_ & -> & _) end.
    done.
  - case_result; [|discriminate]. intros [= <- <- <-].
    rewrite length_fmap. split; [|apply no_nulls_fmap_PInt].
    match goal with H : repeat_gen _ _ _ = Ok _ |- _ =>
      apply (repeat_gen_shape (λ _, True)) in H as [-> _]; done end.
Qed.

Lemma py_round_not_none value scale v :
  py_round lib value scale = Ok v → is_none v = false.
Proof.
  unfold py_round. destruct scale; try discriminate;
    repeat (case_result; [|discriminate]); by intros [= <-].
Qed.

Lemma float_values_shape n params g values g' :
  float_values lib n params g = Ok (values, g') →
  length values = Z.to_nat n ∧ no_nulls values.
Proof.
  unfold float_values. apply repeat_gen_shape.
  intros g0 x g1. case_result; [|discriminate].
  destruct (Py.truthy _); simpl.
  - case_result; [|discriminate]. intros [= <- <-]. by eapply py_round_not_none.
  - by intros [= <- <-].
Qed.

Lemma string_loop_shape n params faker_method used_values g values g' :
  string_loop lib n params faker_method used_values g = Ok (values, g') →
  length values = n ∧ no_nulls values.
Proof.
  revert used_values g values g'.
  induction n as [|n IH]; intros used g values g'; cbn [string_loop].
  - intros [= <- <-]. split; [done|constructor].
  - case_result; [|discriminate]. case_result; [|discriminate].
    intros [= <- <-].
    match goal with H : string_loop _ _ _ _ _ _ = Ok _ |- _ =>
      apply IH in H as [<- Hall] end.
    split; [done|]. by constructor.
Qed.

Lemma date_values_shape n params g values g' :
  date_values lib n params g = Ok (values, g') →
  length values = Z.to_nat n ∧ no_nulls values.
Proof.
  unfold date_values. case_result; [|discriminate]. apply repeat_gen_shape.
  intros g0 x g1. destruct (draw g0). case_result; [|discriminate]. by intros [= <- <-].
Qed.

Lemma datetime_values_shape n params g values g' :
  datetime_values lib n params g = Ok (values, g') →
  length values = Z.to_nat n ∧ no_nulls values.
Proof.
  unfold datetime_values. case_result; [|discriminate]. apply repeat_gen_shape.
  intros g0 x g1. destruct (draw g0). case_result; [|discriminate]. by intros [= <- <-].
Qed.

Lemma boolean_values_shape n params g values g' :
  boolean_values n params g = Ok (values, g') →
  length values = Z.to_nat n ∧ no_nulls values.
Proof.
  unfold boolean_values. apply repeat_gen_shape.
  intros g0 x g1. destruct (random g0). case_result; [|discriminate]. by intros [= <- <-].
Qed.

(** Whatever the column, the values it gets before the null step are
    [num_samples] many and none of them is null. *)
Lemma column_values_shape column n unique_counters g values unique_counters' g' :
  column_values lib column n unique_counters g = Ok (values, unique_counters', g') →
  length values = Z.to_nat n ∧ no_nulls values.
Proof.
  unfold column_values.
  destruct (PyStr.eqs (type column) "integer"); [apply integer_values_shape|].
  repeat (destruct (PyStr.eqs (type column) _);
    [case_result; [|discriminate]; intros [= <- <- <-];
     eauto using float_values_shape, string_loop_shape, date_values_shape,
       datetime_values_shape, boolean_values_shape|]).
  case_result; [|discriminate]; intros [= <- <- <-]. eauto using string_loop_shape.
Qed.

(** C5. A column of any type whose [nullable] parameter is set, generated
    with [num_samples = 1000]: unless producing the values raises, the
    result has 1000 entries of which exactly 50 are null; the nulls are
    written over the generated values, at 50 distinct positions. The null
    step itself never raises. *)
Theorem nullable_column_has_50_nulls column unique_counters g
    (Hnullable : Py.truthy (nullable_of column) = true) :
  match generate_column lib column 1000 unique_counters g with
  | Ok (values, _, _) =>
      length values = 1000%nat ∧ count_none values = 50%nat ∧
      ∃ values0 unique_counters' g1 null_indices,
        column_values lib column 1000 unique_counters g
          = Ok (values0, unique_counters', g1) ∧
        no_nulls values0 ∧
        NoDup null_indices ∧ length null_indices = 50%nat ∧
        (∀ idx, idx ∈ null_indices → 0 ≤ idx < 1000) ∧
        set_nulls null_indices values0 = Ok values
  | Raise e => column_values lib column 1000 unique_counters g = Raise e
  end.
Proof.
  rewrite generate_column_phases.
  destruct (column_values lib column 1000 unique_counters g)
    as [[[values0 unique_counters'] g1]|e] eqn:Hvalues; cbn [bind]; [|done].
  apply column_values_shape in Hvalues as [Hlen Hnn].
  destruct (add_nulls_spec 1000 50 (nullable_of column) values0 g1)
    as (idxs & values' & g' & -> & Hnd & Hlk & Hin & Hset & Hlen' & Hcount);
    [done|apply null_count_of_1000|lia|done|done|].
  cbn [bind]. split; [done|]. split; [done|].
  exists values0, unique_counters', g1, idxs. done.
Qed.

(** C6. Unique integers asked from a range [lo..hi] with fewer than
    [num_samples] values: the call does not raise, the range is widened to
    [lo..lo + num_samples], and the values returned are [num_samples] many,
    pairwise distinct and within the widened range. The specification's case
    is [lo = 1], [hi = 10], [num_samples = 50]. *)
Theorem unique_integers_widened params unique_counters col_name g lo hi n
    (Hmin : Py.get params "min_value" (PInt 1) = PInt lo)
    (Hmax : Py.get params "max_value" (PInt 100000) = PInt hi)
    (Hauto : Py.truthy (Py.get params "auto_increment" (PBool false)) = false)
    (Hunique : Py.truthy (Py.get params "unique" (PBool false)) = true)
    (Hnullable : Py.truthy (Py.get params "nullable" (PBool false)) = false)
    (Hn : 0 ≤ n) (Hnarrow : hi - lo + 1 < n) :
  ∃ zs g',
    _generate_integers n params unique_counters col_name g
      = Ok (PInt <$> zs, unique_counters, g') ∧
    length zs = Z.to_nat n ∧ NoDup zs ∧ NoDup (PInt <$> zs) ∧
    ∀ z, z ∈ zs → lo ≤ z ≤ lo + n.
Proof.
  unfold _generate_integers, integer_values.
  rewrite Hmin, Hmax, Hauto, Hunique. cbn [Py.sub Py.add Py.is_integral andb Py.as_int bind].
  unfold Py.lt_int. cbn [Py.compare_int bind].
  replace (hi - lo + 1 ?= n) with Lt by (symmetry; by apply Z.compare_lt_iff).
  cbn [Py.add Py.is_integral andb Py.as_int bind].
  destruct (sample_in_range (seqZ lo (lo + n + 1 - lo)) n g) as (zs & g' & Hs).
  { rewrite length_seqZ. lia. }
  rewrite Hs. cbn [bind]. unfold add_nulls. rewrite Hnullable. cbn [bind].
  apply sample_Ok in Hs as (_ & Hlen & Hsub).
  assert (Hnd : NoDup zs) by (eapply submseteq_NoDup; [apply NoDup_seqZ|done]).
  exists zs, g'. split; [done|]. split; [done|]. split; [done|].
  split.
  - assert (Inj (=) (=) PInt) by (by intros ?? [=]). by apply (NoDup_fmap_2 _).
  - intros z Hz. eapply elem_of_submseteq in Hz; [|done].
    apply elem_of_seqZ in Hz. lia.
Qed.

(** One call for one auto-increment integer column: the values are
    [1 .. num_samples], whatever the state of the generator, which the call
    leaves as it found it. *)
Lemma generate_auto_increment_call column n g :
  type column = "integer" →
  Py.truthy (Py.get (params column) "auto_increment" (PBool false)) = true →
  Py.truthy (Py.get (params column) "nullable" (PBool false)) = false →
  generate_from_schema lib [column] n g
    = Ok ({[ name column := PInt <$> seqZ 1 n ]}, g).
Proof.
  intros Htype Hauto Hnullable.
  unfold generate_from_schema. cbn [generate_columns].
  unfold generate_column. rewrite Htype.
  replace (PyStr.eqs "integer" "integer") with true by reflexivity.
  unfold _generate_integers, integer_values. rewrite Hauto.
  rewrite lookup_empty. cbn [default bind].
  unfold add_nulls. rewrite Hnullable. cbn [bind]. done.
Qed.

(** C2, as the code has it. For an integer column with [auto_increment] set
    and [nullable] unset, a call with [num_samples = 100] yields 1..100 in
    order, and so does a second call on the same generator: the counters
    are created anew in each call. *)
Theorem auto_increment_restarts column g
    (Htype : type column = "integer")
    (Hauto : Py.truthy (Py.get (params column) "auto_increment" (PBool false)) = true)
    (Hnullable : Py.truthy (Py.get (params column) "nullable" (PBool false)) = false) :
  ∃ g1 g2,
    generate_from_schema lib [column] 100 g
      = Ok ({[ name column := PInt <$> seqZ 1 100 ]}, g1) ∧
    generate_from_schema lib [column] 100 g1
      = Ok ({[ name column := PInt <$> seqZ 1 100 ]}, g2).
Proof. exists g, g. by rewrite !generate_auto_increment_call. Qed.

End GeneratorFacts.

Lemma nullable_column_has_50_nulls_witness :
  Py.truthy (nullable_of nullable_id) = true ∧
  match DataGenerator.generate_column plain_libraries nullable_id 1000 ∅ zero_tape with
  | Ok (values, _, _) =>
      length values = 1000%nat ∧ DataGenerator.count_none values = 50%nat ∧
      ∃ values0 unique_counters' g1 null_indices,
        column_values plain_libraries nullable_id 1000 ∅ zero_tape
          = Ok (values0, unique_counters', g1) ∧
        no_nulls values0 ∧
        NoDup null_indices ∧ length null_indices = 50%nat ∧
        (∀ idx, idx ∈ null_indices → 0 ≤ idx < 1000) ∧
        DataGenerator.set_nulls null_indices values0 = Ok values
  | Raise e => column_values plain_libraries nullable_id 1000 ∅ zero_tape = Raise e
  end.
Proof.
  split; [reflexivity|].
  apply (nullable_column_has_50_nulls plain_libraries nullable_id ∅ zero_tape).
  reflexivity.
Defined.

(** The run of the witness returns: the sequence 1..1000 with 50 of its
    entries overwritten. *)
Example nullable_id_run :
  ∃ values unique_counters g,
    DataGenerator.generate_column plain_libraries nullable_id 1000 ∅ zero_tape
      = Ok (values, unique_counters, g) ∧
    length values = 1000%nat ∧ DataGenerator.count_none values = 50%nat ∧
    firstn 3 values = [PNone; PNone; PNone] ∧
    values !! 50%nat = Some (PInt 51).
Proof.
  destruct (DataGenerator.generate_column plain_libraries nullable_id 1000 ∅ zero_tape)
    as [[[values unique_counters] g]|e] eqn:Hrun; vm_compute in Hrun; [|discriminate Hrun].
  exists values, unique_counters, g. split; [done|].
  injection Hrun as <- _ _. vm_compute. done.
Qed.

Lemma unique_integers_widened_witness :
  (Py.get narrow_unique "min_value" (PInt 1) = PInt 1 ∧
   Py.get narrow_unique "max_value" (PInt 100000) = PInt 10 ∧
   Py.truthy (Py.get narrow_unique "auto_increment" (PBool false)) = false ∧
   Py.truthy (Py.get narrow_unique "unique" (PBool false)) = true ∧
   Py.truthy (Py.get narrow_unique "nullable" (PBool false)) = false ∧
   0 ≤ 50 ∧ 10 - 1 + 1 < 50) ∧
  ∃ zs g',
    DataGenerator._generate_integers 50 narrow_unique ∅ "n" zero_tape
      = Ok (PInt <$> zs, ∅, g') ∧
    length zs = Z.to_nat 50 ∧ NoDup zs ∧ NoDup (PInt <$> zs) ∧
    ∀ z, z ∈ zs → 1 ≤ z ≤ 1 + 50.
Proof.
  split; [repeat split; (reflexivity || lia)|].
  apply (unique_integers_widened narrow_unique ∅ "n" zero_tape 1 10 50);
    (reflexivity || lia).
Defined.

Lemma auto_increment_restarts_witness :
  (type auto_id = "integer" ∧
   Py.truthy (Py.get (params auto_id) "auto_increment" (PBool false)) = true ∧
   Py.truthy (Py.get (params auto_id) "nullable" (PBool false)) = false) ∧
  ∃ g1 g2,
    DataGenerator.generate_from_schema plain_libraries [auto_id] 100 zero_tape
      = Ok ({[ name auto_id := PInt <$> seqZ 1 100 ]}, g1) ∧
    DataGenerator.generate_from_schema plain_libraries [auto_id] 100 g1
      = Ok ({[ name auto_id := PInt <$> seqZ 1 100 ]}, g2).
Proof.
  split; [repeat split; reflexivity|].
  apply (auto_increment_restarts plain_libraries auto_id zero_tape); reflexivity.
Defined.

(** C2, as stated, fails: the second call on the same generator yields
    1..100 again, not 101..200. *)
Lemma auto_increment_second_call_from_1 :
  ∃ frame1 g1 frame2 g2,
    DataGenerator.generate_from_schema plain_libraries [auto_id] 100 zero_tape
      = Ok (frame1, g1) ∧
    DataGenerator.generate_from_schema plain_libraries [auto_id] 100 g1
      = Ok (frame2, g2) ∧
    frame1 !! "id" = Some (PInt <$> seqZ 1 100) ∧
    frame2 !! "id" = Some (PInt <$> seqZ 1 100) ∧
    frame2 !! "id" ≠ Some (PInt <$> seqZ 101 100).
Proof.
  exists {[ "id" := PInt <$> seqZ 1 100 ]}, zero_tape,
         {[ "id" := PInt <$> seqZ 1 100 ]}, zero_tape.
  split; [by apply generate_auto_increment_call|].
  split; [by apply generate_auto_increment_call|].
  rewrite lookup_singleton_eq. split; [done|]. split; [done|].
  intros Heq. vm_compute in Heq. discriminate Heq.
Qed.

(** Within one call the counter does carry on: a second auto-increment
    column of the same name continues where the first stopped. *)
Example auto_increment_same_name_continues :
  ∃ g, DataGenerator.generate_from_schema plain_libraries [auto_id; auto_id] 100 zero_tape
       = Ok ({[ "id" := PInt <$> seqZ 101 100 ]}, g).
Proof. exists zero_tape. vm_compute. reflexivity. Qed.

(** ** Unique strings *)

Section StringFacts.
Import Random DataGenerator.
Variable lib : Libraries.

(** The loop only ever proposes the original value, or the original value
    with a suffix. *)
Lemma uniquify_form fuel original counter value used_values :
  (value = original ∨ ∃ k, value = suffixed original k) →
  uniquify fuel original counter value used_values = original ∨
  ∃ k, uniquify fuel original counter value used_values = suffixed original k.
Proof.
  revert counter value. induction fuel as [|fuel IH]; intros counter value Hv; simpl.
  - done.
  - case_bool_decide; [|done]. apply IH. right. by exists counter.
Qed.

Lemma uniquify_start fuel original counter value (used_values : gset string) :
  uniquify fuel original counter value used_values ∈ used_values →
  value ∈ used_values.
Proof. destruct fuel; simpl; [done|]. by case_bool_decide. Qed.

(** If the loop ends on a used value, every candidate it went through was
    used. *)
Lemma uniquify_stuck fuel original counter value (used_values : gset string) :
  uniquify fuel original counter value used_values ∈ used_values →
  ∀ i : nat, (i < fuel)%nat → suffixed original (counter + Z.of_nat i) ∈ used_values.
Proof.
  revert counter value. induction fuel as [|fuel IH]; intros counter value Hin i Hi; [lia|].
  simpl in Hin. case_bool_decide as Hvalue; [|done].
  destruct i as [|i].
  - rewrite Z.add_0_r. by eapply uniquify_start.
  - replace (counter + Z.of_nat (S i)) with (counter + 1 + Z.of_nat i) by lia.
    eapply IH; [done|lia].
Qed.

(** The fuel given to the loop is enough: the value it ends on is new, as
    the value on which the [while] of the source ends. *)
Lemma uniquify_fresh original (used_values : gset string) :
  uniquify (S (size used_values)) original 1 original used_values ∉ used_values.
Proof.
  intros Hin.
  pose proof (uniquify_stuck _ _ _ _ _ Hin) as Hall.
  set (candidates :=
         (λ i : nat, suffixed original (1 + Z.of_nat i)) <$> seq 0 (S (size used_values))).
  assert (Hnd : NoDup candidates).
  { apply NoDup_fmap_2_strong; [|apply NoDup_seq].
    intros i j _ _ Heq. unfold suffixed in Heq.
    apply (inj (String.app original)), (inj (String.app "_")), (inj pretty) in Heq. lia. }
  assert (Hsub : candidates ⊆+ elements used_values).
  { apply NoDup_submseteq; [done|].
    intros s (i & -> & Hi%elem_of_seq)%list_elem_of_fmap.
    apply elem_of_elements, Hall. lia. }
  apply submseteq_length in Hsub.
  unfold candidates in Hsub. rewrite length_fmap, length_seq in Hsub.
  change (length (elements used_values)) with (size used_values) in Hsub. lia.
Qed.

Lemma take_length_le n s : (String.length (PyStr.take n s) ≤ n)%nat.
Proof.
  revert s. induction n as [|n IH]; intros [|a s]; simpl; try lia.
  specialize (IH s). lia.
Qed.

Lemma slice_to_length value stop :
  0 ≤ stop → Z.of_nat (String.length (slice_to value stop)) ≤ stop.
Proof.
  intros Hstop. unfold slice_to.
  replace (0 <=? stop) with true by (symmetry; by apply Z.leb_le).
  pose proof (take_length_le (Z.to_nat stop) value). lia.
Qed.

(** The half of C3 that holds: a value is never longer than a non-negative
    [max_length]. *)
Lemma string_value_length params faker_method used_values g value used_values' g' m :
  Py.get params "max_length" (PInt 255) = PInt m → 0 ≤ m →
  string_value lib params faker_method used_values g = Ok (value, used_values', g') →
  Z.of_nat (String.length value) ≤ m.
Proof.
  intros Hmax Hm. unfold string_value. rewrite Hmax.
  case_result; [|discriminate].
  match goal with |- context [if Py.truthy ?u then _ else _] => destruct (Py.truthy u) end.
  all: match goal with |- context [String.length ?v] => generalize v; intros chosen end.
  all: unfold Py.lt_int; cbn [Py.compare_int Py.as_int bind].
  all: destruct (Z.compare_spec m (Z.of_nat (String.length chosen)));
    cbn [bind]; intros [= <- <- <-]; try lia; by apply slice_to_length.
Qed.

Lemma string_loop_length n params faker_method used_values g values g' m :
  Py.get params "max_length" (PInt 255) = PInt m → 0 ≤ m →
  string_loop lib n params faker_method used_values g = Ok (values, g') →
  ∀ v, v ∈ values → ∃ s, v = PStr s ∧ Z.of_nat (String.length s) ≤ m.
Proof.
  intros Hmax Hm. revert used_values g values g'.
  induction n as [|n IH]; intros used g values g'; cbn [string_loop].
  - intros [= <- <-] v Hv. by apply elem_of_nil in Hv.
  - case_result; [|discriminate]. case_result; [|discriminate].
    intros [= <- <-] v [->|Hv]%elem_of_cons.
    + eexists. split; [done|]. by eapply string_value_length.
    + eapply IH; eauto.
Qed.
(** With [max_length = 1] every value of the random-string path comes out
    as one character of the alphabet: a suffixed value is cut back to its
    first character. *)
Lemma string_value_one_char used_values g :
  ∃ c used_values' g',
    string_value lib one_char_unique None used_values g
      = Ok (one_char c, used_values', g') ∧ c ∈ alphabet.
Proof.
  unfold string_value.
  replace (Py.get one_char_unique "min_length" (PInt 1)) with (PInt 1) by reflexivity.
  replace (Py.get one_char_unique "max_length" (PInt 255)) with (PInt 1) by reflexivity.
  replace (Py.get one_char_unique "unique" (PBool false)) with (PBool true) by reflexivity.
  cbn [Py.int_lt Py.compare_int Py.as_int Py.truthy bind Z.compare Pos.compare
       Pos.compare_cont].
  unfold randint. cbn [Z.ltb Z.compare Pos.compare Pos.compare_cont].
  destruct (draw g) as [r g1]. cbn [bind].
  replace (1 + Z.of_nat r `mod` (1 - 1 + 1)) with 1 by (rewrite Z.mod_1_r; lia).
  destruct (choices_one alphabet g1) as (c & g2 & -> & Hc); [done|].
  cbn [bind string_of_list_ascii].
  exists c. unfold one_char.
  destruct (uniquify_form (S (size used_values)) (String c "") 1 (String c "") used_values)
    as [->|[k ->]]; [by left|..].
  - unfold Py.lt_int. cbn. eexists _, g2. done.
  - unfold Py.lt_int, suffixed.
    change (String c "" +:+ "_" +:+ pretty k) with (String c (String "_" (pretty k))).
    cbn [Py.compare_int bind String.length].
    replace (1 ?= Z.of_nat (S (S (String.length (pretty k))))) with Lt
      by (symmetry; apply Z.compare_lt_iff; lia).
    cbn [bind Py.as_int]. eexists _, g2. done.
Qed.

Lemma string_loop_one_char n used_values g :
  ∃ values g',
    string_loop lib n one_char_unique None used_values g = Ok (values, g') ∧
    length values = n ∧
    ∀ v, v ∈ values → v ∈ (λ c, PStr (one_char c)) <$> alphabet.
Proof.
  revert used_values g. induction n as [|n IH]; intros used_values g; cbn [string_loop].
  - exists [], g. split; [done|]. split; [done|]. by intros v ?%elem_of_nil.
  - destruct (string_value_one_char used_values g) as (c & used' & g1 & -> & Hc).
    cbn [bind]. destruct (IH used' g1) as (values & g2 & -> & Hlen & Hin). cbn [bind].
    exists (PStr (one_char c) :: values), g2. split; [done|]. split; [simpl; lia|].
    intros v [->|Hv]%elem_of_cons; [|by apply Hin].
    by apply (list_elem_of_fmap_2 (λ c, PStr (one_char c))).
Qed.

(** C3. The values of a unique string column are not always pairwise
    distinct: the suffix that makes a value new is added before the value is
    cut to [max_length], and the cut can take it away again. For a column
    named [code] with [unique] set and [max_length = 1], 64 samples are 64
    one-character strings over an alphabet of 63 characters, so two of them
    are equal, whatever the random source delivers. *)
Theorem unique_strings_collide g :
  ∃ values g',
    _generate_strings lib 64 one_char_unique "code" g = Ok (values, g') ∧
    length values = 64%nat ∧
    (∀ v, v ∈ values → ∃ c, v = PStr (one_char c)) ∧
    ¬ NoDup values.
Proof.
  unfold _generate_strings, string_values.
  replace (_choose_faker_method "code") with (@None string) by reflexivity.
  destruct (string_loop_one_char (Z.to_nat 64) ∅ g) as (values & g' & -> & Hlen & Hin).
  cbn [bind]. unfold add_nulls.
  replace (Py.truthy (Py.get one_char_unique "nullable" (PBool false))) with false
    by reflexivity.
  exists values, g'. split; [done|]. split; [by rewrite Hlen|]. split.
  - intros v Hv. apply Hin, list_elem_of_fmap in Hv as (c & -> & _). by exists c.
  - intros Hnd. apply (NoDup_submseteq _ _ Hnd) in Hin.
    apply submseteq_length in Hin. rewrite Hlen, length_fmap in Hin.
    vm_compute in Hin. lia.
Qed.

End StringFacts.

(** A run with two samples: both draws give the same character, the second
    value becomes [a_1] and is cut back to [a]. *)
Example unique_strings_collide_run :
  ∃ g, DataGenerator._generate_strings plain_libraries 2 one_char_unique "code" zero_tape
       = Ok ([PStr "a"; PStr "a"], g).
Proof. eexists. vm_compute. reflexivity. Qed.

(** ** The analyzer *)

Section AnalyzerFacts.
Import DataAnalyzer.
Variables DataFrame Analysis : Type.
Variable read_csv : UploadedFile → string → result DataFrame.
Variable sheet_names : UploadedFile → result (list string).
Variable read_excel : UploadedFile → string → result DataFrame.
Variable _analyze_dataframe : DataFrame → float → result Analysis.

(** C9, as the code has it. [analyze_file] raises its [ValueError] for an
    unsupported file type exactly when the suffix of the file name is none
    of the supported ones, and then nothing is read; for a supported suffix
    its outcome is the outcome of reading and profiling the file, an error
    included. *)
Theorem analyze_file_cases uploaded_file noise_level :
  let file_extension := _get_file_extension (name uploaded_file) in
  if bool_decide (file_extension ∈ supported_extensions) then
    analyze_file read_csv sheet_names read_excel _analyze_dataframe
      uploaded_file noise_level =
      if bool_decide (file_extension = ".csv")
      then do a <- _analyze_csv read_csv _analyze_dataframe uploaded_file noise_level;
           Ok (OfCsv a)
      else do a <- _analyze_excel sheet_names read_excel _analyze_dataframe
                     uploaded_file noise_level;
           Ok (OfExcel a)
  else
    analyze_file read_csv sheet_names read_excel _analyze_dataframe
      uploaded_file noise_level =
      Raise (ValueError ("Unsupported file type: " +:+ file_extension)).
Proof.
  intros file_extension. unfold analyze_file. fold file_extension.
  unfold supported_extensions. cbn [existsb].
  destruct (PyStr.eqs file_extension ".csv") eqn:Hcsv.
  { apply eqs_true in Hcsv. rewrite Hcsv. rewrite bool_decide_eq_true_2 by set_solver.
    by rewrite bool_decide_eq_true_2. }
  destruct (PyStr.eqs file_extension ".xlsx") eqn:Hxlsx.
  { apply eqs_true in Hxlsx. rewrite Hxlsx. rewrite bool_decide_eq_true_2 by set_solver.
    by rewrite bool_decide_eq_false_2. }
  destruct (PyStr.eqs file_extension ".xls") eqn:Hxls.
  { apply eqs_true in Hxls. rewrite Hxls. rewrite bool_decide_eq_true_2 by set_solver.
    by rewrite bool_decide_eq_false_2. }
  cbn [orb]. rewrite bool_decide_eq_false_2; [done|].
  intros Hin. repeat (apply elem_of_cons in Hin as [Hin|Hin];
    [apply eqs_true in Hin; congruence|]). by apply elem_of_nil in Hin.
Qed.

End AnalyzerFacts.

(** C9, as stated, fails in its "only if": a file with a supported suffix on
    which the reader raises makes [analyze_file] raise. The handler in
    [_analyze_csv] catches [UnicodeDecodeError] only. *)
Lemma supported_file_can_raise :
  DataAnalyzer._get_file_extension (DataAnalyzer.name empty_csv)
    ∈ DataAnalyzer.supported_extensions ∧
  DataAnalyzer.analyze_file read_csv_strict (fun _ => Ok []) (fun _ _ => Ok tt)
    (fun _ _ => Ok tt) empty_csv 0x1.999999999999ap-5%float
  = Raise (EmptyDataError "No columns to parse from file").
Proof. split; [vm_compute; set_solver|reflexivity]. Qed.

Example unsupported_file_raises :
  DataAnalyzer.analyze_file read_csv_strict (fun _ => Ok []) (fun _ _ => Ok tt)
    (fun _ _ => Ok tt) notes_txt 0x1.999999999999ap-5%float
  = Raise (ValueError "Unsupported file type: .txt").
Proof. reflexivity. Qed.

(** The suffix is what follows the last dot, in lower case; a name without
    a dot is its own suffix. *)
Example file_extensions :
  DataAnalyzer._get_file_extension <$> ["data.csv"; "DATA.XLSX"; "a.tar.gz"; "csv"; "notes"]
  = [".csv"; ".xlsx"; ".gz"; ".csv"; ".notes"].
Proof. reflexivity. Qed.

Section DistributionFacts.
Import DataAnalyzer.
Local Open Scope float_scope.

(** C10. When the statistics are computed without an error, the
    distribution is "skewed" if [|skewness| > 1], otherwise "uniform" if the
    minimum is non-negative and [(max - min) / std < 2], otherwise "normal";
    when a call the code makes raises, the result is the dictionary with
    the type "unknown". *)
Theorem distribution_classification series :
  match skew series, kurtosis series with
  | Ok sk, Ok ku =>
      let classified t :=
        _get_distribution_info series =
          {| d_skewness := Some sk; d_kurtosis := Some ku; d_type := t |} in
      if PrimFloat.ltb 1 (abs sk) then classified "skewed"
      else
        match min series with
        | Ok mn =>
            if PrimFloat.leb 0 mn then
              match max series, std series with
              | Ok mx, Ok sd =>
                  classified (if PrimFloat.ltb ((mx - mn) / sd) 2
                              then "uniform" else "normal")
              | _, _ => _get_distribution_info series = unknown_distribution
              end
            else classified "normal"
        | Raise _ => _get_distribution_info series = unknown_distribution
        end
  | _, _ => _get_distribution_info series = unknown_distribution
  end.
Proof.
  unfold _get_distribution_info, distribution_body.
  destruct (skew series) as [sk|]; cbn [bind]; [|done].
  destruct (kurtosis series) as [ku|]; cbn [bind]; [|done].
  destruct (PrimFloat.ltb 1 (abs sk)); cbn [bind]; [done|].
  destruct (min series) as [mn|]; cbn [bind]; [|done].
  destruct (PrimFloat.leb 0 mn); cbn [bind]; [|done].
  destruct (max series) as [mx|]; cbn [bind]; [|done].
  destruct (std series) as [sd|]; cbn [bind]; [|done].
  by destruct (PrimFloat.ltb ((mx - mn) / sd) 2).
Qed.

(** The result is "unknown" only when a call raised. *)
Lemma unknown_only_on_error series :
  d_type (_get_distribution_info series) = "unknown" →
  ∃ e, distribution_body series = Raise e.
Proof.
  unfold _get_distribution_info.
  destruct (distribution_body series) as [d|e] eqn:Hbody; [|by exists e].
  intros Htype. exfalso. revert Hbody. unfold distribution_body.
  repeat (case_result; [|discriminate]).
  intros [= <-]. cbn [d_type] in Htype. subst.
  match goal with H : _ = Ok "unknown" |- _ => revert H end.
  destruct (PrimFloat.ltb 1 _); [discriminate|].
  repeat (case_result; [|discriminate]).
  destruct (PrimFloat.leb 0 _); [|discriminate].
  repeat (case_result; [|discriminate]).
  destruct (PrimFloat.ltb _ 2); discriminate.
Qed.

(** A column with a single value raises nothing: its statistics are NaN,
    every comparison with them is false, and it is classified "normal". *)
Example single_value_is_normal :
  d_type (_get_distribution_info single_value_series) = "normal".
Proof. reflexivity. Qed.

End DistributionFacts.

(** ** The generator: more of what a call returns *)

Section GeneratorMore.
Import Random DataGenerator.
Variable lib : Libraries.

Lemma get_empty key dflt : Py.get ∅ key dflt = dflt.
Proof. unfold Py.get. by rewrite lookup_empty. Qed.

Lemma set_nulls_length null_indices values values' :
  set_nulls null_indices values = Ok values' → length values' = length values.
Proof.
  revert values. induction null_indices as [|idx rest IH]; intros values; simpl.
  - by intros [= <-].
  - destruct (_ && _); [|discriminate]. intros H%IH. by rewrite H, length_insert.
Qed.

Lemma add_nulls_length n nullable values g values' g' :
  add_nulls n nullable values g = Ok (values', g') → length values' = length values.
Proof.
  unfold add_nulls. destruct (Py.truthy nullable); [|by intros [= <- <-]].
  repeat (case_result; [|discriminate]). intros [= <- <-].
  by eapply set_nulls_length.
Qed.

(** A generated column has [num_samples] entries (none for a negative
    [num_samples]). *)
Lemma generate_column_length column n unique_counters g values unique_counters' g' :
  generate_column lib column n unique_counters g = Ok (values, unique_counters', g') →
  length values = Z.to_nat n.
Proof.
  rewrite generate_column_phases.
  case_result; [|discriminate]. case_result; [|discriminate]. intros [= <- <- <-].
  match goal with H : column_values _ _ _ _ _ = Ok _ |- _ =>
    apply column_values_shape in H as [<- _] end.
  by eapply add_nulls_length.
Qed.

(** Without [nullable], the null phase is skipped: the column is what the
    value phase made. *)
Lemma generate_column_not_nullable column n unique_counters g :
  Py.truthy (nullable_of column) = false →
  generate_column lib column n unique_counters g
    = column_values lib column n unique_counters g.
Proof.
  intros Hnullable. rewrite generate_column_phases.
  destruct (column_values lib column n unique_counters g) as [[[values ctrs] g1]|e];
    cbn [bind]; [|done].
  unfold add_nulls. by rewrite Hnullable.
Qed.

(** X1. A column whose [nullable] parameter
    is absent or falsy comes out with [num_samples] values and no [None]
    among them, whatever its type and its other parameters. *)
Theorem non_nullable_column_has_no_null column n unique_counters g values unique_counters' g'
    (Hnullable : Py.truthy (nullable_of column) = false)
    (Hrun : generate_column lib column n unique_counters g
            = Ok (values, unique_counters', g')) :
  length values = Z.to_nat n ∧ no_nulls values ∧ count_none values = 0%nat.
Proof.
  rewrite generate_column_not_nullable in Hrun by done.
  apply column_values_shape in Hrun as [Hlen Hnn].
  split; [done|]. split; [done|]. by apply count_none_no_nulls.
Qed.

Lemma randint_bounds a b g z g' :
  randint a b g = Ok (z, g') → a ≤ z ≤ b.
Proof.
  unfold randint. destruct (b <? a) eqn:Hba; [discriminate|].
  apply Z.ltb_ge in Hba. destruct (draw g) as [r g1]. intros [= <- <-].
  pose proof (Z.mod_pos_bound (Z.of_nat r) (b - a + 1)). lia.
Qed.

Lemma randint_total a b g : a ≤ b → ∃ z g', randint a b g = Ok (z, g').
Proof.
  intros Hab. unfold randint.
  replace (b <? a) with false by (symmetry; apply Z.ltb_ge; lia).
  destruct (draw g) as [r g1]. eauto.
Qed.

Lemma repeat_gen_total {A} (f : Rng → result (A * Rng)) n g :
  (∀ g, ∃ x g', f g = Ok (x, g')) →
  ∃ xs g', repeat_gen n f g = Ok (xs, g').
Proof.
  intros Hf. revert g. induction n as [|n IH]; intros g; simpl; [eauto|].
  destruct (Hf g) as (x & g1 & ->). cbn [bind].
  destruct (IH g1) as (xs & g2 & ->). cbn [bind]. eauto.
Qed.

(** X2. An integer column that is neither
    auto-increment nor unique nor nullable, with [min_value <= max_value]:
    the call returns [num_samples] integers, each between the two bounds
    (both included), and leaves the counters alone. *)
Theorem random_integers_within_bounds params unique_counters col_name g lo hi n
    (Hmin : Py.get params "min_value" (PInt 1) = PInt lo)
    (Hmax : Py.get params "max_value" (PInt 100000) = PInt hi)
    (Hauto : Py.truthy (Py.get params "auto_increment" (PBool false)) = false)
    (Hunique : Py.truthy (Py.get params "unique" (PBool false)) = false)
    (Hnullable : Py.truthy (Py.get params "nullable" (PBool false)) = false)
    (Hrange : lo ≤ hi) :
  ∃ zs g',
    _generate_integers n params unique_counters col_name g
      = Ok (PInt <$> zs, unique_counters, g') ∧
    length zs = Z.to_nat n ∧ ∀ z, z ∈ zs → lo ≤ z ≤ hi.
Proof.
  unfold _generate_integers, integer_values.
  rewrite Hmin, Hmax, Hauto, Hunique. cbn [Py.as_int bind].
  destruct (repeat_gen_total (λ g0, randint lo hi g0) (Z.to_nat n) g) as (zs & g' & Hzs).
  { intros g0. by apply randint_total. }
  rewrite Hzs. cbn [bind]. unfold add_nulls. rewrite Hnullable. cbn [bind].
  exists zs, g'. split; [done|].
  apply (repeat_gen_shape (λ z, lo ≤ z ≤ hi)) in Hzs as [Hlen Hall].
  - split; [done|]. intros z Hz. by eapply Forall_forall in Hall.
  - intros g0 z g1. apply randint_bounds.
Qed.

(** X3. The same column with
    [max_value < min_value]: the bounds are not put in order, so the first
    draw raises the [ValueError] of [random.randint]; only a call for no
    sample at all returns (an empty column). *)
Theorem random_integers_empty_range params unique_counters col_name g lo hi n
    (Hmin : Py.get params "min_value" (PInt 1) = PInt lo)
    (Hmax : Py.get params "max_value" (PInt 100000) = PInt hi)
    (Hauto : Py.truthy (Py.get params "auto_increment" (PBool false)) = false)
    (Hunique : Py.truthy (Py.get params "unique" (PBool false)) = false)
    (Hnullable : Py.truthy (Py.get params "nullable" (PBool false)) = false)
    (Hrange : hi < lo) :
  _generate_integers n params unique_counters col_name g =
    if 1 <=? n then Raise (ValueError "empty range for randrange()")
    else Ok ([], unique_counters, g).
Proof.
  unfold _generate_integers, integer_values.
  rewrite Hmin, Hmax, Hauto, Hunique. cbn [Py.as_int bind].
  destruct (1 <=? n) eqn:Hn.
  - apply Z.leb_le in Hn. destruct (Z.to_nat n) as [|k] eqn:Hk; [lia|].
    cbn [repeat_gen]. unfold randint.
    replace (hi <? lo) with true by (symmetry; by apply Z.ltb_lt). done.
  - apply Z.leb_gt in Hn. replace (Z.to_nat n) with 0%nat by lia.
    cbn [repeat_gen bind fmap list_fmap]. unfold add_nulls. by rewrite Hnullable.
Qed.

(** X4. A unique integer column whose range holds
    at least [num_samples] integers: the range is not widened, and the call
    returns [num_samples] pairwise distinct integers between the two
    bounds. *)
Theorem unique_integers_in_range params unique_counters col_name g lo hi n
    (Hmin : Py.get params "min_value" (PInt 1) = PInt lo)
    (Hmax : Py.get params "max_value" (PInt 100000) = PInt hi)
    (Hauto : Py.truthy (Py.get params "auto_increment" (PBool false)) = false)
    (Hunique : Py.truthy (Py.get params "unique" (PBool false)) = true)
    (Hnullable : Py.truthy (Py.get params "nullable" (PBool false)) = false)
    (Hn : 0 ≤ n) (Hwide : n ≤ hi - lo + 1) :
  ∃ zs g',
    _generate_integers n params unique_counters col_name g
      = Ok (PInt <$> zs, unique_counters, g') ∧
    length zs = Z.to_nat n ∧ NoDup zs ∧ ∀ z, z ∈ zs → lo ≤ z ≤ hi.
Proof.
  unfold _generate_integers, integer_values.
  rewrite Hmin, Hmax, Hauto, Hunique. cbn [Py.sub Py.add Py.is_integral andb Py.as_int bind].
  unfold Py.lt_int. cbn [Py.compare_int bind].
  destruct (Z.compare_spec (hi - lo + 1) n); [|lia|];
    cbn [Py.add Py.is_integral andb Py.as_int bind].
  all: destruct (sample_in_range (seqZ lo (hi + 1 - lo)) n g) as (zs & g' & Hs);
    [rewrite length_seqZ; lia|].
  all: rewrite Hs; cbn [bind]; unfold add_nulls; rewrite Hnullable; cbn [bind].
  all: apply sample_Ok in Hs as (_ & Hlen & Hsub).
  all: exists zs, g'; split; [done|]; split; [done|]; split;
    [eapply submseteq_NoDup; [apply NoDup_seqZ|done]|].
  all: intros z Hz; eapply elem_of_submseteq in Hz; [|done];
    apply elem_of_seqZ in Hz; lia.
Qed.

(** X5. A unique integer column asked for a
    negative number of samples raises the [ValueError] of [random.sample],
    where the other integer columns return an empty column. *)
Theorem unique_integers_negative_count params unique_counters col_name g lo hi n
    (Hmin : Py.get params "min_value" (PInt 1) = PInt lo)
    (Hmax : Py.get params "max_value" (PInt 100000) = PInt hi)
    (Hauto : Py.truthy (Py.get params "auto_increment" (PBool false)) = false)
    (Hunique : Py.truthy (Py.get params "unique" (PBool false)) = true)
    (Hn : n < 0) :
  _generate_integers n params unique_counters col_name g
    = Raise (ValueError "Sample larger than population or is negative").
Proof.
  unfold _generate_integers, integer_values.
  rewrite Hmin, Hmax, Hauto, Hunique. cbn [Py.sub Py.add Py.is_integral andb Py.as_int bind].
  unfold Py.lt_int. cbn [Py.compare_int bind].
  destruct (hi - lo + 1 ?= n); cbn [Py.add Py.is_integral andb Py.as_int bind];
    unfold sample; replace (n <? 0) with true by (symmetry; by apply Z.ltb_lt);
    cbn [orb bind]; done.
Qed.

(** The frame built by the loop over the columns: its keys are those it
    started with and the names of the columns, and what it holds under a
    key is what it held before or a column that [generate_column]
    returned. *)
Lemma generate_columns_frame (P : list pyval → Prop) columns n data unique_counters g frame g' :
  (∀ column unique_counters g values unique_counters' g',
     column ∈ columns →
     generate_column lib column n unique_counters g = Ok (values, unique_counters', g') →
     P values) →
  generate_columns lib columns n data unique_counters g = Ok (frame, g') →
  dom frame = dom data ∪ list_to_set (name <$> columns) ∧
  ∀ key values, frame !! key = Some values → data !! key = Some values ∨ P values.
Proof.
  revert data unique_counters g.
  induction columns as [|column columns IH]; intros data unique_counters g HP;
    cbn [generate_columns].
  - intros [= <- <-]. split; [|by left].
    by rewrite fmap_nil, list_to_set_nil, (right_id_L ∅ (∪)).
  - case_result; [|discriminate]. intros Hrest.
    apply IH in Hrest as [Hdom Hval].
    + split.
      { rewrite Hdom, dom_insert_L, fmap_cons, list_to_set_cons.
        by rewrite (comm_L (∪) {[name column]} (dom data)), (assoc_L (∪)). }
      intros key values Hkey. apply Hval in Hkey as [Hkey|Hkey]; [|by right].
      destruct (decide (name column = key)) as [<-|Hne].
      * rewrite lookup_insert_eq in Hkey. injection Hkey as <-. right.
        eapply HP; [left|done].
      * rewrite lookup_insert_ne in Hkey by done. by left.
    + intros c ? ? ? ? ? Hc. apply HP. by right.
Qed.

Lemma generate_from_schema_frame (P : list pyval → Prop) columns n g frame g' :
  (∀ column unique_counters g values unique_counters' g',
     column ∈ columns →
     generate_column lib column n unique_counters g = Ok (values, unique_counters', g') →
     P values) →
  generate_from_schema lib columns n g = Ok (frame, g') →
  dom frame = list_to_set (name <$> columns) ∧
  ∀ key values, frame !! key = Some values → P values.
Proof.
  intros HP Hrun. unfold generate_from_schema in Hrun.
  apply (generate_columns_frame P) in Hrun as [Hdom Hval]; [|done].
  split; [by rewrite Hdom, dom_empty_L, (left_id_L ∅ (∪))|].
  intros key values Hkey. apply Hval in Hkey as [Hkey|Hkey]; [|done].
  by rewrite lookup_empty in Hkey.
Qed.

Lemma generate_columns_total (Q : ColumnDefinition → Prop) columns n data unique_counters g :
  (∀ column unique_counters g, Q column →
     ∃ values unique_counters' g',
       generate_column lib column n unique_counters g = Ok (values, unique_counters', g')) →
  Forall Q columns →
  ∃ frame g', generate_columns lib columns n data unique_counters g = Ok (frame, g').
Proof.
  intros HQ Hall. revert data unique_counters g.
  induction Hall as [|column columns Hc _ IH]; intros data unique_counters g;
    cbn [generate_columns]; [eauto|].
  destruct (HQ column unique_counters g Hc) as (values & ctrs' & g1 & ->). cbn [bind].
  apply IH.
Qed.

(** X6. The frame that [generate_from_schema] returns
    has exactly the names of the given columns as its keys (two columns of
    one name share a key), and every column in it has [num_samples]
    values. *)
Theorem generated_frame_shape columns n g frame g'
    (Hrun : generate_from_schema lib columns n g = Ok (frame, g')) :
  dom frame = list_to_set (name <$> columns) ∧
  ∀ key values, frame !! key = Some values → length values = Z.to_nat n.
Proof.
  apply (generate_from_schema_frame (λ values, length values = Z.to_nat n)) in Hrun;
    [done|].
  intros column ? ? ? ? ? _. apply generate_column_length.
Qed.

(** An auto-increment integer column that is not nullable: the values run
    from the counter of its name, which moves on by [num_samples]. *)
Lemma generate_auto_increment_column column n unique_counters g :
  type column = "integer" →
  Py.truthy (Py.get (params column) "auto_increment" (PBool false)) = true →
  Py.truthy (Py.get (params column) "nullable" (PBool false)) = false →
  generate_column lib column n unique_counters g
    = Ok (PInt <$> seqZ (default 1 (unique_counters !! name column)) n,
          <[name column := default 1 (unique_counters !! name column) + n]> unique_counters,
          g).
Proof.
  intros Htype Hauto Hnullable. unfold generate_column. rewrite Htype.
  replace (PyStr.eqs "integer" "integer") with true by reflexivity.
  unfold _generate_integers, integer_values. rewrite Hauto. cbn [bind].
  unfold add_nulls. rewrite Hnullable. done.
Qed.

(** X7. The counters of one call are kept by
    column name. Two auto-increment columns of different names both run
    from 1 to [num_samples]; two of the same name share a counter, so the
    second runs from [num_samples + 1] and, having the same key, is the one
    column left in the frame. No random number is drawn. *)
Theorem auto_increment_two_columns c1 c2 n g
    (Htype1 : type c1 = "integer") (Htype2 : type c2 = "integer")
    (Hauto1 : Py.truthy (Py.get (params c1) "auto_increment" (PBool false)) = true)
    (Hauto2 : Py.truthy (Py.get (params c2) "auto_increment" (PBool false)) = true)
    (Hnullable1 : Py.truthy (Py.get (params c1) "nullable" (PBool false)) = false)
    (Hnullable2 : Py.truthy (Py.get (params c2) "nullable" (PBool false)) = false) :
  generate_from_schema lib [c1; c2] n g =
    Ok (if decide (name c1 = name c2)
        then {[ name c2 := PInt <$> seqZ (1 + n) n ]}
        else <[ name c2 := PInt <$> seqZ 1 n ]> {[ name c1 := PInt <$> seqZ 1 n ]}, g).
Proof.
  unfold generate_from_schema. cbn [generate_columns].
  rewrite generate_auto_increment_column by done. cbn [bind].
  rewrite generate_auto_increment_column by done. cbn [bind].
  rewrite lookup_empty. cbn [default].
  case_decide as Hname.
  - rewrite Hname, lookup_insert_eq. cbn [default].
    by rewrite insert_insert_eq, insert_empty.
  - rewrite lookup_insert_ne, lookup_empty by done. cbn [default].
    by rewrite insert_empty.
Qed.

(** [int(n * 0.05)] in doubles is the twentieth part of [n], rounded down,
    for every number of samples that the page lets its user choose (10 to
    10 000): checked on each of them. *)
Lemma null_count_of_twentieth n : 0 ≤ n ≤ 10000 → null_count_of n = Ok (n / 20).
Proof.
  intros Hn.
  assert (Hall : forallb (λ n, match null_count_of n with
                               | Ok k => k =? n / 20
                               | Raise _ => false
                               end) (seqZ 0 10001) = true)
    by (vm_compute; reflexivity).
  rewrite forallb_forall in Hall. specialize (Hall n).
  destruct (null_count_of n) as [k|e].
  - f_equal. apply Z.eqb_eq, Hall, list_elem_of_In, elem_of_seqZ. lia.
  - discriminate Hall. apply list_elem_of_In, elem_of_seqZ. lia.
Qed.

(** X8. The number of nulls in a nullable
    column, for up to 10 000 samples (the most the page asks for): a
    twentieth of the number of samples, rounded down. With fewer than 20
    samples a nullable column has no null. *)
Theorem nullable_column_null_count column n unique_counters g values unique_counters' g'
    (Hnullable : Py.truthy (nullable_of column) = true)
    (Hn : 0 ≤ n ≤ 10000)
    (Hrun : generate_column lib column n unique_counters g
            = Ok (values, unique_counters', g')) :
  length values = Z.to_nat n ∧ count_none values = Z.to_nat (n / 20).
Proof.
  split; [by eapply generate_column_length|].
  rewrite generate_column_phases in Hrun. revert Hrun.
  case_result; [|discriminate].
  match goal with H : column_values _ _ _ _ _ = Ok _ |- _ =>
    apply column_values_shape in H as [Hlen Hnn] end.
  match goal with |- context [add_nulls n _ ?values0 ?g1] =>
    destruct (add_nulls_spec n (n / 20) (nullable_of column) values0 g1)
      as (idxs & values' & g2 & -> & _ & _ & _ & _ & _ & Hcount);
      [done|by apply null_count_of_twentieth| |done|done|]
  end.
  - split; [apply Z.div_pos; lia|]. apply Z.div_le_upper_bound; lia.
  - cbn [bind]. by intros [= <- <- <-].
Qed.

(** *** Columns without parameters *)

Lemma choices_total {A} (population : list A) k g :
  population ≠ [] → ∃ xs g', choices population k g = Ok (xs, g').
Proof.
  destruct population as [|x rest]; [done|]. intros _. unfold choices.
  destruct (choices_go (x :: rest) x (Z.to_nat k) g) as [xs g']. eauto.
Qed.

Lemma integer_values_default n unique_counters col_name g :
  ∃ values g',
    integer_values n ∅ unique_counters col_name g = Ok (values, unique_counters, g').
Proof.
  unfold integer_values. rewrite !get_empty. cbn [Py.truthy Py.as_int bind].
  destruct (repeat_gen_total (λ g0, randint 1 100000 g0) (Z.to_nat n) g) as (zs & g' & ->).
  { intros g0. by apply randint_total. }
  cbn [bind]. eauto.
Qed.

Lemma float_values_default n g :
  ∃ values g', float_values lib n ∅ g = Ok (values, g').
Proof.
  unfold float_values. rewrite !get_empty. apply repeat_gen_total.
  intros g0. unfold uniform. destruct (random g0) as [r g1].
  cbn [Py.sub Py.is_integral andb Py.as_float Py.mul_float bind Py.truthy]. eauto.
Qed.

Lemma string_value_default faker_method used_values g :
  ∃ value g',
    string_value lib ∅ faker_method used_values g = Ok (value, used_values, g').
Proof.
  unfold string_value. rewrite !get_empty.
  assert (Hsource : ∃ value g1,
    match faker_method with
    | Some method => let '(r, g0) := draw g in Ok (faker_text lib method r, g0)
    | None =>
        do capped <- Py.int_lt 50 (PInt 255);
        do lo <- Py.as_int (PInt 1);
        do hi <- Py.as_int (if capped then PInt 50 else PInt 255);
        do (len, g0) <- randint lo hi g;
        do (chars, g1) <- choices alphabet len g0;
        Ok (string_of_list_ascii chars, g1)
    end = Ok (value, g1)).
  { destruct faker_method as [method|].
    - destruct (draw g) as [r g1]. eauto.
    - cbn [Py.int_lt Py.compare_int Py.as_int bind Z.compare Pos.compare Pos.compare_cont].
      destruct (randint_total 1 50 g) as (len & g1 & ->); [lia|]. cbn [bind].
      destruct (choices_total alphabet len g1) as (chars & g2 & ->); [done|].
      cbn [bind]. eauto. }
  destruct Hsource as (value & g1 & ->). cbn [bind Py.truthy].
  unfold Py.lt_int. cbn [Py.compare_int bind].
  destruct (255 ?= Z.of_nat (String.length value)); cbn [bind Py.as_int]; eauto.
Qed.

Lemma string_loop_default n faker_method used_values g :
  ∃ values g', string_loop lib n ∅ faker_method used_values g = Ok (values, g').
Proof.
  revert g. induction n as [|n IH]; intros g; cbn [string_loop]; [eauto|].
  destruct (string_value_default faker_method used_values g) as (value & g1 & ->).
  cbn [bind]. destruct (IH g1) as (values & g2 & ->). cbn [bind]. eauto.
Qed.

Lemma boolean_values_default n g :
  ∃ values g', boolean_values n ∅ g = Ok (values, g').
Proof.
  unfold boolean_values. rewrite get_empty. apply repeat_gen_total.
  intros g0. destruct (random g0) as [r g1]. cbn [Py.float_lt bind]. eauto.
Qed.

Lemma date_values_default n g :
  dates_supported lib → ∃ values g', date_values lib n ∅ g = Ok (values, g').
Proof.
  intros (s & e & Hs & He & Hdate & _).
  unfold date_values, date_bounds. rewrite !get_empty.
  cbn [Py.as_str bind]. rewrite Hs. cbn [bind]. rewrite He. cbn [bind].
  apply repeat_gen_total. intros g0. destruct (draw g0) as [r g1].
  destruct (Hdate r) as [d ->]. cbn [bind]. eauto.
Qed.

Lemma datetime_values_default n g :
  dates_supported lib → ∃ values g', datetime_values lib n ∅ g = Ok (values, g').
Proof.
  intros (s & e & Hs & He & _ & Hdatetime).
  unfold datetime_values, date_bounds. rewrite !get_empty.
  cbn [Py.as_str bind]. rewrite Hs. cbn [bind]. rewrite He. cbn [bind].
  apply repeat_gen_total. intros g0. destruct (draw g0) as [r g1].
  destruct (Hdatetime r) as [d ->]. cbn [bind]. eauto.
Qed.

(** A column without parameters is generated without an error, whatever its
    type, and leaves the counters alone. *)
Lemma blank_column_generates column n unique_counters g :
  dates_supported lib → params column = ∅ →
  ∃ values g',
    generate_column lib column n unique_counters g = Ok (values, unique_counters, g').
Proof.
  intros Hdates Hparams.
  rewrite generate_column_not_nullable
    by (unfold nullable_of; by rewrite Hparams, get_empty).
  unfold column_values. rewrite Hparams.
  destruct (PyStr.eqs (type column) "integer"); [apply integer_values_default|].
  destruct (PyStr.eqs (type column) "float").
  { destruct (float_values_default n g) as (v & g1 & ->). cbn [bind]. eauto. }
  destruct (PyStr.eqs (type column) "string").
  { destruct (string_loop_default (Z.to_nat n) (_choose_faker_method (name column)) ∅ g)
      as (v & g1 & Hv). unfold string_values. rewrite Hv. cbn [bind]. eauto. }
  destruct (PyStr.eqs (type column) "date").
  { destruct (date_values_default n g Hdates) as (v & g1 & ->). cbn [bind]. eauto. }
  destruct (PyStr.eqs (type column) "datetime").
  { destruct (datetime_values_default n g Hdates) as (v & g1 & ->). cbn [bind]. eauto. }
  destruct (PyStr.eqs (type column) "boolean").
  { destruct (boolean_values_default n g) as (v & g1 & ->). cbn [bind]. eauto. }
  destruct (string_loop_default (Z.to_nat n) (_choose_faker_method (name column)) ∅ g)
    as (v & g1 & Hv). unfold string_values. rewrite Hv. cbn [bind]. eauto.
Qed.

(** X9. Parsing and generating compose: for every
    table that [parse_schema] returns and every number of samples,
    [generate_from_schema] returns a frame and raises nothing, given
    libraries that work on the default date range. The frame has the parsed
    column names as its keys, and each column has [num_samples] values, none
    of them [None]: a parsed column carries no [nullable] parameter. *)
Theorem parsed_table_generates schema_content table_name columns n g
    (Hdates : dates_supported lib)
    (Hlookup : SchemaParser.tables (SchemaParser.parse_schema schema_content) !! table_name
               = Some columns) :
  ∃ frame g',
    generate_from_schema lib columns n g = Ok (frame, g') ∧
    dom frame = list_to_set (name <$> columns) ∧
    ∀ key values, frame !! key = Some values →
      length values = Z.to_nat n ∧ no_nulls values.
Proof.
  assert (Hblank : Forall (λ column, params column = ∅) columns).
  { apply parse_schema_from_block in Hlookup as (_ & m & _ & _ & ->).
    apply Forall_forall. intros column Hc.
    by apply _parse_columns_blank in Hc as [? _]. }
  destruct (generate_columns_total (λ column, params column = ∅) columns n ∅ ∅ g)
    as (frame & g' & Hrun); [|done|].
  { intros column ctrs g0 Hc.
    destruct (blank_column_generates column n ctrs g0 Hdates Hc) as (v & g1 & ->). eauto. }
  exists frame, g'. split; [done|].
  apply (generate_from_schema_frame
           (λ values, length values = Z.to_nat n ∧ no_nulls values)) in Hrun; [done|].
  intros column ctrs g0 values ctrs' g1 Hc Hcol.
  assert (Hparams : params column = ∅) by (by eapply Forall_forall in Hblank).
  rewrite generate_column_not_nullable in Hcol
    by (unfold nullable_of; by rewrite Hparams, get_empty).
  by apply column_values_shape in Hcol.
Qed.

End GeneratorMore.

Lemma plain_libraries_dates_supported : dates_supported plain_libraries.
Proof. exists 10, 10. repeat split; eauto. Qed.

Lemma non_nullable_column_has_no_null_witness :
  length [PInt 1; PInt 1; PInt 1] = Z.to_nat 3 ∧
  no_nulls [PInt 1; PInt 1; PInt 1] ∧
  DataGenerator.count_none [PInt 1; PInt 1; PInt 1] = 0%nat.
Proof.
  apply (non_nullable_column_has_no_null plain_libraries id_column 3 ∅ zero_tape
           [PInt 1; PInt 1; PInt 1] ∅ (Random.mkRng (fun _ => 0%nat) 3)).
  - reflexivity.
  - vm_compute. reflexivity.
Defined.

Lemma random_integers_within_bounds_witness :
  ∃ zs g',
    DataGenerator._generate_integers 5 dice ∅ "roll" zero_tape
      = Ok (PInt <$> zs, ∅, g') ∧
    length zs = Z.to_nat 5 ∧ ∀ z, z ∈ zs → 1 ≤ z ≤ 6.
Proof.
  apply (random_integers_within_bounds dice ∅ "roll" zero_tape 1 6 5);
    (reflexivity || lia).
Defined.

Lemma random_integers_empty_range_witness :
  DataGenerator._generate_integers 5 reversed_bounds ∅ "roll" zero_tape
    = Raise (ValueError "empty range for randrange()").
Proof.
  apply (random_integers_empty_range reversed_bounds ∅ "roll" zero_tape 6 1 5);
    (reflexivity || lia).
Defined.

Lemma unique_integers_in_range_witness :
  ∃ zs g',
    DataGenerator._generate_integers 10 narrow_unique ∅ "n" zero_tape
      = Ok (PInt <$> zs, ∅, g') ∧
    length zs = Z.to_nat 10 ∧ NoDup zs ∧ ∀ z, z ∈ zs → 1 ≤ z ≤ 10.
Proof.
  apply (unique_integers_in_range narrow_unique ∅ "n" zero_tape 1 10 10);
    (reflexivity || lia).
Defined.

Lemma unique_integers_negative_count_witness :
  DataGenerator._generate_integers (-1) narrow_unique ∅ "n" zero_tape
    = Raise (ValueError "Sample larger than population or is negative").
Proof.
  apply (unique_integers_negative_count narrow_unique ∅ "n" zero_tape 1 10 (-1));
    (reflexivity || lia).
Defined.

Lemma generated_frame_shape_witness :
  dom ({[ "id" := [PInt 1; PInt 1; PInt 1] ]} : gmap string (list pyval))
    = list_to_set (name <$> [id_column]) ∧
  ∀ key values,
    ({[ "id" := [PInt 1; PInt 1; PInt 1] ]} : gmap string (list pyval)) !! key = Some values →
    length values = Z.to_nat 3.
Proof.
  apply (generated_frame_shape plain_libraries [id_column] 3 zero_tape
           {[ "id" := [PInt 1; PInt 1; PInt 1] ]} (Random.mkRng (fun _ => 0%nat) 3)).
  vm_compute. reflexivity.
Defined.

Lemma auto_increment_two_columns_witness :
  DataGenerator.generate_from_schema plain_libraries [auto_id; order_id] 3 zero_tape
    = Ok (<[ "order_id" := PInt <$> seqZ 1 3 ]> {[ "id" := PInt <$> seqZ 1 3 ]}, zero_tape)
  ∧ DataGenerator.generate_from_schema plain_libraries [auto_id; auto_id] 3 zero_tape
    = Ok ({[ "id" := PInt <$> seqZ (1 + 3) 3 ]}, zero_tape).
Proof.
  split.
  - apply (auto_increment_two_columns plain_libraries auto_id order_id 3 zero_tape);
      reflexivity.
  - apply (auto_increment_two_columns plain_libraries auto_id auto_id 3 zero_tape);
      reflexivity.
Defined.

Lemma nullable_column_null_count_witness :
  length (PNone :: PNone :: (PInt <$> seqZ 3 38)) = Z.to_nat 40 ∧
  DataGenerator.count_none (PNone :: PNone :: (PInt <$> seqZ 3 38)) = Z.to_nat (40 / 20).
Proof.
  apply (nullable_column_null_count plain_libraries nullable_id 40 ∅ zero_tape
           (PNone :: PNone :: (PInt <$> seqZ 3 38)) {[ "id" := 41 ]}
           (Random.mkRng (fun _ => 0%nat) 2)).
  - reflexivity.
  - lia.
  - vm_compute. reflexivity.
Defined.

Lemma parsed_table_generates_witness :
  ∃ frame g',
    DataGenerator.generate_from_schema plain_libraries [id_column] 3 zero_tape
      = Ok (frame, g') ∧
    dom frame = list_to_set (name <$> [id_column]) ∧
    ∀ key values, frame !! key = Some values →
      length values = Z.to_nat 3 ∧ no_nulls values.
Proof.
  apply (parsed_table_generates plain_libraries plain_schema "t" [id_column] 3 zero_tape).
  - apply plain_libraries_dates_supported.
  - vm_compute. reflexivity.
Defined.

(** ** Unique strings: what the suffix does achieve *)

Section StringsMore.
Import Random DataGenerator.
Variable lib : Libraries.

(** One round with [unique] set: the set of used values only grows, and a
    value shorter than [max_length] was not cut, so it is the new value that
    the round put into the set. *)
Lemma string_value_unique params faker_method used_values g value used_values' g' m :
  Py.get params "max_length" (PInt 255) = PInt m → 0 ≤ m →
  Py.truthy (Py.get params "unique" (PBool false)) = true →
  string_value lib params faker_method used_values g = Ok (value, used_values', g') →
  used_values ⊆ used_values' ∧
  (Z.of_nat (String.length value) < m →
   (value ∉ used_values) ∧ value ∈ used_values').
Proof.
  intros Hmax Hm Hunique. unfold string_value. rewrite Hmax, Hunique.
  case_result; [|discriminate].
  match goal with |- context [uniquify ?f ?o 1 ?o ?u] =>
    pose proof (uniquify_fresh o u) as Hfresh; generalize dependent (uniquify f o 1 o u)
  end.
  intros chosen Hfresh.
  unfold Py.lt_int; cbn [Py.compare_int Py.as_int bind].
  destruct (Z.compare_spec m (Z.of_nat (String.length chosen))) as [Heq|Hlt|Hgt];
    cbn [bind]; intros [= <- <- <-].
  - split; [set_solver|]. intros _. split; [done|set_solver].
  - split; [set_solver|]. intros Hshort. exfalso. revert Hshort. unfold slice_to.
    replace (0 <=? m) with true by (symmetry; by apply Z.leb_le).
    assert (Hlen : ∀ n s, (n ≤ String.length s)%nat →
                          String.length (PyStr.take n s) = n).
    { clear. induction n as [|n IH]; intros [|a s] Hn; simpl in *; try lia.
      rewrite IH; lia. }
    rewrite Hlen by lia. lia.
  - split; [set_solver|]. intros _. split; [done|set_solver].
Qed.

Lemma string_loop_unique n params faker_method used_values g values g' m :
  Py.get params "max_length" (PInt 255) = PInt m → 0 ≤ m →
  Py.truthy (Py.get params "unique" (PBool false)) = true →
  string_loop lib n params faker_method used_values g = Ok (values, g') →
  (∀ s, PStr s ∈ values → Z.of_nat (String.length s) < m → s ∉ used_values) ∧
  (∀ (i j : nat) s, i ≠ j → values !! i = Some (PStr s) → values !! j = Some (PStr s) →
     Z.of_nat (String.length s) = m).
Proof.
  intros Hmax Hm Hunique. revert used_values g values g'.
  induction n as [|n IH]; intros used g values g'; cbn [string_loop].
  - intros [= <- <-]. split; [by intros s ?%elem_of_nil|]. by intros i j s _ ?.
  - destruct (string_value lib params faker_method used g)
      as [[[value used'] g1]|e] eqn:Hvalue; cbn [bind]; [|discriminate].
    destruct (string_loop lib n params faker_method used' g1)
      as [[rest g2]|e] eqn:Hloop; cbn [bind]; [|discriminate].
    intros [= <- <-].
    pose proof (string_value_length _ _ _ _ _ _ _ _ _ Hmax Hm Hvalue) as Hle.
    apply (string_value_unique _ _ _ _ _ _ _ m) in Hvalue as [Hsub Hnew]; [|done..].
    apply IH in Hloop as [Hrest Hpair].
    split.
    + intros s [[= <-]|Hs]%elem_of_cons Hshort; [by apply Hnew|].
      intros Hused. by apply (Hrest s Hs Hshort), Hsub.
    + assert (Hhead : ∀ (k : nat) u, rest !! k = Some (PStr u) → u = value →
                       Z.of_nat (String.length u) = m).
      { intros k u Hk ->. apply list_elem_of_lookup_2 in Hk.
        destruct (decide (Z.of_nat (String.length value) < m)) as [Hshort|Hlong]; [|lia].
        exfalso. apply (Hrest value Hk Hshort). by apply Hnew. }
      intros [|i] [|j] u Hij Hi Hj; cbn in Hi, Hj.
      * done.
      * injection Hi as <-. by eapply Hhead.
      * injection Hj as <-. by eapply Hhead.
      * eapply (Hpair i j); [lia|done..].
Qed.

(** X10. What the uniqueness loop of
    [_generate_strings] does achieve, for a [unique] column that is not
    nullable and has a non-negative [max_length]: every value is a string of
    at most [max_length] characters, and two values at different positions
    are equal only if they are exactly [max_length] characters long. The
    values shorter than [max_length] are pairwise distinct. *)
Theorem unique_strings_equal_only_when_cut n params col_name g values g' m
    (Hmax : Py.get params "max_length" (PInt 255) = PInt m) (Hm : 0 ≤ m)
    (Hunique : Py.truthy (Py.get params "unique" (PBool false)) = true)
    (Hnullable : Py.truthy (Py.get params "nullable" (PBool false)) = false)
    (Hrun : _generate_strings lib n params col_name g = Ok (values, g')) :
  length values = Z.to_nat n ∧
  (∀ v, v ∈ values → ∃ s, v = PStr s ∧ Z.of_nat (String.length s) ≤ m) ∧
  (∀ (i j : nat) s, i ≠ j → values !! i = Some (PStr s) → values !! j = Some (PStr s) →
     Z.of_nat (String.length s) = m).
Proof.
  unfold _generate_strings, string_values in Hrun. revert Hrun.
  case_result; [|discriminate]. unfold add_nulls. rewrite Hnullable. intros [= <- <-].
  match goal with H : string_loop _ _ _ _ _ _ = Ok _ |- _ =>
    pose proof (string_loop_shape _ _ _ _ _ _ _ _ H) as [Hlen _];
    pose proof (string_loop_length _ _ _ _ _ _ _ _ _ Hmax Hm H) as Hle;
    apply (string_loop_unique _ _ _ _ _ _ _ m) in H as [_ Hpair]; [|done..] end.
  done.
Qed.

End StringsMore.

Lemma unique_strings_equal_only_when_cut_witness :
  length [PStr "a"; PStr "a_1"] = Z.to_nat 2 ∧
  (∀ v, v ∈ [PStr "a"; PStr "a_1"] → ∃ s, v = PStr s ∧ Z.of_nat (String.length s) ≤ 3) ∧
  (∀ (i j : nat) s, i ≠ j →
     [PStr "a"; PStr "a_1"] !! i = Some (PStr s) →
     [PStr "a"; PStr "a_1"] !! j = Some (PStr s) →
     Z.of_nat (String.length s) = 3).
Proof.
  apply (unique_strings_equal_only_when_cut plain_libraries 2 unique_codes "code" zero_tape
           [PStr "a"; PStr "a_1"] (Random.mkRng (fun _ => 0%nat) 4) 3).
  - reflexivity.
  - lia.
  - reflexivity.
  - reflexivity.
  - vm_compute. reflexivity.
Defined.

(** ** Random strings *)

Section RandomStrings.
Import Random DataGenerator.
Variable lib : Libraries.

Lemma choices_go_spec {A} (population : list A) dflt k g xs g' :
  population ≠ [] → choices_go population dflt k g = (xs, g') →
  length xs = k ∧ Forall (λ x, x ∈ population) xs.
Proof.
  intros Hne. revert g xs g'. induction k as [|k IH]; intros g xs g'; cbn [choices_go].
  - by intros [= <- <-].
  - destruct (draw g) as [r g1].
    destruct (choices_go population dflt k g1) as [ys g2] eqn:Hrest.
    intros [= <- <-]. apply IH in Hrest as [Hlen Hall].
    split; [simpl; by rewrite Hlen|]. constructor; [|done].
    apply list_elem_of_In, nth_In, Nat.mod_upper_bound. by destruct population.
Qed.

Lemma string_of_list_ascii_length chars :
  String.length (string_of_list_ascii chars) = length chars.
Proof. induction chars as [|a chars IH]; simpl; [done|]. by rewrite IH. Qed.

(** One round on the random-string path, the length range not empty. *)
Lemma string_value_random params used_values g lo m :
  Py.get params "min_length" (PInt 1) = PInt lo →
  Py.get params "max_length" (PInt 255) = PInt m →
  Py.truthy (Py.get params "unique" (PBool false)) = false →
  0 ≤ lo ≤ Z.min m 50 →
  ∃ value g',
    string_value lib params None used_values g = Ok (value, used_values, g') ∧
    lo ≤ Z.of_nat (String.length value) ≤ Z.min m 50 ∧
    Forall (λ a, a ∈ alphabet) (list_ascii_of_string value).
Proof.
  intros Hmin Hmax Hunique Hrange. unfold string_value.
  rewrite Hmin, Hmax, Hunique.
  cbn [Py.int_lt Py.compare_int Py.as_int bind].
  assert (Hhi : Py.as_int (if match m ?= 50 with Gt => true | _ => false end
                           then PInt 50 else PInt m) = Ok (Z.min m 50)).
  { destruct (Z.compare_spec m 50); cbn [Py.as_int]; f_equal; lia. }
  rewrite Hhi. cbn [bind].
  destruct (randint_total lo (Z.min m 50) g) as (len & g1 & Hlen); [lia|].
  rewrite Hlen. cbn [bind]. apply randint_bounds in Hlen.
  unfold choices. cbn [alphabet list_ascii_of_string].
  match goal with |- context [choices_go ?pop ?d ?k ?g0] =>
    destruct (choices_go pop d k g0) as [chars g2] eqn:Hchars;
    apply choices_go_spec in Hchars as [Hk Hall]; [|done] end.
  cbn [bind]. unfold Py.lt_int. cbn [Py.compare_int bind].
  rewrite string_of_list_ascii_length, Hk.
  destruct (Z.compare_spec m (Z.of_nat (Z.to_nat len))); try lia; cbn [bind].
  all: exists (string_of_list_ascii chars), g2; split; [done|].
  all: rewrite string_of_list_ascii_length, Hk, list_ascii_of_string_of_list_ascii.
  all: split; [lia|done].
Qed.

Lemma string_loop_random n params used_values g lo m :
  Py.get params "min_length" (PInt 1) = PInt lo →
  Py.get params "max_length" (PInt 255) = PInt m →
  Py.truthy (Py.get params "unique" (PBool false)) = false →
  0 ≤ lo ≤ Z.min m 50 →
  ∃ values g',
    string_loop lib n params None used_values g = Ok (values, g') ∧
    length values = n ∧
    ∀ v, v ∈ values →
      ∃ s, v = PStr s ∧ lo ≤ Z.of_nat (String.length s) ≤ Z.min m 50 ∧
           Forall (λ a, a ∈ alphabet) (list_ascii_of_string s).
Proof.
  intros Hmin Hmax Hunique Hrange. revert g.
  induction n as [|n IH]; intros g; cbn [string_loop].
  - exists [], g. split; [done|]. split; [done|]. by intros v ?%elem_of_nil.
  - destruct (string_value_random params used_values g lo m)
      as (value & g1 & -> & Hlen & Hchars); [done..|].
    cbn [bind]. destruct (IH g1) as (values & g2 & -> & Hn & Hvalues). cbn [bind].
    exists (PStr value :: values), g2. split; [done|]. split; [simpl; by rewrite Hn|].
    intros v [->|Hv]%elem_of_cons; [by exists value|by apply Hvalues].
Qed.

(** X11. A string column whose name calls for no
    Faker method, neither unique nor nullable, with
    [0 <= min_length <= min(max_length, 50)]: [_generate_strings] returns
    [num_samples] strings over letters, digits and the blank, each between
    [min_length] and [min(max_length, 50)] characters long, so none is
    cut. With [min(max_length, 50) < min_length], as for [max_length = 0],
    the first draw of a length raises the [ValueError] of
    [random.randint]. *)
Theorem random_strings_shape n params col_name g lo m
    (Hmethod : _choose_faker_method col_name = None)
    (Hmin : Py.get params "min_length" (PInt 1) = PInt lo)
    (Hmax : Py.get params "max_length" (PInt 255) = PInt m)
    (Hunique : Py.truthy (Py.get params "unique" (PBool false)) = false)
    (Hnullable : Py.truthy (Py.get params "nullable" (PBool false)) = false) :
  (0 ≤ lo ≤ Z.min m 50 →
   ∃ values g',
     _generate_strings lib n params col_name g = Ok (values, g') ∧
     length values = Z.to_nat n ∧
     ∀ v, v ∈ values →
       ∃ s, v = PStr s ∧ lo ≤ Z.of_nat (String.length s) ≤ Z.min m 50 ∧
            Forall (λ a, a ∈ alphabet) (list_ascii_of_string s)) ∧
  (Z.min m 50 < lo → 1 ≤ n →
   _generate_strings lib n params col_name g
     = Raise (ValueError "empty range for randrange()")).
Proof.
  unfold _generate_strings, string_values. rewrite Hmethod. split.
  - intros Hrange.
    destruct (string_loop_random (Z.to_nat n) params ∅ g lo m)
      as (values & g' & -> & Hlen & Hvalues); [done..|].
    cbn [bind]. unfold add_nulls. rewrite Hnullable. by exists values, g'.
  - intros Hrange Hn. destruct (Z.to_nat n) as [|k] eqn:Hk; [lia|].
    cbn [string_loop]. unfold string_value. rewrite Hmin, Hmax.
    cbn [Py.int_lt Py.compare_int Py.as_int bind].
    assert (Hhi : Py.as_int (if match m ?= 50 with Gt => true | _ => false end
                             then PInt 50 else PInt m) = Ok (Z.min m 50)).
    { destruct (Z.compare_spec m 50); cbn [Py.as_int]; f_equal; lia. }
    rewrite Hhi. cbn [bind]. unfold randint.
    replace (Z.min m 50 <? lo) with true by (symmetry; by apply Z.ltb_lt). done.
Qed.

End RandomStrings.

Lemma random_strings_shape_witness :
  (0 ≤ 2 ≤ Z.min 4 50 →
   ∃ values g',
     DataGenerator._generate_strings plain_libraries 3 short_codes "code" zero_tape
       = Ok (values, g') ∧
     length values = Z.to_nat 3 ∧
     ∀ v, v ∈ values →
       ∃ s, v = PStr s ∧ 2 ≤ Z.of_nat (String.length s) ≤ Z.min 4 50 ∧
            Forall (λ a, a ∈ DataGenerator.alphabet) (list_ascii_of_string s)) ∧
  (Z.min 4 50 < 2 → 1 ≤ 3 →
   DataGenerator._generate_strings plain_libraries 3 short_codes "code" zero_tape
     = Raise (ValueError "empty range for randrange()")).
Proof.
  apply (random_strings_shape plain_libraries 3 short_codes "code" zero_tape 2 4);
    reflexivity.
Defined.

(** A column that leaves no room for a character: the length range is
    empty. *)
Example no_room_for_a_string :
  DataGenerator._generate_strings plain_libraries 1 no_room "code" zero_tape
  = Raise (ValueError "empty range for randrange()").
Proof. reflexivity. Qed.

(** ** Parsed columns are generated with the defaults *)

Section ParsedDefaults.
Import Random DataGenerator.
Variable lib : Libraries.

Lemma repeat_gen_ext {A} (f f' : Rng → result (A * Rng)) n g :
  (∀ g, f g = f' g) → repeat_gen n f g = repeat_gen n f' g.
Proof.
  intros Hf. revert g. induction n as [|n IH]; intros g; cbn [repeat_gen]; [done|].
  rewrite Hf. destruct (f' g) as [[x g1]|e]; cbn [bind]; [|done]. by rewrite IH.
Qed.

Lemma string_value_defaults col_name used_values g :
  string_value lib ∅ (_choose_faker_method col_name) used_values g
  = do (value, g') <- default_text lib col_name g; Ok (value, used_values, g').
Proof.
  unfold string_value, default_text. rewrite !get_empty.
  cbn [Py.int_lt Py.compare_int Py.as_int Py.truthy bind Z.compare Pos.compare
       Pos.compare_cont].
  match goal with |- bind ?m _ = bind (bind ?m' _) _ =>
    change m' with m; destruct m as [[value g1]|e]; cbn [bind]; [|done] end.
  unfold Py.lt_int. cbn [Py.compare_int bind]. unfold Z.ltb.
  destruct (255 ?= Z.of_nat (String.length value)); cbn [bind Py.as_int]; done.
Qed.

Lemma string_loop_defaults n col_name used_values g :
  string_loop lib n ∅ (_choose_faker_method col_name) used_values g
  = repeat_gen n (λ g, do (value, g) <- default_text lib col_name g; Ok (PStr value, g)) g.
Proof.
  revert g. induction n as [|n IH]; intros g; cbn [string_loop repeat_gen]; [done|].
  rewrite string_value_defaults.
  destruct (default_text lib col_name g) as [[value g1]|e]; cbn [bind]; [|done].
  by rewrite IH.
Qed.

(** A column without parameters: [generate_column] makes the values of
    [default_values] and hands the counters on as they are. *)
Lemma generate_column_defaults column num_samples unique_counters g :
  params column = ∅ →
  generate_column lib column num_samples unique_counters g
  = do (values, g') <-
      default_values lib (type column) (name column) num_samples g;
    Ok (values, unique_counters, g').
Proof.
  intros Hparams.
  rewrite generate_column_not_nullable
    by (unfold nullable_of; by rewrite Hparams, get_empty).
  unfold column_values, default_values. rewrite Hparams.
  assert (Hstrings :
    (do (values, g0) <- string_values lib num_samples ∅ (name column) g;
     Ok (values, unique_counters, g0))
    = do (values, g') <-
        repeat_gen (Z.to_nat num_samples)
          (λ g, do (value, g) <- default_text lib (name column) g; Ok (PStr value, g)) g;
      Ok (values, unique_counters, g')).
  { unfold string_values. by rewrite string_loop_defaults. }
  destruct (PyStr.eqs (type column) "integer").
  { unfold integer_values. rewrite !get_empty. cbn [Py.truthy Py.as_int bind].
    destruct (repeat_gen (Z.to_nat num_samples) (λ g0, randint 1 100000 g0) g)
      as [[zs g1]|e]; reflexivity. }
  destruct (PyStr.eqs (type column) "float").
  { unfold float_values. rewrite !get_empty.
    rewrite (repeat_gen_ext _
      (λ g, let '(r, g) := random g in Ok (PFloat (0 + 10000 * r)%float, g))); [done|].
    intros g0. unfold uniform. by destruct (random g0) as [r g1]. }
  destruct (PyStr.eqs (type column) "string"); [done|].
  destruct (PyStr.eqs (type column) "date").
  { unfold date_values, date_bounds. rewrite !get_empty. cbn [Py.as_str bind].
    destruct (strptime lib "2020-01-01") as [s|e]; cbn [bind]; [|done].
    by destruct (strptime lib "2024-12-31") as [e|e']. }
  destruct (PyStr.eqs (type column) "datetime").
  { unfold datetime_values, date_bounds. rewrite !get_empty. cbn [Py.as_str bind].
    destruct (strptime lib "2020-01-01") as [s|e]; cbn [bind]; [|done].
    by destruct (strptime lib "2024-12-31") as [e|e']. }
  destruct (PyStr.eqs (type column) "boolean"); [|done].
  unfold boolean_values. rewrite get_empty.
  rewrite (repeat_gen_ext _
    (λ g, let '(r, g) := random g in Ok (PBool (PrimFloat.ltb r 0.5%float), g))); [done|].
  intros g0. by destruct (random g0) as [r g1].
Qed.

Lemma generate_columns_defaults columns num_samples data unique_counters g :
  Forall (λ column, params column = ∅) columns →
  generate_columns lib columns num_samples data unique_counters g
  = default_frame lib columns num_samples data g.
Proof.
  intros Hblank. revert data g.
  induction Hblank as [|column columns Hparams _ IH]; intros data g;
    cbn [generate_columns default_frame]; [done|].
  rewrite generate_column_defaults by done.
  destruct (default_values lib (type column) (name column) num_samples g)
    as [[values g1]|e]; cbn [bind]; [|done].
  apply IH.
Qed.

(** C4. A column definition in the result of [parse_schema] has an empty
    parameter map and an empty constraint list, whatever constraints and
    sizes the schema text gives it, so every parameter the generator reads
    from it is the generator's default, and schema-driven generation on the
    columns of a parsed table is generation with the built-in defaults:
    [generate_from_schema] returns on them what [default_frame] returns,
    where no value is made null or unique, no column counts up, and the
    bounds are the default ones. *)
Theorem parsed_columns_use_defaults schema_content table_name columns
    (Hlookup : SchemaParser.tables (SchemaParser.parse_schema schema_content) !! table_name
               = Some columns) :
  (∀ column, column ∈ columns →
     params column = ∅ ∧ constraints column = [] ∧
     ∀ key dflt, Py.get (params column) key dflt = dflt) ∧
  ∀ num_samples g,
    generate_from_schema lib columns num_samples g
    = default_frame lib columns num_samples ∅ g.
Proof.
  assert (Hblank : ∀ column, column ∈ columns → blank column).
  { apply parse_schema_from_block in Hlookup as (_ & m & _ & _ & ->).
    intros column. apply _parse_columns_blank. }
  split.
  { intros column [Hparams Hconstraints]%Hblank. split; [done|]. split; [done|].
    intros key dflt. by rewrite Hparams, get_empty. }
  intros num_samples g. unfold generate_from_schema.
  apply generate_columns_defaults, Forall_forall.
  intros column Hcolumn. by apply Hblank.
Qed.

End ParsedDefaults.

Lemma parsed_columns_use_defaults_witness :
  (∀ column, column ∈ [constrained_column] →
     params column = ∅ ∧ constraints column = [] ∧
     ∀ key dflt, Py.get (params column) key dflt = dflt) ∧
  ∀ num_samples g,
    DataGenerator.generate_from_schema plain_libraries [constrained_column] num_samples g
    = default_frame plain_libraries [constrained_column] num_samples ∅ g.
Proof.
  apply (parsed_columns_use_defaults plain_libraries constrained_schema "t"
           [constrained_column]).
  vm_compute. reflexivity.
Defined.

(** A column written [id INT NOT NULL AUTO_INCREMENT] is generated as any
    integer column: random values between 1 and 100000, here three times
    the 1 that the tape of zeros gives, not the sequence 1, 2, 3. *)
Example constrained_column_run :
  DataGenerator.generate_from_schema plain_libraries [constrained_column] 3 zero_tape
  = Ok ({[ "id" := [PInt 1; PInt 1; PInt 1] ]}, Random.mkRng (fun _ => 0%nat) 3).
Proof. vm_compute. reflexivity. Qed.

(** ** Texts *)

Lemma str_app_cons a s t : String a s +:+ t = String a (s +:+ t).
Proof. reflexivity. Qed.

Lemma str_app_nil_l s : "" +:+ s = s.
Proof. reflexivity. Qed.

Lemma str_app_nil_r s : s +:+ "" = s.
Proof. induction s as [|a s IH]; [done|]. by rewrite str_app_cons, IH. Qed.

Lemma str_app_assoc s1 s2 s3 : (s1 +:+ s2) +:+ s3 = s1 +:+ s2 +:+ s3.
Proof. induction s1 as [|a s1 IH]; [done|]. by rewrite !str_app_cons, IH. Qed.

Lemma str_length_app s1 s2 :
  String.length (s1 +:+ s2) = (String.length s1 + String.length s2)%nat.
Proof. induction s1 as [|a s1 IH]; [done|]. rewrite str_app_cons. simpl. by rewrite IH. Qed.

Lemma str_rev_app_spec s acc : String.rev_app s acc = String.rev s +:+ acc.
Proof.
  unfold String.rev. revert acc. induction s as [|a s IH]; intros acc; simpl; [done|].
  rewrite (IH (String a acc)), (IH (String a "")). by rewrite str_app_assoc.
Qed.

Lemma str_rev_cons a s : String.rev (String a s) = String.rev s +:+ String a "".
Proof. unfold String.rev at 1. simpl. apply str_rev_app_spec. Qed.

Lemma str_rev_app s1 s2 : String.rev (s1 +:+ s2) = String.rev s2 +:+ String.rev s1.
Proof.
  induction s1 as [|a s1 IH].
  - rewrite str_app_nil_l. change (String.rev "") with "". by rewrite str_app_nil_r.
  - by rewrite str_app_cons, !str_rev_cons, IH, str_app_assoc.
Qed.

Lemma str_rev_involutive s : String.rev (String.rev s) = s.
Proof.
  induction s as [|a s IH]; [done|].
  by rewrite str_rev_cons, str_rev_app, IH.
Qed.

Lemma take_app t s :
  PyStr.take (String.length (t +:+ s) - String.length s) (t +:+ s) = t.
Proof.
  rewrite str_length_app.
  replace (String.length t + String.length s - String.length s)%nat
    with (String.length t) by lia.
  induction t as [|a t IH]; [by destruct s|].
  rewrite str_app_cons. simpl. by rewrite IH.
Qed.

Lemma any_char_app q s1 s2 : any_char q (s1 +:+ s2) = any_char q s1 || any_char q s2.
Proof.
  induction s1 as [|a s1 IH]; [done|].
  rewrite str_app_cons. simpl. by rewrite IH, orb_assoc.
Qed.

Lemma all_chars_app q s1 s2 : all_chars q (s1 +:+ s2) = all_chars q s1 && all_chars q s2.
Proof.
  induction s1 as [|a s1 IH]; [done|].
  rewrite str_app_cons. simpl. by rewrite IH, andb_assoc.
Qed.

Lemma any_char_rev q s : any_char q (String.rev s) = any_char q s.
Proof.
  induction s as [|a s IH]; [done|].
  rewrite str_rev_cons, any_char_app, IH. simpl. by rewrite orb_false_r, orb_comm.
Qed.

Lemma all_chars_rev q s : all_chars q (String.rev s) = all_chars q s.
Proof.
  induction s as [|a s IH]; [done|].
  rewrite str_rev_cons, all_chars_app, IH. simpl. by rewrite andb_true_r, andb_comm.
Qed.

Lemma all_chars_impl (p q : ascii → bool) s :
  (∀ a, p a = true → q a = true) → all_chars p s = true → all_chars q s = true.
Proof.
  intros Hpq. induction s as [|a s IH]; simpl; [done|].
  intros [Ha Hs]%andb_true_iff. by rewrite (Hpq a Ha), IH.
Qed.

Lemma all_chars_not_any p q s :
  (∀ a, p a = true → q a = false) → all_chars p s = true → any_char q s = false.
Proof.
  intros Hpq. induction s as [|a s IH]; simpl; [done|].
  intros [Ha Hs]%andb_true_iff. by rewrite (Hpq a Ha), IH.
Qed.

Lemma any_char_concat q ts :
  any_char q (concat_strings ts) = existsb (any_char q) ts.
Proof. induction ts as [|t ts IH]; simpl; [done|]. by rewrite any_char_app, IH. Qed.

Lemma all_chars_concat q ts :
  all_chars q (concat_strings ts) = forallb (all_chars q) ts.
Proof. induction ts as [|t ts IH]; simpl; [done|]. by rewrite all_chars_app, IH. Qed.

(** *** Stripping *)

Lemma lstrip_by_split p s :
  ∃ l, s = l +:+ PyStr.lstrip_by p s ∧ all_chars p l = true.
Proof.
  induction s as [|a s (l & Hl & Hp)]; simpl; [by exists ""|].
  destruct (p a) eqn:Ha; [|by exists ""].
  exists (String a l). rewrite str_app_cons, <-Hl. simpl. by rewrite Ha, Hp.
Qed.

Lemma rstrip_by_split p s :
  ∃ r, s = PyStr.rstrip_by p s +:+ r ∧ all_chars p r = true.
Proof.
  unfold PyStr.rstrip_by.
  destruct (lstrip_by_split p (String.rev s)) as (l & Hl & Hp).
  exists (String.rev l). split; [|by rewrite all_chars_rev].
  by rewrite <-str_rev_app, <-Hl, str_rev_involutive.
Qed.

Lemma strip_by_split p s :
  ∃ l r, s = l +:+ PyStr.strip_by p s +:+ r ∧
         all_chars p l = true ∧ all_chars p r = true.
Proof.
  unfold PyStr.strip_by.
  destruct (lstrip_by_split p s) as (l & Hl & Hpl).
  destruct (rstrip_by_split p (PyStr.lstrip_by p s)) as (r & Hr & Hpr).
  exists l, r. by rewrite <-Hr, <-Hl.
Qed.

Lemma lstrip_by_head p s :
  match PyStr.lstrip_by p s with
  | EmptyString => True
  | String a _ => p a = false
  end.
Proof.
  induction s as [|a s IH]; simpl; [done|]. by destruct (p a) eqn:Ha.
Qed.

Lemma lstrip_by_id p a s : p a = false → PyStr.lstrip_by p (String a s) = String a s.
Proof. simpl. by intros ->. Qed.

(** A text without a character of [p] is its own strip. *)
Lemma strip_by_none p s : any_char p s = false → PyStr.strip_by p s = s.
Proof.
  intros Hs.
  assert (Hl : ∀ t, any_char p t = false → PyStr.lstrip_by p t = t).
  { intros [|a t]; simpl; [done|]. by intros [-> _]%orb_false_iff. }
  unfold PyStr.strip_by, PyStr.rstrip_by.
  rewrite (Hl s Hs), Hl by (by rewrite any_char_rev).
  apply str_rev_involutive.
Qed.

Lemma any_char_strip_by p q s :
  any_char q (PyStr.strip_by p s) = true → any_char q s = true.
Proof.
  intros Hq. destruct (strip_by_split p s) as (l & r & Hs & _).
  rewrite Hs, !any_char_app, Hq. by rewrite orb_true_r.
Qed.

Lemma all_chars_strip_by p q s :
  all_chars q s = true → all_chars q (PyStr.strip_by p s) = true.
Proof.
  intros Hq. destruct (strip_by_split p s) as (l & r & Hs & _).
  rewrite Hs, !all_chars_app in Hq.
  by apply andb_true_iff in Hq as [_ [? _]%andb_true_iff].
Qed.

(** *** Classes of characters, decided on the 256 codes *)

Lemma all_ascii_complete a : a ∈ all_ascii.
Proof.
  unfold all_ascii. apply list_elem_of_fmap. exists (nat_of_ascii a).
  split; [by rewrite ascii_nat_embedding|].
  apply elem_of_seq. pose proof (nat_ascii_bounded a). lia.
Qed.

Lemma class_subset_spec p q a :
  class_subset p q = true → p a = true → q a = true.
Proof.
  unfold class_subset. rewrite forallb_forall. intros Hall Hp.
  specialize (Hall a). rewrite Hp in Hall. apply Hall.
  apply list_elem_of_In, all_ascii_complete.
Qed.

Lemma requires_lang q r t : requires q r = true → lang r t → any_char q t = true.
Proof.
  revert t. induction r as [|p|r1 IH1 r2 IH2|r1 IH1 r2 IH2|greedy r IH|n r IH|ml|ml];
    intros t; cbn [requires lang]; try discriminate.
  - intros Hsub (a & Ha & ->). simpl. by rewrite (class_subset_spec p q a Hsub Ha).
  - intros Hreq (t1 & t2 & -> & H1 & H2). rewrite any_char_app.
    apply orb_true_iff in Hreq as [Hreq|Hreq].
    + by rewrite (IH1 _ Hreq H1).
    + rewrite (IH2 _ Hreq H2). apply orb_true_r.
  - intros [Hq1 Hq2]%andb_true_iff [H|H]; [by apply IH1|by apply IH2].
  - apply IH.
Qed.

Lemma within_lang q r t : within q r = true → lang r t → all_chars q t = true.
Proof.
  revert t. induction r as [|p|r1 IH1 r2 IH2|r1 IH1 r2 IH2|greedy r IH|n r IH|ml|ml];
    intros t; cbn [within lang].
  - by intros _ ->.
  - intros Hsub (a & Ha & ->). simpl. by rewrite (class_subset_spec p q a Hsub Ha).
  - intros [Hq1 Hq2]%andb_true_iff (t1 & t2 & -> & H1 & H2).
    by rewrite all_chars_app, (IH1 _ Hq1 H1), (IH2 _ Hq2 H2).
  - intros [Hq1 Hq2]%andb_true_iff [H|H]; [by apply IH1|by apply IH2].
  - intros Hq (ts & -> & Hts). rewrite all_chars_concat. apply forallb_forall.
    intros t' Hin%list_elem_of_In. apply IH; [done|]. by eapply Forall_forall in Hts.
  - apply IH.
  - by intros _ ->.
  - by intros _ ->.
Qed.

(** ** The matcher and the ways of matching a pattern *)

Section DeriveFacts.
Implicit Types (r : Re.regex) (c d : Re.caps).

(** A way of matching consumes a text of the pattern from the front of the
    subject. *)
Lemma derive_text r prev s c prev' s' c' :
  derive r prev s c prev' s' c' → ∃ t, s = t +:+ s' ∧ lang r t.
Proof.
  induction 1 as
    [prev s c|p prev a s c Ha
    |r1 r2 prev s c prev1 s1 c1 prev2 s2 c2 _ (t1 & -> & Ht1) _ (t2 & -> & Ht2)
    |r1 r2 prev s c prev1 s1 c1 _ (t & -> & Ht)
    |r1 r2 prev s c prev1 s1 c1 _ (t & -> & Ht)
    |greedy r prev s c
    |greedy r prev s c prev1 s1 c1 prev2 s2 c2 _ (t1 & -> & Ht1) _ _ (t2 & -> & Ht2)
    |n r prev s c prev1 s1 c1 _ (t & -> & Ht)
    |ml prev s c Hbol|ml prev s c Heol]; cbn [lang].
  - by exists "".
  - exists (String a ""). split; [done|]. by exists a.
  - exists (t1 +:+ t2). split; [by rewrite str_app_assoc|]. by exists t1, t2.
  - exists t. split; [done|]. by left.
  - exists t. split; [done|]. by right.
  - exists "". split; [done|]. by exists [].
  - destruct Ht2 as (ts & -> & Hts). exists (t1 +:+ concat_strings ts).
    split; [by rewrite str_app_assoc|]. exists (t1 :: ts). split; [done|]. by constructor.
  - by exists t.
  - by exists "".
  - by exists "".
Qed.

(** The captures keep to [G], none is unset, those the pattern always sets
    are set, and those it does not mention are as before. *)
Lemma derive_caps G r prev s c prev' s' c' :
  derive r prev s c prev' s' c' → groups_ok G r → caps_ok G c → caps_ok G c'.
Proof.
  induction 1 as
    [| |r1 r2 prev s c prev1 s1 c1 prev2 s2 c2 _ IH1 _ IH2
     |r1 r2 prev s c prev1 s1 c1 _ IH|r1 r2 prev s c prev1 s1 c1 _ IH|
     |greedy r prev s c prev1 s1 c1 prev2 s2 c2 _ IH1 _ _ IH2
     |n r prev s c prev1 s1 c1 Hd IH| |]; cbn [groups_ok]; try done.
  - intros [Hg1 Hg2] Hc. by apply IH2, IH1.
  - intros [Hg1 Hg2] Hc. by apply IH.
  - intros [Hg1 Hg2] Hc. by apply IH.
  - intros Hg Hc. by apply IH2, IH1.
  - intros [Hgroup Hg] Hc m u. unfold Re.set_cap.
    destruct (m =? n)%nat eqn:Hmn; [|by apply IH].
    apply Nat.eqb_eq in Hmn as ->. intros [= <-]. apply Hgroup.
    apply derive_text in Hd as (t & -> & Ht). by rewrite take_app.
Qed.

Lemma derive_mono r prev s c prev' s' c' n :
  derive r prev s c prev' s' c' → is_Some (c n) → is_Some (c' n).
Proof.
  induction 1; try done; try (by auto).
  intros Hn. unfold Re.set_cap. destruct (n =? _)%nat; [by eexists|by auto].
Qed.

Lemma derive_defines r prev s c prev' s' c' n :
  derive r prev s c prev' s' c' → defines n r = true → is_Some (c' n).
Proof.
  induction 1 as
    [| |r1 r2 prev s c prev1 s1 c1 prev2 s2 c2 _ IH1 Hd2 IH2
     |r1 r2 prev s c prev1 s1 c1 _ IH|r1 r2 prev s c prev1 s1 c1 _ IH|
     |greedy r prev s c prev1 s1 c1 prev2 s2 c2 _ IH1 _ _ IH2
     |m r prev s c prev1 s1 c1 Hd IH| |]; cbn [defines]; try done.
  - intros [Hn|Hn]%orb_true_iff; [|by apply IH2].
    eapply derive_mono; [done|]. by apply IH1.
  - intros [Hn _]%andb_true_iff. by apply IH.
  - intros [_ Hn]%andb_true_iff. by apply IH.
  - unfold Re.set_cap. destruct (n =? m)%nat eqn:Hnm; [by eexists|].
    intros [Hn|Hn]%orb_true_iff; [|by apply IH].
    apply Nat.eqb_eq in Hn as ->. by rewrite Nat.eqb_refl in Hnm.
Qed.

Lemma derive_leaves r prev s c prev' s' c' n :
  derive r prev s c prev' s' c' → leaves n r = true → c' n = c n.
Proof.
  induction 1 as
    [| |r1 r2 prev s c prev1 s1 c1 prev2 s2 c2 _ IH1 Hd2 IH2
     |r1 r2 prev s c prev1 s1 c1 _ IH|r1 r2 prev s c prev1 s1 c1 _ IH|
     |greedy r prev s c prev1 s1 c1 prev2 s2 c2 _ IH1 _ _ IH2
     |m r prev s c prev1 s1 c1 Hd IH| |]; cbn [leaves]; try done.
  - intros [Hn1 Hn2]%andb_true_iff. by rewrite IH2, IH1.
  - intros [Hn _]%andb_true_iff. by apply IH.
  - intros [_ Hn]%andb_true_iff. by apply IH.
  - intros Hn. by rewrite IH2, IH1.
  - intros [Hnm Hn]%andb_true_iff. unfold Re.set_cap.
    apply negb_true_iff in Hnm. rewrite Nat.eqb_sym in Hnm. rewrite Hnm. by apply IH.
Qed.

(** The same way of matching can be gone from other captures. *)
Lemma derive_recap r prev s c prev' s' c' d :
  derive r prev s c prev' s' c' → ∃ d', derive r prev s d prev' s' d'.
Proof.
  intros Hd. revert d.
  induction Hd as
    [prev s c|p prev a s c Ha
    |r1 r2 prev s c prev1 s1 c1 prev2 s2 c2 _ IH1 _ IH2
    |r1 r2 prev s c prev1 s1 c1 _ IH|r1 r2 prev s c prev1 s1 c1 _ IH
    |greedy r prev s c
    |greedy r prev s c prev1 s1 c1 prev2 s2 c2 _ IH1 Hlen _ IH2
    |m r prev s c prev1 s1 c1 _ IH
    |ml prev s c Hbol|ml prev s c Heol]; intros d.
  - exists d. constructor.
  - exists d. by constructor.
  - destruct (IH1 d) as [d1 H1]. destruct (IH2 d1) as [d2 H2].
    exists d2. by econstructor.
  - destruct (IH d) as [d1 H1]. exists d1. by apply derive_Alt_l.
  - destruct (IH d) as [d1 H1]. exists d1. by apply derive_Alt_r.
  - exists d. constructor.
  - destruct (IH1 d) as [d1 H1]. destruct (IH2 d1) as [d2 H2].
    exists d2. by eapply derive_Star_round.
  - destruct (IH d) as [d1 H1]. eexists. by constructor.
  - exists d. by constructor.
  - exists d. by constructor.
Qed.

End DeriveFacts.

Section MatcherSound.
Context {R : Type}.
Implicit Types k : option ascii → string → Re.caps → option R.

(** Soundness: a result of the matcher is the result of its continuation
    after one way of matching the pattern. *)
Lemma star_rounds_sound greedy r k fuel prev s c x :
  (∀ prev s c k x, Re.rmatch r prev s c k = Some x →
     ∃ prev' s' c', derive r prev s c prev' s' c' ∧ k prev' s' c' = Some x) →
  Re.star_rounds greedy (Re.rmatch r) k fuel prev s c = Some x →
  ∃ prev' s' c', derive (Re.Star greedy r) prev s c prev' s' c' ∧ k prev' s' c' = Some x.
Proof.
  intros Hbody. revert prev s c.
  induction fuel as [|fuel IH]; intros prev s c; cbn [Re.star_rounds].
  { intros Hk. exists prev, s, c. split; [constructor|done]. }
  assert (Hrest : k prev s c = Some x →
    ∃ prev' s' c', derive (Re.Star greedy r) prev s c prev' s' c' ∧ k prev' s' c' = Some x).
  { intros Hk. exists prev, s, c. split; [constructor|done]. }
  assert (Hagain :
    Re.rmatch r prev s c (λ prev' s' c',
      if (String.length s' <? String.length s)%nat
      then Re.star_rounds greedy (Re.rmatch r) k fuel prev' s' c' else None) = Some x →
    ∃ prev' s' c', derive (Re.Star greedy r) prev s c prev' s' c' ∧ k prev' s' c' = Some x).
  { intros Hb. destruct (Hbody _ _ _ _ _ Hb) as (prev1 & s1 & c1 & Hd1 & Hk).
    destruct (String.length s1 <? String.length s)%nat eqn:Hlen; [|discriminate].
    apply Nat.ltb_lt in Hlen.
    destruct (IH _ _ _ Hk) as (prev2 & s2 & c2 & Hd2 & Hk2).
    exists prev2, s2, c2. split; [by eapply derive_Star_round|done]. }
  destruct greedy.
  - destruct (Re.rmatch r prev s c _) as [x0|] eqn:Hb; [|done].
    intros [= ->]. by apply Hagain.
  - destruct (k prev s c) as [x0|] eqn:Hk; [|done].
    intros [= ->]. by apply Hrest.
Qed.

Lemma rmatch_sound r prev s c k x :
  Re.rmatch r prev s c k = Some x →
  ∃ prev' s' c', derive r prev s c prev' s' c' ∧ k prev' s' c' = Some x.
Proof.
  revert prev s c k x.
  induction r as [|p|r1 IH1 r2 IH2|r1 IH1 r2 IH2|greedy r IH|m r IH|ml|ml];
    intros prev s c k x; cbn [Re.rmatch].
  - intros Hk. exists prev, s, c. split; [constructor|done].
  - destruct s as [|a s]; [done|]. destruct (p a) eqn:Ha; [|done].
    intros Hk. exists (Some a), s, c. split; [by constructor|done].
  - intros Hm. destruct (IH1 _ _ _ _ _ Hm) as (prev1 & s1 & c1 & Hd1 & Hm2).
    destruct (IH2 _ _ _ _ _ Hm2) as (prev2 & s2 & c2 & Hd2 & Hk).
    exists prev2, s2, c2. split; [by econstructor|done].
  - destruct (Re.rmatch r1 prev s c k) as [x0|] eqn:Hm1.
    + intros [= ->]. destruct (IH1 _ _ _ _ _ Hm1) as (prev1 & s1 & c1 & Hd & Hk).
      exists prev1, s1, c1. split; [by apply derive_Alt_l|done].
    + intros Hm. destruct (IH2 _ _ _ _ _ Hm) as (prev1 & s1 & c1 & Hd & Hk).
      exists prev1, s1, c1. split; [by apply derive_Alt_r|done].
  - by apply star_rounds_sound.
  - intros Hm. destruct (IH _ _ _ _ _ Hm) as (prev1 & s1 & c1 & Hd & Hk).
    eexists prev1, s1, _. split; [by constructor|done].
  - destruct (Re.at_bol ml prev) eqn:Hbol; [|done].
    intros Hk. exists prev, s, c. split; [by constructor|done].
  - destruct (Re.at_eol ml s) eqn:Heol; [|done].
    intros Hk. exists prev, s, c. split; [by constructor|done].
Qed.

(** Completeness: where there is a way of matching after which the
    continuation succeeds, the matcher does not fail. (Its result need not
    come from this way: it may find another one first.) *)
Lemma rmatch_complete r prev s c prev' s' c' k :
  derive r prev s c prev' s' c' → is_Some (k prev' s' c') →
  is_Some (Re.rmatch r prev s c k).
Proof.
  intros Hd. revert k.
  induction Hd as
    [prev s c|p prev a s c Ha
    |r1 r2 prev s c prev1 s1 c1 prev2 s2 c2 _ IH1 _ IH2
    |r1 r2 prev s c prev1 s1 c1 _ IH|r1 r2 prev s c prev1 s1 c1 _ IH
    |greedy r prev s c
    |greedy r prev s c prev1 s1 c1 prev2 s2 c2 _ IH1 Hlen _ IH2
    |m r prev s c prev1 s1 c1 _ IH
    |ml prev s c Hbol|ml prev s c Heol]; intros k Hk; cbn [Re.rmatch].
  - done.
  - by rewrite Ha.
  - apply IH1. by apply IH2.
  - destruct (IH k Hk) as [x ->]. by eexists.
  - destruct (Re.rmatch r1 prev s c k); [by eexists|]. by apply IH.
  - cbn [Re.star_rounds]. destruct greedy.
    + destruct (Re.rmatch r prev s c _); [by eexists|done].
    + by destruct Hk as [x ->]; eexists.
  - cbn [Re.star_rounds].
    assert (Hagain : is_Some (Re.rmatch r prev s c (λ prev' s' c',
      if (String.length s' <? String.length s)%nat
      then Re.star_rounds greedy (Re.rmatch r) k (String.length s) prev' s' c'
      else None))).
    { apply IH1. apply Nat.ltb_lt in Hlen as Hlt. rewrite Hlt.
      rewrite (star_rounds_fuel _ _ _ _ (S (String.length s1)));
        [by apply IH2|apply rmatch_local|lia..]. }
    destruct Hagain as [x Hx]. destruct greedy.
    + rewrite Hx. by eexists.
    + destruct (k prev s c); [by eexists|]. rewrite Hx. by eexists.
  - by apply IH.
  - by rewrite Hbol.
  - by rewrite Heol.
Qed.

End MatcherSound.

Section ScanSound.
Variable G : nat → string → Prop.
Variable r : Re.regex.
Hypothesis Hgroups : groups_ok G r.

Lemma match_here_sound must_advance prev s f :
  Re.match_here r must_advance prev s = Some f →
  s = Re.f_text f +:+ Re.f_rest f ∧ Re.f_before f = "" ∧ found_ok G r f.
Proof.
  unfold Re.match_here. intros Hm.
  destruct (rmatch_sound _ _ _ _ _ _ Hm) as (prev1 & s1 & c1 & Hd & Hk).
  destruct (_ && _); [discriminate|]. injection Hk as <-. cbn.
  destruct (derive_text _ _ _ _ _ _ _ Hd) as (t & -> & Ht). rewrite take_app.
  split; [done|]. split; [done|]. split; [done|]. split.
  - eapply derive_caps; [done..|]. by intros n u.
  - intros n Hn. by eapply derive_defines.
Qed.

Lemma search_from_sound must_advance skipped prev s f :
  Re.search_from r must_advance skipped prev s = Some f →
  String.rev skipped +:+ s = Re.f_before f +:+ Re.f_text f +:+ Re.f_rest f ∧
  found_ok G r f.
Proof.
  revert must_advance skipped prev.
  induction s as [|a s IH]; intros must_advance skipped prev; cbn [Re.search_from].
  - destruct (Re.match_here r must_advance prev "") as [f0|] eqn:Hm; [|done].
    intros [= <-]. apply match_here_sound in Hm as (Hs & _ & Hok). cbn. by rewrite <-Hs.
  - destruct (Re.match_here r must_advance prev (String a s)) as [f0|] eqn:Hm.
    + intros [= <-]. apply match_here_sound in Hm as (Hs & _ & Hok). cbn. by rewrite <-Hs.
    + intros Hf. apply IH in Hf as [Hs Hok]. split; [|done].
      by rewrite <-Hs, str_rev_cons, str_app_assoc.
Qed.

Lemma scan_sound fuel must_advance prev s fs tail :
  Re.scan fuel r must_advance prev s = (fs, tail) →
  s = rebuild fs tail ∧ Forall (found_ok G r) fs.
Proof.
  revert must_advance prev s fs tail.
  induction fuel as [|fuel IH]; intros must_advance prev s fs tail; cbn [Re.scan].
  - by intros [= <- <-].
  - destruct (Re.search_from r must_advance "" prev s) as [f|] eqn:Hf;
      [|by intros [= <- <-]].
    destruct (Re.scan fuel r _ (Re.f_prev f) (Re.f_rest f)) as [fs' tail'] eqn:Hscan.
    intros [= <- <-]. apply IH in Hscan as [Hrest Hall].
    apply search_from_sound in Hf as [Hs Hok].
    split; [|by constructor]. cbn [rebuild foldr]. fold (rebuild fs' tail').
    by rewrite <-Hrest, <-Hs.
Qed.

Lemma findall_sound s m :
  m ∈ Re.findall r s →
  caps_ok G m ∧ ∀ n, defines n r = true → is_Some (m n).
Proof.
  unfold Re.findall, Re.scan_all.
  destruct (Re.scan _ r false None s) as [fs tail] eqn:Hscan. cbn.
  intros (f & -> & Hin)%list_elem_of_fmap.
  apply scan_sound in Hscan as [_ Hall].
  eapply Forall_forall in Hall as (_ & Hc & Hdef); [|done]. done.
Qed.

Lemma re_match_sound s m :
  Re.re_match r s = Some m →
  caps_ok G m ∧ ∀ n, defines n r = true → is_Some (m n).
Proof.
  unfold Re.re_match.
  destruct (Re.match_here r false None s) as [f|] eqn:Hm; [|done].
  intros [= <-]. by apply match_here_sound in Hm as (_ & _ & _ & Hc & Hdef).
Qed.

(** A subject without a character that every text of the pattern has holds
    no match: [findall] finds nothing and [sub] changes nothing. *)
Lemma scan_none q fuel must_advance prev s :
  requires q r = true → any_char q s = false →
  Re.scan fuel r must_advance prev s = ([], s).
Proof.
  intros Hreq Hs.
  destruct (Re.scan fuel r must_advance prev s) as [[|f fs] tail] eqn:Hscan.
  - apply scan_sound in Hscan as [-> _]. done.
  - apply scan_sound in Hscan as [Hrebuild Hall].
    apply Forall_cons in Hall as [(Hlang & _) _].
    apply (requires_lang q) in Hlang; [|done].
    rewrite Hrebuild in Hs. cbn [rebuild foldr] in Hs.
    rewrite !any_char_app, Hlang in Hs. by rewrite orb_true_r in Hs.
Qed.

Lemma findall_none q s :
  requires q r = true → any_char q s = false → Re.findall r s = [].
Proof.
  intros Hreq Hs. unfold Re.findall, Re.scan_all. by rewrite (scan_none q).
Qed.

Lemma sub_none q repl s :
  requires q r = true → any_char q s = false → Re.sub r repl s = s.
Proof.
  intros Hreq Hs. unfold Re.sub, Re.scan_all. by rewrite (scan_none q).
Qed.

(** [sub] brings in no character that is neither in the subject nor in the
    replacement. *)
Lemma any_char_sub q repl s :
  any_char q (Re.sub r repl s) = true → any_char q s = true ∨ any_char q repl = true.
Proof.
  unfold Re.sub, Re.scan_all.
  destruct (Re.scan _ r false None s) as [fs tail] eqn:Hscan.
  apply scan_sound in Hscan as [-> _].
  induction fs as [|f fs IH]; cbn [rebuild foldr]; [by left|].
  rewrite !any_char_app.
  intros [Hq|[Hq|Hq]%orb_true_iff]%orb_true_iff.
  - left. by rewrite Hq.
  - by right.
  - apply IH in Hq as [Hq|Hq]; [|by right].
    left. unfold rebuild in Hq. rewrite Hq. by rewrite !orb_true_r.
Qed.

End ScanSound.

(** ** The parser: what a schema text can and cannot yield *)

Section ParserMore.
Import PyStr SchemaParser.

Lemma groups_ok_any r : groups_ok (λ _ _, True) r.
Proof. induction r; cbn [groups_ok]; auto. Qed.

Lemma groups_within_ok spec r :
  groups_within spec r = true → groups_ok (groups_of spec) r.
Proof.
  induction r as [| |r1 IH1 r2 IH2|r1 IH1 r2 IH2|greedy r IH|n r IH| |];
    cbn [groups_within groups_ok]; try done.
  - intros [H1 H2]%andb_true_iff. auto.
  - intros [H1 H2]%andb_true_iff. auto.
  - intros [Hn Hr]%andb_true_iff. split; [|by apply IH].
    intros t Ht. unfold groups_of. destruct (spec n) as [q|]; [|done].
    apply andb_true_iff in Hn as [Hwithin Hreq]. split.
    + intros ->. by apply (requires_lang q) in Ht.
    + by apply (within_lang q r).
Qed.

(** *** Characters that the parser never brings in *)

Lemma any_char_remove_comments q content :
  any_char q (_remove_comments content) = true →
  any_char q content = true ∨ q LF = true.
Proof.
  unfold _remove_comments, strip. intros Hq%any_char_strip_by.
  assert (Hnl : any_char q newline = true → q LF = true).
  { unfold newline. simpl. by rewrite orb_false_r. }
  apply (any_char_sub _ _ (groups_ok_any _)) in Hq as [Hq|Hq]; [|done].
  apply (any_char_sub _ _ (groups_ok_any _)) in Hq as [Hq|Hq]; [|by right; apply Hnl].
  apply (any_char_sub _ _ (groups_ok_any _)) in Hq as [Hq|Hq]; [by left|by right; apply Hnl].
Qed.

Lemma any_char_splitlines_go q after_cr cur s line :
  line ∈ splitlines_go after_cr cur s → any_char q line = true →
  any_char q cur = true ∨ any_char q s = true.
Proof.
  revert after_cr cur. induction s as [|a s IH]; intros after_cr cur; cbn [splitlines_go].
  - destruct cur as [|b cur]; [by intros ?%elem_of_nil|].
    intros ->%list_elem_of_singleton. rewrite any_char_rev. by left.
  - destruct (after_cr && eqc a LF).
    { intros Hin Hq. destruct (IH _ _ Hin Hq) as [?|Hs]; [by left|].
      right. simpl. by rewrite Hs, orb_true_r. }
    destruct (is_linebreak a).
    + intros [->|Hin]%elem_of_cons Hq.
      * rewrite any_char_rev in Hq. by left.
      * destruct (IH _ _ Hin Hq) as [?|Hs]; [done|].
        right. simpl. by rewrite Hs, orb_true_r.
    + intros Hin Hq. destruct (IH _ _ Hin Hq) as [Hc|Hs].
      * simpl in Hc. apply orb_true_iff in Hc as [Ha|Hc]; [|by left].
        right. simpl. by rewrite Ha.
      * right. simpl. by rewrite Hs, orb_true_r.
Qed.

Lemma any_char_join q sep parts :
  any_char q (join sep parts) = true →
  any_char q sep = true ∨ ∃ part, part ∈ parts ∧ any_char q part = true.
Proof.
  induction parts as [|p [|p' rest] IH]; cbn [join]; [done| |].
  - intros Hq. right. exists p. split; [left|done].
  - rewrite !any_char_app. intros [Hq|[Hq|Hq]%orb_true_iff]%orb_true_iff.
    + right. exists p. split; [left|done].
    + by left.
    + destruct (IH Hq) as [?|(part & Hin & Hpart)]; [by left|].
      right. exists part. split; [by right|done].
Qed.

Lemma any_char_split_dialect q schema_content :
  any_char q (split_dialect schema_content).2 = true →
  any_char q schema_content = true ∨ q LF = true.
Proof.
  unfold split_dialect.
  destruct (splitlines schema_content) as [|first rest] eqn:Hlines; [by left|].
  destruct (detect_dialect first); [|by left]. cbn [snd].
  intros [Hq|(part & Hin & Hq)]%any_char_join.
  - right. unfold newline in Hq. simpl in Hq. by rewrite orb_false_r in Hq.
  - left. assert (Hpart : part ∈ splitlines schema_content)
      by (rewrite Hlines; by right).
    by destruct (any_char_splitlines_go q _ _ _ _ Hpart Hq).
Qed.

(** X12. A [CREATE TABLE] statement is
    found only with its parentheses and its closing semicolon: from a text
    without [;], without an opening or without a closing parenthesis,
    [parse_schema] returns no table. *)
Theorem unterminated_schema_has_no_table schema_content (mark : ascii)
    (Hmark : mark ∈ [";"; "("; ")"]%char)
    (Hnone : any_char (eqc mark) schema_content = false) :
  table_matches schema_content = [] ∧ tables (parse_schema schema_content) = ∅.
Proof.
  assert (Hreq : requires (eqc mark) table_pattern = true ∧ eqc mark LF = false).
  { repeat (apply elem_of_cons in Hmark as [->|Hmark]; [by vm_compute|]).
    by apply elem_of_nil in Hmark. }
  destruct Hreq as [Hreq Hlf].
  assert (Hmatches : table_matches schema_content = []).
  { unfold table_matches. apply (findall_none _ _ (groups_ok_any _) (eqc mark)); [done|].
    apply not_true_is_false. intros [Hq|Hq]%any_char_remove_comments; [|congruence].
    apply any_char_split_dialect in Hq as [Hq|Hq]; congruence. }
  split; [done|]. unfold parse_schema. cbn [tables]. by rewrite Hmatches.
Qed.

(** X13. [_remove_comments] takes a line
    comment only with the line break that ends it, and a block comment only
    with both its marks. A text without a line break, or without [-] and
    [#], and without [*] or without [/], is returned as it is, stripped: a
    [--] comment on a last line that no line break ends stays in the
    text. *)
Theorem comment_free_text_only_stripped content
    (Hline : any_char (eqc LF) content = false ∨
             (any_char (eqc "-") content = false ∧ any_char (eqc "#") content = false))
    (Hblock : any_char (eqc "*") content = false ∨ any_char (eqc "/") content = false) :
  _remove_comments content = strip content.
Proof.
  unfold _remove_comments.
  assert (Hdash : Re.sub dash_comment newline content = content).
  { destruct Hline as [Hq|[Hq _]].
    - by apply (sub_none _ _ (groups_ok_any _) (eqc LF)).
    - by apply (sub_none _ _ (groups_ok_any _) (eqc "-")). }
  rewrite Hdash.
  assert (Hhash : Re.sub hash_comment newline content = content).
  { destruct Hline as [Hq|[_ Hq]].
    - by apply (sub_none _ _ (groups_ok_any _) (eqc LF)).
    - by apply (sub_none _ _ (groups_ok_any _) (eqc "#")). }
  rewrite Hhash.
  assert (Hblk : Re.sub block_comment "" content = content).
  { destruct Hblock as [Hq|Hq].
    - by apply (sub_none _ _ (groups_ok_any _) (eqc "*")).
    - by apply (sub_none _ _ (groups_ok_any _) (eqc "/")). }
  by rewrite Hblk.
Qed.

End ParserMore.

Lemma unterminated_schema_has_no_table_witness :
  SchemaParser.table_matches "CREATE TABLE t (id INT)" = [] ∧
  SchemaParser.tables (SchemaParser.parse_schema "CREATE TABLE t (id INT)") = ∅.
Proof.
  apply (unterminated_schema_has_no_table "CREATE TABLE t (id INT)" ";"%char).
  - by left.
  - reflexivity.
Defined.

Lemma comment_free_text_only_stripped_witness :
  SchemaParser._remove_comments " id INT -- the key" = "id INT -- the key".
Proof.
  apply (comment_free_text_only_stripped " id INT -- the key").
  - left. reflexivity.
  - left. reflexivity.
Defined.

(** ** Table names *)

Section DeriveShapes.
Implicit Types (r : Re.regex) (c d : Re.caps).

Lemma derive_Cat_inv r1 r2 prev s c prev2 s2 c2 :
  derive (Re.Cat r1 r2) prev s c prev2 s2 c2 →
  ∃ prev1 s1 c1, derive r1 prev s c prev1 s1 c1 ∧ derive r2 prev1 s1 c1 prev2 s2 c2.
Proof. inversion 1; subst; eauto. Qed.

Lemma derive_Group_inv n r prev s c prev1 s1 c' :
  derive (Re.Group n r) prev s c prev1 s1 c' →
  ∃ c1, derive r prev s c prev1 s1 c1 ∧
        c' = Re.set_cap n (PyStr.take (String.length s - String.length s1) s) c1.
Proof. inversion 1; subst; eauto. Qed.

Lemma derive_Class_inv p prev s c prev' s' c' :
  derive (Re.Class p) prev s c prev' s' c' →
  ∃ a, p a = true ∧ s = String a s' ∧ prev' = Some a ∧ c' = c.
Proof. inversion 1; subst; eauto. Qed.

(** A repetition of a class consumes a run of characters of the class. *)
Lemma derive_star_class_inv greedy p prev s c prev' s' c' :
  derive (Re.Star greedy (Re.Class p)) prev s c prev' s' c' →
  ∃ w, s = w +:+ s' ∧ all_chars p w = true ∧ prev' = last_prev prev w ∧ c' = c.
Proof.
  intros Hd. remember (Re.Star greedy (Re.Class p)) as r eqn:Hr.
  induction Hd as
    [| | | | |greedy' r' prev s c
     |greedy' r' prev s c prev1 s1 c1 prev2 s2 c2 Hd1 _ Hlen _ IH| | |];
    try discriminate.
  - by exists "".
  - injection Hr as -> ->.
    apply derive_Class_inv in Hd1 as (a & Ha & -> & -> & ->).
    destruct (IH eq_refl) as (w & -> & Hw & -> & ->).
    exists (String a w). split; [done|]. split; [|done]. simpl. by rewrite Ha, Hw.
Qed.

Lemma derive_plus_class_inv p prev s c prev' s' c' :
  derive (Re.Plus (Re.Class p)) prev s c prev' s' c' →
  ∃ a w, s = String a (w +:+ s') ∧ p a = true ∧ all_chars p w = true ∧
         prev' = last_prev (Some a) w ∧ c' = c.
Proof.
  unfold Re.Plus. intros (prev1 & s1 & c1 & Hd1 & Hd2)%derive_Cat_inv.
  apply derive_Class_inv in Hd1 as (a & Ha & -> & -> & ->).
  apply derive_star_class_inv in Hd2 as (w & -> & Hw & -> & ->).
  by exists a, w.
Qed.

Lemma derive_star_class_intro greedy p prev w s' c :
  all_chars p w = true →
  derive (Re.Star greedy (Re.Class p)) prev (w +:+ s') c (last_prev prev w) s' c.
Proof.
  revert prev. induction w as [|a w IH]; intros prev; simpl.
  - intros _. constructor.
  - intros [Ha Hw]%andb_true_iff. rewrite str_app_cons.
    eapply derive_Star_round; [by constructor|simpl; lia|by apply IH].
Qed.

Lemma derive_plus_class_intro p prev a w s' c :
  p a = true → all_chars p w = true →
  derive (Re.Plus (Re.Class p)) prev (String a (w +:+ s')) c (last_prev (Some a) w) s' c.
Proof.
  intros Ha Hw. unfold Re.Plus.
  eapply derive_Cat; [by constructor|by apply derive_star_class_intro].
Qed.

End DeriveShapes.

Section TableNames.
Import PyStr SchemaParser.

Lemma table_pattern_parts :
  table_pattern = foldr Re.Cat (Re.Cat (Re.Opt table_qualifier) table_rest) table_head.
Proof. reflexivity. Qed.

(** Past a chain of patterns, the matcher is at the last one. *)
Lemma rmatch_chain {R} rs r0 prev s c
    (k : option ascii → string → Re.caps → option R) x :
  Re.rmatch (foldr Re.Cat r0 rs) prev s c k = Some x →
  ∃ prev1 s1 c1, Re.rmatch r0 prev1 s1 c1 k = Some x.
Proof.
  revert prev s c. induction rs as [|r rs IH]; intros prev s c; cbn [foldr Re.rmatch].
  - eauto.
  - intros (prev1 & s1 & c1 & _ & Hm)%rmatch_sound. by eapply IH.
Qed.

(** The heart of the matter. The optional qualifier [(?:`?(\w+)`?\.?)?]
    stands before the table name [(\w+)] and is tried first. Where the
    table name alone could take a word of two or more characters, the
    qualifier can take the first of them and leave the rest to the table
    name, so the branch without a qualifier is never the one reported. *)
Lemma qualifier_taken {R} (k : option ascii → string → Re.caps → option R) prev s c x :
  (∀ prev s c d, is_Some (k prev s c) → is_Some (k prev s d)) →
  Re.rmatch (Re.Cat (Re.Opt table_qualifier) table_rest) prev s c k = Some x →
  ∃ prev' s' c',
    k prev' s' c' = Some x ∧ (is_Some (c' 1%nat) ∨ ∃ a, c' 2%nat = Some (String a "")).
Proof.
  intros Hblind.
  change (Re.rmatch (Re.Cat (Re.Opt table_qualifier) table_rest) prev s c k)
    with (match Re.rmatch table_qualifier prev s c
                  (λ p t d, Re.rmatch table_rest p t d k) with
          | Some x => Some x
          | None => Re.rmatch table_rest prev s c k
          end).
  destruct (Re.rmatch table_qualifier prev s c _) as [x0|] eqn:Hq.
  - intros [= ->].
    apply rmatch_sound in Hq as (prev1 & s1 & c1 & Hd1 & Hrest).
    apply rmatch_sound in Hrest as (prev2 & s2 & c2 & Hd2 & Hk).
    exists prev2, s2, c2. split; [done|]. left.
    eapply derive_mono; [done|]. by eapply derive_defines.
  - intros Hrest.
    apply rmatch_sound in Hrest as (prev' & s' & c' & Hd & Hk).
    exists prev', s', c'. split; [done|]. right.
    unfold table_rest in Hd.
    apply derive_Cat_inv in Hd as (pa & sa & ca & Hopt & Hd).
    apply derive_Cat_inv in Hd as (pb & sb & cb & Hname & Htail).
    apply derive_Group_inv in Hname as (cb0 & Hname & ->).
    apply derive_plus_class_inv in Hname as (a & w & -> & Ha & Hw & -> & ->).
    destruct w as [|b w].
    + exists a. rewrite (derive_leaves _ _ _ _ _ _ _ 2%nat Htail) by reflexivity.
      unfold Re.set_cap. cbn [Nat.eqb]. f_equal.
      apply (take_app (String a "") sb).
    + exfalso.
      assert (Hb : is_word b = true ∧ all_chars is_word w = true)
        by (by apply andb_true_iff).
      destruct Hb as [Hb Hw'].
      set (rest := String b w +:+ sb).
      set (cq := Re.set_cap 1 (take (String.length (String a rest) - String.length rest)
                                     (String a rest)) ca).
      assert (Hqual : derive table_qualifier prev s c (Some a) rest cq).
      { unfold table_qualifier. cbn [Re.cats].
        eapply derive_Cat; [exact Hopt|].
        eapply derive_Cat.
        { apply derive_Group.
          apply (derive_plus_class_intro is_word pa a "" rest ca Ha eq_refl). }
        eapply derive_Cat; apply derive_Alt_r; constructor. }
      destruct (derive_recap _ _ _ _ _ _ _
                  (Re.set_cap 2 (take (String.length rest - String.length sb) rest) cq)
                  Htail) as [d' Htail'].
      assert (Hrest : derive table_rest (Some a) rest cq prev' s' d').
      { unfold table_rest.
        eapply derive_Cat; [apply derive_Alt_r; constructor|].
        eapply derive_Cat; [|exact Htail'].
        apply derive_Group.
        apply (derive_plus_class_intro is_word (Some a) b w sb cq Hb Hw'). }
      assert (Hsome : is_Some (Re.rmatch table_qualifier prev s c
                                 (λ p t d, Re.rmatch table_rest p t d k))).
      { eapply rmatch_complete; [exact Hqual|].
        eapply rmatch_complete; [exact Hrest|].
        apply (Hblind _ _ c'). by rewrite Hk. }
      rewrite Hq in Hsome. by destruct Hsome.
Qed.

Lemma table_match_caps must_advance prev s f :
  Re.match_here table_pattern must_advance prev s = Some f →
  is_Some (Re.f_caps f 1%nat) ∨ ∃ a, Re.f_caps f 2%nat = Some (String a "").
Proof.
  unfold Re.match_here. rewrite table_pattern_parts.
  intros (prev1 & s1 & c1 & Hm)%rmatch_chain.
  apply qualifier_taken in Hm as (prev' & s' & c' & Hk & Hcaps).
  - destruct (_ && _); [discriminate|]. by injection Hk as <-.
  - intros p t d1 d2. by destruct (_ && _).
Qed.

End TableNames.

Section ScanCaps.
Variable r : Re.regex.
Variable P : Re.caps → Prop.
Hypothesis Hhere : ∀ must_advance prev s f,
  Re.match_here r must_advance prev s = Some f → P (Re.f_caps f).

Lemma search_from_caps must_advance skipped prev s f :
  Re.search_from r must_advance skipped prev s = Some f → P (Re.f_caps f).
Proof.
  revert must_advance skipped prev.
  induction s as [|a s IH]; intros must_advance skipped prev; cbn [Re.search_from].
  - destruct (Re.match_here r must_advance prev "") as [f0|] eqn:Hm; [|done].
    intros [= <-]. cbn. by eapply Hhere.
  - destruct (Re.match_here r must_advance prev (String a s)) as [f0|] eqn:Hm.
    + intros [= <-]. cbn. by eapply Hhere.
    + apply IH.
Qed.

Lemma scan_caps fuel must_advance prev s f :
  f ∈ (Re.scan fuel r must_advance prev s).1 → P (Re.f_caps f).
Proof.
  revert must_advance prev s.
  induction fuel as [|fuel IH]; intros must_advance prev s; cbn [Re.scan].
  - by intros ?%elem_of_nil.
  - destruct (Re.search_from r must_advance "" prev s) as [f0|] eqn:Hf;
      [|by intros ?%elem_of_nil].
    destruct (Re.scan fuel r _ (Re.f_prev f0) (Re.f_rest f0)) as [fs tail] eqn:Hscan.
    cbn. intros [->|Hin]%elem_of_cons.
    + by eapply search_from_caps.
    + eapply IH. by rewrite Hscan.
Qed.

Lemma findall_caps s m : m ∈ Re.findall r s → P m.
Proof.
  unfold Re.findall, Re.scan_all.
  intros (f & -> & Hin)%list_elem_of_fmap. by eapply scan_caps.
Qed.

End ScanCaps.

Section ParsedShapes.
Import PyStr SchemaParser.

Lemma all_chars_map_chars q f s :
  all_chars q (map_chars f s) = all_chars (λ a, q (f a)) s.
Proof. induction s as [|a s IH]; simpl; [done|]. by rewrite IH. Qed.

Lemma remove_char_none c s : any_char (eqc c) s = false → remove_char c s = s.
Proof.
  induction s as [|a s IH]; simpl; [done|].
  intros [-> Hs]%orb_false_iff. by rewrite IH.
Qed.

Lemma word_not_space a : is_word a = true → is_space a = false.
Proof.
  intros Ha. apply negb_true_iff.
  by apply (class_subset_spec is_word (λ a, negb (is_space a)) a).
Qed.

Lemma word_not_backtick a : is_word a = true → eqc "`" a = false.
Proof.
  intros Ha. apply negb_true_iff.
  by apply (class_subset_spec is_word (λ a, negb (eqc "`" a)) a).
Qed.

Lemma word_lower_ident a : is_word a = true → is_ident_char (lower_char a) = true.
Proof. by apply (class_subset_spec is_word (λ a, is_ident_char (lower_char a)) a). Qed.

Lemma ident_not_backtick a : is_ident_char a = true → eqc "`" a = false.
Proof.
  intros Ha. apply negb_true_iff.
  by apply (class_subset_spec is_ident_char (λ a, negb (eqc "`" a)) a).
Qed.

(** A word needs no cleaning: stripping it and taking out backticks change
    nothing, and lower-casing it gives an identifier. *)
Lemma word_clean t :
  text_of is_word t →
  remove_char "`" (lower (strip t)) = lower t ∧ identifier (lower t).
Proof.
  intros [Hne Hword].
  assert (Hident : identifier (lower t)).
  { split; [by destruct t|]. unfold lower. rewrite all_chars_map_chars.
    eapply all_chars_impl; [|done]. apply word_lower_ident. }
  split; [|done]. unfold strip.
  rewrite strip_by_none by (eapply all_chars_not_any; [apply word_not_space|done]).
  apply remove_char_none. destruct Hident as [_ Hident].
  eapply all_chars_not_any; [apply ident_not_backtick|done].
Qed.

Lemma table_groups_ok : groups_ok (groups_of table_groups) table_pattern.
Proof. apply groups_within_ok. by vm_compute. Qed.

Lemma column_groups_ok : groups_ok (groups_of column_groups) column_pattern.
Proof. apply groups_within_ok. by vm_compute. Qed.

(** X14. The names under which [parse_schema] stores
    the tables of a schema text of 7-bit characters. The table pattern
    tries its optional qualifier [(?:`?(\w+)`?\.?)?] before the table name
    [(\w+)], and the dot of the qualifier is optional too, so a name of two
    or more characters is never taken as a table name alone. Every key of
    the result is therefore either a single character or of the form
    [qualifier.last], both parts lower-case identifiers; a table written
    [users] is stored as [user.s]. *)
Theorem table_names_shape schema_content table_name columns
    (Hascii : ascii_text schema_content)
    (Hlookup : tables (parse_schema schema_content) !! table_name = Some columns) :
  (∃ a, is_ident_char a = true ∧ table_name = String a "") ∨
  (∃ qualifier last,
     identifier qualifier ∧ identifier last ∧
     table_name = qualifier +:+ "." +:+ last).
Proof.
  apply parse_schema_from_block in Hlookup as (_ & m & Hm & -> & _).
  unfold table_matches in Hm.
  pose proof (findall_sound _ _ table_groups_ok _ _ Hm) as [Hcaps Hdef].
  apply (findall_caps _ (λ m, is_Some (m 1%nat) ∨ ∃ a, m 2%nat = Some (String a "")))
    in Hm as Hsplit; [|apply table_match_caps].
  destruct (Hdef 2%nat eq_refl) as [t2 Ht2].
  pose proof (Hcaps _ _ Ht2) as Hword2. cbn in Hword2.
  destruct (word_clean t2 Hword2) as [Hclean2 Hident2].
  unfold table_name_of, Re.group. cbv zeta. rewrite Ht2. cbn [from_option id]. rewrite Hclean2.
  destruct (m 1%nat) as [t1|] eqn:Ht1; cbn [from_option id].
  - pose proof (Hcaps _ _ Ht1) as Hword1. cbn in Hword1.
    destruct (word_clean t1 Hword1) as [Hclean1 Hident1].
    destruct t1 as [|a t1]; [by destruct Hword1|].
    rewrite Hclean1. right. by exists (lower (String a t1)), (lower t2).
  - destruct Hsplit as [[? [=]]|[a Ha]]. left.
    rewrite Ht2 in Ha. injection Ha as ->. exists (lower_char a). split; [|done].
    destruct Hident2 as [_ Hident2]. simpl in Hident2. by rewrite andb_true_r in Hident2.
Qed.

Lemma normalize_type_canonical raw_type_full :
  normalize_type raw_type_full ∈ canonical_types.
Proof.
  unfold normalize_type, canonical_types.
  repeat match goal with |- context [if ?b then _ else _] => destruct b end;
    repeat (first [by left|right]).
Qed.

(** X15. Every column that [parse_schema] returns for
    a schema text of 7-bit characters has a non-empty name made of word
    characters (letters, digits and [_]), a raw type made of word
    characters, white space, parentheses and commas, and as its type the
    one of the six canonical types that the chain of substring tests gives
    for the raw type: the generator's fallback for an unknown type is never
    reached from a parsed schema. *)
Theorem parsed_column_shape schema_content table_name columns column
    (Hascii : ascii_text schema_content)
    (Hlookup : tables (parse_schema schema_content) !! table_name = Some columns)
    (Hcolumn : column ∈ columns) :
  text_of is_word (name column) ∧
  all_chars is_raw_type_char (raw_type column) = true ∧
  type column = normalize_type (raw_type column) ∧
  type column ∈ canonical_types.
Proof.
  apply parse_schema_from_block in Hlookup as (_ & m & _ & _ & ->).
  unfold _parse_columns in Hcolumn.
  apply list_elem_of_omap in Hcolumn as (fragment & _ & Hdef).
  unfold parse_column_def in Hdef.
  destruct (_ || _); [discriminate|].
  destruct (Re.re_match column_pattern (strip fragment)) as [groups|] eqn:Hmatch;
    [|discriminate].
  injection Hdef as <-. cbn [name raw_type type].
  apply (re_match_sound _ _ column_groups_ok) in Hmatch as [Hcaps Hdef].
  destruct (Hdef 1%nat eq_refl) as [t1 Ht1]. destruct (Hdef 2%nat eq_refl) as [t2 Ht2].
  pose proof (Hcaps _ _ Ht1) as Hword. pose proof (Hcaps _ _ Ht2) as [_ Hraw].
  cbn in Hword, Hraw. unfold Re.group. rewrite Ht1, Ht2. cbn [from_option id].
  split; [|split; [|split]].
  - unfold strip_char. rewrite strip_by_none; [done|].
    destruct Hword as [_ Hword].
    eapply all_chars_not_any; [apply word_not_backtick|done].
  - by apply all_chars_strip_by.
  - done.
  - apply normalize_type_canonical.
Qed.

End ParsedShapes.

(** A table written [users] is stored as [user.s]. *)
Example users_table_is_split :
  SchemaParser.tables (SchemaParser.parse_schema users_schema)
  = {[ "user.s" := [id_column] ]}.
Proof. vm_compute. reflexivity. Qed.

Lemma table_names_shape_witness :
  (∃ a, is_ident_char a = true ∧ "user.s" = String a "") ∨
  (∃ qualifier last,
     identifier qualifier ∧ identifier last ∧ "user.s" = qualifier +:+ "." +:+ last).
Proof.
  apply (table_names_shape users_schema "user.s" [id_column]).
  - reflexivity.
  - vm_compute. reflexivity.
Defined.

Lemma parsed_column_shape_witness :
  text_of PyStr.is_word (name constrained_column) ∧
  all_chars is_raw_type_char (raw_type constrained_column) = true ∧
  type constrained_column = SchemaParser.normalize_type (raw_type constrained_column) ∧
  type constrained_column ∈ canonical_types.
Proof.
  apply (parsed_column_shape constrained_schema "t" [constrained_column] constrained_column).
  - reflexivity.
  - vm_compute. reflexivity.
  - by left.
Defined.

(** ** Cutting the body of a table into column definitions *)

Section SplitColumns.
Import PyStr SchemaParser.

Lemma top_level_comma_app paren_level s1 s2 :
  top_level_comma paren_level (s1 +:+ s2)
  = top_level_comma paren_level s1
    || top_level_comma (paren_level_after paren_level s1) s2.
Proof.
  revert paren_level. induction s1 as [|a s1 IH]; intros paren_level; [done|].
  rewrite str_app_cons. cbn [top_level_comma paren_level_after].
  by rewrite IH, orb_assoc.
Qed.

Lemma paren_level_after_app paren_level s1 s2 :
  paren_level_after paren_level (s1 +:+ s2)
  = paren_level_after (paren_level_after paren_level s1) s2.
Proof.
  revert paren_level. induction s1 as [|a s1 IH]; intros paren_level; [done|].
  rewrite str_app_cons. cbn [paren_level_after]. by rewrite IH.
Qed.

Lemma space_plain a :
  is_space a = true → eqc a "(" = false ∧ eqc a ")" = false ∧ eqc a "," = false.
Proof.
  intros Ha.
  pose proof (class_subset_spec is_space
    (λ a, negb (eqc a "(") && negb (eqc a ")") && negb (eqc a ",")) a eq_refl Ha) as H.
  apply andb_true_iff in H as [[H1 H2]%andb_true_iff H3].
  by rewrite !negb_true_iff in *.
Qed.

(** White space neither cuts nor changes the level. *)
Lemma spaces_level paren_level l :
  all_chars is_space l = true →
  top_level_comma paren_level l = false ∧ paren_level_after paren_level l = paren_level.
Proof.
  induction l as [|a l IH]; [done|]. cbn [all_chars top_level_comma paren_level_after].
  intros [Ha Hl]%andb_true_iff.
  destruct (space_plain a Ha) as (-> & -> & ->). cbn [andb orb]. by apply IH.
Qed.

Lemma top_level_comma_strip paren_level s :
  top_level_comma paren_level (strip s) = top_level_comma paren_level s.
Proof.
  destruct (strip_by_split is_space s) as (l & r & Hs & Hl & Hr).
  fold (strip s) in Hs. rewrite Hs at 2.
  destruct (spaces_level paren_level l Hl) as [Hl1 Hl2].
  rewrite !top_level_comma_app, Hl1, Hl2. cbn [orb].
  destruct (spaces_level (paren_level_after paren_level (strip s)) r Hr) as [-> _].
  by rewrite orb_false_r.
Qed.

Lemma split_columns_fragments s buffer paren_level fragment :
  top_level_comma 0 (String.rev buffer) = false →
  paren_level_after 0 (String.rev buffer) = paren_level →
  fragment ∈ split_columns s buffer paren_level →
  top_level_comma 0 fragment = false.
Proof.
  revert buffer paren_level.
  induction s as [|char s IH]; intros buffer paren_level Hbuf Hlevel;
    cbn [split_columns].
  - destruct (strip (String.rev buffer)) as [|a last] eqn:Hlast;
      [by intros ?%elem_of_nil|].
    intros ->%list_elem_of_singleton. by rewrite <-Hlast, top_level_comma_strip.
  - set (level' := if eqc char "(" then paren_level + 1
                    else if eqc char ")" then paren_level - 1 else paren_level).
    destruct (eqc char "," && (level' =? 0)) eqn:Hcut.
    + intros [->|Hin]%elem_of_cons; [by rewrite top_level_comma_strip|].
      apply andb_true_iff in Hcut as [_ Hzero%Z.eqb_eq].
      eapply (IH "" level'); [done| |done]. by rewrite Hzero.
    + apply IH.
      * rewrite str_rev_cons, top_level_comma_app, Hbuf, Hlevel.
        cbn [orb top_level_comma]. fold level'. by rewrite Hcut.
      * rewrite str_rev_cons, paren_level_after_app, Hlevel. done.
Qed.

Lemma split_columns_uncut s buffer paren_level :
  top_level_comma paren_level s = false →
  split_columns s buffer paren_level
  = match strip (String.rev buffer +:+ s) with
    | EmptyString => []
    | last => [last]
    end.
Proof.
  revert buffer paren_level.
  induction s as [|char s IH]; intros buffer paren_level;
    cbn [split_columns top_level_comma].
  - intros _. rewrite str_app_nil_r. by destruct (strip (String.rev buffer)).
  - intros [-> Hs]%orb_false_iff. rewrite IH by done.
    by rewrite str_rev_cons, str_app_assoc.
Qed.

(** X16. The character loop of
    [_parse_columns] cuts the body of a table at the commas it meets at
    parenthesis level 0, and only there: no fragment it returns still has
    such a comma, and a body without one, as [price DECIMAL(10,2)], comes
    back as one fragment, stripped (as none when it is blank). The level is
    a running count, which an unmatched closing parenthesis takes below
    0. *)
Theorem split_columns_cuts_top_level_commas columns_text :
  (∀ fragment, fragment ∈ split_columns columns_text "" 0 →
     top_level_comma 0 fragment = false) ∧
  (top_level_comma 0 columns_text = false →
     split_columns columns_text "" 0
     = if eqs (strip columns_text) "" then [] else [strip columns_text]).
Proof.
  split.
  - intros fragment. by apply split_columns_fragments.
  - intros Hnone. rewrite split_columns_uncut by done.
    change (String.rev "" +:+ columns_text) with columns_text.
    by destruct (strip columns_text).
Qed.

Lemma eqc_eq a b : eqc a b = true → a = b.
Proof.
  unfold eqc, code. intros H%N.eqb_eq.
  by rewrite <-(ascii_N_embedding a), <-(ascii_N_embedding b), H.
Qed.

Lemma split_definitions_filter s buffer paren_level :
  split_definitions s buffer paren_level
  = filter (λ d, d ≠ "") (split_columns s buffer paren_level).
Proof.
  revert buffer paren_level.
  induction s as [|char s IH]; intros buffer paren_level;
    cbn [split_definitions split_columns].
  - by destruct (strip (String.rev buffer)).
  - destruct (eqc char "(") eqn:Hopen.
    { apply eqc_eq in Hopen as ->. cbn [eqc andb]. apply IH. }
    destruct (eqc char ")") eqn:Hclose.
    { apply eqc_eq in Hclose as ->. cbn [eqc andb]. apply IH. }
    destruct (eqc char "," && (paren_level =? 0)); [|apply IH].
    rewrite IH. by destruct (strip (String.rev buffer)).
Qed.

Lemma omap_filter_nonempty (f : string → option ColumnDefinition) (l : list string) :
  f "" = None → omap f (filter (λ d, d ≠ "") l) = omap f l.
Proof.
  intros Hf. induction l as [|d l IH]; [done|].
  rewrite filter_cons. destruct (decide (d ≠ "")) as [Hd|Hd].
  - cbn [omap list_omap]. by rewrite IH.
  - apply dec_stable in Hd as ->. cbn [omap list_omap]. by rewrite Hf.
Qed.

(** X17. The helper
    [_split_column_definitions], which nothing calls, cuts as the loop
    inside [_parse_columns] does: it returns the same fragments, the empty
    ones left out. As [_parse_columns] skips an empty fragment, it could
    call the helper in place of its own loop and return the same
    columns. *)
Theorem split_column_definitions_agrees columns_text :
  _split_column_definitions columns_text
    = filter (λ d, d ≠ "") (split_columns columns_text "" 0) ∧
  _parse_columns columns_text
    = omap parse_column_def (_split_column_definitions (_remove_comments columns_text)).
Proof.
  unfold _split_column_definitions, _parse_columns.
  split; [apply split_definitions_filter|].
  by rewrite split_definitions_filter, omap_filter_nonempty.
Qed.

End SplitColumns.

(** ** The dialect line *)

Section DialectLine.
Import PyStr SchemaParser.

Lemma splitlines_go_first_line cur line rest :
  any_char is_linebreak line = false →
  splitlines_go false cur (line +:+ newline +:+ rest)
  = (String.rev cur +:+ line) :: splitlines_go false "" rest.
Proof.
  revert cur. induction line as [|a line IH]; intros cur.
  - intros _. rewrite str_app_nil_r. reflexivity.
  - cbn [any_char]. intros [Ha Hline]%orb_false_iff.
    rewrite str_app_cons. cbn [splitlines_go andb]. rewrite Ha, IH by done.
    by rewrite str_rev_cons, str_app_assoc.
Qed.

(** X18. A first line in which a dialect is detected
    is taken off the text: [parse_schema] reports the dialect in the
    spelling of [KNOWN_DIALECTS], whatever the case and the comment marks
    it was written with, and looks for tables in the remaining lines only,
    joined again with a line feed. *)
Theorem dialect_line_detected line rest d
    (Hline : any_char is_linebreak line = false)
    (Hdetected : detect_dialect line = Some d) :
  d ∈ KNOWN_DIALECTS ∧
  parse_schema (line +:+ newline +:+ rest)
  = {| tables := foldl add_table ∅
                   (Re.findall table_pattern
                      (_remove_comments (join newline (splitlines rest))));
       dialect := Some d |}.
Proof.
  split.
  - unfold detect_dialect in Hdetected.
    apply find_some in Hdetected as [Hin _]. by apply list_elem_of_In.
  - assert (Hsplit : split_dialect (line +:+ newline +:+ rest)
                     = (Some d, join newline (splitlines rest))).
    { unfold split_dialect, splitlines. rewrite splitlines_go_first_line by done.
      change (String.rev "" +:+ line) with line. by rewrite Hdetected. }
    unfold parse_schema, table_matches. by rewrite Hsplit.
Qed.

End DialectLine.

Lemma dialect_line_detected_witness :
  "MySQL" ∈ SchemaParser.KNOWN_DIALECTS ∧
  SchemaParser.parse_schema ("-- mysql" +:+ SchemaParser.newline +:+ plain_schema)
  = {| SchemaParser.tables :=
         foldl SchemaParser.add_table ∅
           (Re.findall SchemaParser.table_pattern
              (SchemaParser._remove_comments
                 (PyStr.join SchemaParser.newline (PyStr.splitlines plain_schema))));
       SchemaParser.dialect := Some "MySQL" |}.
Proof.
  apply (dialect_line_detected "-- mysql" plain_schema "MySQL"); reflexivity.
Defined.

(** ** Column names and constraint keywords *)

Section KeywordNames.
Import PyStr SchemaParser.

Lemma derive_Alt_inv r1 r2 prev s c prev' s' c' :
  derive (Re.Alt r1 r2) prev s c prev' s' c' →
  derive r1 prev s c prev' s' c' ∨ derive r2 prev s c prev' s' c'.
Proof. inversion 1; subst; eauto. Qed.

Lemma derive_Eps_inv prev s c prev' s' c' :
  derive Re.Eps prev s c prev' s' c' → prev' = prev ∧ s' = s ∧ c' = c.
Proof. by inversion 1. Qed.

Lemma derive_Bol_inv ml prev s c prev' s' c' :
  derive (Re.Bol ml) prev s c prev' s' c' → prev' = prev ∧ s' = s ∧ c' = c.
Proof. by inversion 1. Qed.

Lemma re_match_derive r s m :
  Re.re_match r s = Some m → ∃ prev' s', derive r None s Re.no_caps prev' s' m.
Proof.
  unfold Re.re_match, Re.match_here.
  destruct (Re.rmatch r None s Re.no_caps _) as [f|] eqn:Hm; [|done].
  apply rmatch_sound in Hm as (prev' & s' & c' & Hd & Hk).
  cbn [andb] in Hk. injection Hk as <-. intros [= <-]. by exists prev', s'.
Qed.

(** What is left of a text after stripping does not begin with a character
    that is stripped. *)
Lemma strip_by_head p s a rest : strip_by p s = String a rest → p a = false.
Proof.
  unfold strip_by. intros Hs.
  destruct (rstrip_by_split p (lstrip_by p s)) as (r & Hr & _).
  rewrite Hs, str_app_cons in Hr.
  pose proof (lstrip_by_head p s) as Hhead. by rewrite Hr in Hhead.
Qed.

Lemma startswith_app kw s rest :
  startswith kw s = true → startswith kw (s +:+ rest) = true.
Proof.
  revert s. induction kw as [|a kw IH]; intros [|b s]; cbn [startswith]; try done.
  intros [Hab Hkw]%andb_true_iff. rewrite str_app_cons. cbn [startswith].
  by rewrite Hab, IH.
Qed.

Lemma upper_app s1 s2 : upper (s1 +:+ s2) = upper s1 +:+ upper s2.
Proof.
  unfold upper. induction s1 as [|a s1 IH]; [done|].
  rewrite str_app_cons. cbn [map_chars]. by rewrite IH.
Qed.

Lemma backtick_class a : eqc (lower_char a) (lower_char "`") = true → a = "`"%char.
Proof.
  intros Ha.
  pose proof (class_subset_spec (λ a, eqc (lower_char a) (lower_char "`"))
                (λ a, eqc a "`") a eq_refl Ha) as Heq.
  by apply eqc_eq in Heq.
Qed.

(** The column pattern on a stripped fragment: the name it captures stands
    at the front of the fragment, after a backtick if there is one. *)
Lemma column_name_leads s m :
  (∀ a rest, s = String a rest → is_space a = false) →
  Re.re_match column_pattern s = Some m →
  ∃ w rest, m 1%nat = Some w ∧ (s = w +:+ rest ∨ s = "`" +:+ w +:+ rest).
Proof.
  intros Hhead (prev' & s' & Hd)%re_match_derive.
  unfold column_pattern in Hd. cbn [Re.cats] in Hd.
  apply derive_Cat_inv in Hd as (p1 & s1 & c1 & Hbol & Hd).
  apply derive_Bol_inv in Hbol as (-> & -> & ->).
  apply derive_Cat_inv in Hd as (p2 & s2 & c2 & Hws & Hd).
  apply derive_star_class_inv in Hws as (ws & -> & Hws & -> & ->).
  assert (ws = "") as ->.
  { destruct ws as [|a ws]; [done|]. apply andb_true_iff in Hws as [Ha _].
    rewrite str_app_cons in Hhead. by rewrite (Hhead a _ eq_refl) in Ha. }
  cbn [last_prev] in Hd. rewrite str_app_nil_l in Hhead |- *.
  apply derive_Cat_inv in Hd as (p3 & s3 & c3 & Hbt & Hd).
  apply derive_Cat_inv in Hd as (p4 & s4 & c4 & Hname & Htail).
  apply derive_Group_inv in Hname as (c4' & Hname & ->).
  apply derive_plus_class_inv in Hname as (a & w & -> & Ha & Hw & -> & ->).
  exists (String a w), s4. split.
  - rewrite (derive_leaves _ _ _ _ _ _ _ 1%nat Htail) by reflexivity.
    unfold Re.set_cap. cbn [Nat.eqb]. f_equal.
    apply (take_app (String a w) s4).
  - apply derive_Alt_inv in Hbt as [Hbt|Hbt].
    + apply derive_Class_inv in Hbt as (b & Hb & -> & _ & _).
      apply backtick_class in Hb as ->. by right.
    + apply derive_Eps_inv in Hbt as (_ & Heq & _). left. by rewrite <-Heq.
Qed.

(** X19. The test that skips constraint
    lines looks at the front of the whole fragment, and the front of a
    column definition is the name of the column. So a column that
    [_parse_columns] returns has its name at the front of its fragment,
    and the name does not begin, case aside, with [PRIMARY KEY],
    [FOREIGN KEY], [UNIQUE], [CONSTRAINT], [CHECK], [INDEX], [KEY] or
    [TABLESPACE], unless it was written after a backtick: a column written
    [key_id INT] or [checked_at DATE] is dropped. *)
Theorem unquoted_keyword_names_dropped fragment column
    (Hdef : parse_column_def fragment = Some column) :
  ∃ rest,
    (strip fragment = name column +:+ rest ∧
     ∀ kw, kw ∈ constraint_keywords → startswith kw (upper (name column)) = false)
    ∨ strip fragment = "`" +:+ name column +:+ rest.
Proof.
  unfold parse_column_def in Hdef.
  destruct (eqs (strip fragment) "" || _) eqn:Hskip; [discriminate|].
  apply orb_false_iff in Hskip as [_ Hkeywords].
  destruct (Re.re_match column_pattern (strip fragment)) as [m|] eqn:Hmatch;
    [|discriminate].
  injection Hdef as <-. cbn [name].
  pose proof (re_match_sound _ _ column_groups_ok _ _ Hmatch) as [Hcaps _].
  apply column_name_leads in Hmatch as (w & rest & Hw & Hfront);
    [|intros a rest; apply strip_by_head].
  pose proof (Hcaps _ _ Hw) as [_ Hword]. cbn in Hword.
  unfold Re.group. rewrite Hw. cbn [from_option id].
  assert (Hclean : strip_char "`" w = w).
  { unfold strip_char. apply strip_by_none.
    eapply all_chars_not_any; [apply word_not_backtick|done]. }
  rewrite Hclean. exists rest. destruct Hfront as [Hfront|Hfront]; [left|by right].
  split; [done|]. intros kw Hkw. apply not_true_is_false. intros Hstart.
  apply (startswith_app _ _ (upper rest)) in Hstart.
  rewrite <-upper_app, <-Hfront in Hstart.
  apply not_true_iff_false in Hkeywords. apply Hkeywords. apply existsb_exists. exists kw.
  split; [by apply list_elem_of_In|done].
Qed.

End KeywordNames.

Lemma unquoted_keyword_names_dropped_witness :
  ∃ rest,
    (PyStr.strip "id INT NOT NULL AUTO_INCREMENT" = name constrained_column +:+ rest ∧
     ∀ kw, kw ∈ SchemaParser.constraint_keywords →
           PyStr.startswith kw (PyStr.upper (name constrained_column)) = false)
    ∨ PyStr.strip "id INT NOT NULL AUTO_INCREMENT" = "`" +:+ name constrained_column +:+ rest.
Proof.
  apply (unquoted_keyword_names_dropped "id INT NOT NULL AUTO_INCREMENT" constrained_column).
  vm_compute. reflexivity.
Defined.

(** A table with the columns [id] and [key_id] comes back with [id]
    alone. *)
Example key_column_dropped :
  name <$> SchemaParser._parse_columns "id INT, key_id INT, checked_at DATE, `key_id` INT"
  = ["id"; "key_id"].
Proof. vm_compute. reflexivity. Qed.

(** ** The analyzer: file names and workbooks *)

Section AnalyzerMore.
Import PyStr DataAnalyzer.

Lemma last_piece_no_dot cur s :
  any_char (λ a, eqc a ".") s = false → last_piece cur s = String.rev cur +:+ s.
Proof.
  revert cur. induction s as [|a s IH]; intros cur; cbn [last_piece any_char].
  - by rewrite str_app_nil_r.
  - intros [-> Hs]%orb_false_iff. rewrite IH by done.
    by rewrite str_rev_cons, str_app_assoc.
Qed.

Lemma last_piece_after_dot cur stem ext :
  last_piece cur (stem +:+ "." +:+ ext) = last_piece "" ext.
Proof.
  revert cur. induction stem as [|a stem IH]; intros cur; [done|].
  rewrite str_app_cons. cbn [last_piece]. by destruct (eqc a ".").
Qed.

(** X20. The suffix that [analyze_file] goes
    by is the text after the last dot of the file name, in lower case, with
    a dot put before it; the rest of the name plays no part. A name
    without a dot is taken as its own suffix, so a file named [csv] is read
    as a CSV file. *)
Theorem file_extension_of_last_piece stem ext
    (Hext : any_char (λ a, eqc a ".") ext = false) :
  _get_file_extension (stem +:+ "." +:+ ext) = "." +:+ lower ext ∧
  _get_file_extension ext = "." +:+ lower ext.
Proof.
  unfold _get_file_extension.
  rewrite last_piece_after_dot, last_piece_no_dot by done. done.
Qed.

Context {DataFrame Analysis : Type}.
Variable sheet_names : UploadedFile → result (list string).
Variable read_excel : UploadedFile → string → result DataFrame.
Variable _analyze_dataframe : DataFrame → float → result Analysis.

Lemma analyze_sheets_Ok uploaded_file noise_level names sheet_analyses result :
  analyze_sheets read_excel _analyze_dataframe uploaded_file noise_level names
    sheet_analyses = Ok result →
  dom result = dom sheet_analyses ∪ list_to_set names ∧
  (∀ sheet_name, sheet_name ∈ names →
     ∃ df a, read_excel uploaded_file sheet_name = Ok df ∧
             _analyze_dataframe df noise_level = Ok a ∧
             result !! sheet_name = Some a) ∧
  (∀ sheet_name, sheet_name ∉ names →
     result !! sheet_name = sheet_analyses !! sheet_name).
Proof.
  revert sheet_analyses.
  induction names as [|sheet_name names IH]; intros sheet_analyses;
    cbn [analyze_sheets].
  - intros [= <-]. split; [|split].
    + by rewrite list_to_set_nil, (right_id_L ∅ (∪)).
    + by intros ? ?%elem_of_nil.
    + done.
  - destruct (read_excel uploaded_file sheet_name) as [df|e] eqn:Hread;
      cbn [bind]; [|discriminate].
    destruct (_analyze_dataframe df noise_level) as [a|e] eqn:Ha;
      cbn [bind]; [|discriminate].
    intros (Hdom & Hin & Hout)%IH. split; [|split].
    + rewrite Hdom, dom_insert_L, list_to_set_cons.
      by rewrite (comm_L (∪) {[sheet_name]} (dom sheet_analyses)), (assoc_L (∪)).
    + intros sheet [->|Hsheet]%elem_of_cons; [|by apply Hin].
      destruct (decide (sheet_name ∈ names)) as [Hlater|Hlast]; [by apply Hin|].
      exists df, a. split; [done|]. split; [done|].
      by rewrite Hout, lookup_insert_eq.
    + intros sheet Hsheet. apply not_elem_of_cons in Hsheet as [Hne Hsheet].
      by rewrite Hout, lookup_insert_ne.
Qed.

(** X21. When [_analyze_excel] returns, every
    sheet of the workbook was read and profiled without an error: the
    result has the sheet names as its keys, and under each name the profile
    of the frame read from that sheet. A sheet that cannot be read or
    profiled leaves no partial result. *)
Theorem workbook_analysis_by_sheet uploaded_file noise_level sheet_analyses
    (Hrun : _analyze_excel sheet_names read_excel _analyze_dataframe
              uploaded_file noise_level = Ok sheet_analyses) :
  ∃ names,
    sheet_names uploaded_file = Ok names ∧
    dom sheet_analyses = list_to_set names ∧
    ∀ sheet_name, sheet_name ∈ names →
      ∃ df a, read_excel uploaded_file sheet_name = Ok df ∧
              _analyze_dataframe df noise_level = Ok a ∧
              sheet_analyses !! sheet_name = Some a.
Proof.
  unfold _analyze_excel in Hrun.
  destruct (sheet_names uploaded_file) as [names|e]; cbn [bind] in Hrun; [|discriminate].
  apply analyze_sheets_Ok in Hrun as (Hdom & Hin & _).
  exists names. split; [done|]. split; [|done].
  by rewrite Hdom, dom_empty_L, (left_id_L ∅ (∪)).
Qed.

End AnalyzerMore.

Section DistributionMore.
Import DataAnalyzer.

(** X22. [_get_distribution_info] answers
    with the dictionary of type [unknown] exactly when one of the pandas
    calls that it comes to make raises, and otherwise with one of the types
    [skewed], [uniform] and [normal], NaN statistics included. A call that
    is not reached does no harm: with a skewness beyond 1 the column is
    [skewed] even if its standard deviation cannot be computed. *)
Theorem unknown_iff_reached_call_raises series :
  (reached_call_raises series ↔ _get_distribution_info series = unknown_distribution) ∧
  (reached_call_raises series ↔ d_type (_get_distribution_info series) = "unknown") ∧
  (¬ reached_call_raises series →
   ∃ skewness excess distribution_type,
     skew series = Ok skewness ∧ kurtosis series = Ok excess ∧
     distribution_type ∈ ["skewed"; "uniform"; "normal"] ∧
     _get_distribution_info series
     = {| d_skewness := Some skewness; d_kurtosis := Some excess;
          d_type := distribution_type |}).
Proof.
  unfold reached_call_raises, raises, _get_distribution_info, distribution_body,
    unknown_distribution.
  destruct (skew series) as [sk|e1]; cbn [bind d_type];
    [|by split; [|split]; [split; eauto|split; eauto|intros []; eauto]].
  destruct (DataAnalyzer.kurtosis series) as [ku|e2]; cbn [bind d_type];
    [|by split; [|split]; [split; eauto|split; eauto|intros []; eauto]].
  destruct (PrimFloat.ltb 1 (PrimFloat.abs sk)) eqn:Hskewed; cbn [bind d_type].
  { assert (Hnone : ¬ ((∃ e : exn, Ok sk = Raise e) ∨ (∃ e : exn, Ok ku = Raise e) ∨
        ∃ skewness : float, Ok sk = Ok skewness ∧
          PrimFloat.ltb 1 (PrimFloat.abs skewness) = false ∧
          ((∃ e, min series = Raise e) ∨
           ∃ lowest, min series = Ok lowest ∧ PrimFloat.leb 0 lowest = true ∧
             ((∃ e, max series = Raise e) ∨ ∃ e, std series = Raise e)))).
    { intros [[e [=]]|[[e [=]]|(s & [= <-] & Hs & _)]]. congruence. }
    split; [|split].
    - split; [done|discriminate].
    - split; [done|discriminate].
    - intros _. exists sk, ku, "skewed". repeat split. by left. }
  assert (Hreached : ∀ P : Prop,
    ((∃ e : exn, Ok sk = Raise e) ∨ (∃ e : exn, Ok ku = Raise e) ∨
     ∃ skewness : float, Ok sk = Ok skewness ∧
       PrimFloat.ltb 1 (PrimFloat.abs skewness) = false ∧ P) ↔ P).
  { intros P. split; [|intros HP; do 2 right; by exists sk].
    by intros [[e [=]]|[[e [=]]|(s & _ & _ & HP)]]. }
  destruct (DataAnalyzer.min series) as [mn|e3]; cbn [bind d_type].
  2:{ split; [|split].
      - split; [done|]. intros _. apply (proj2 (Hreached _)). eauto.
      - split; [done|]. intros _. apply (proj2 (Hreached _)). eauto.
      - intros []. apply (proj2 (Hreached _)). eauto. }
  destruct (PrimFloat.leb 0 mn) eqn:Hpositive; cbn [bind d_type].
  2:{ split; [|split].
      - split; [|discriminate].
        intros H. apply (proj1 (Hreached _)) in H as [[e [=]]|(l & [= <-] & Hl & _)].
        congruence.
      - split; [|discriminate].
        intros H. apply (proj1 (Hreached _)) in H as [[e [=]]|(l & [= <-] & Hl & _)].
        congruence.
      - intros _. exists sk, ku, "normal". repeat split. by do 2 right; left. }
  assert (Hlate : ∀ P : Prop,
    ((∃ e : exn, Ok mn = Raise e) ∨
     ∃ lowest : float, Ok mn = Ok lowest ∧ PrimFloat.leb 0 lowest = true ∧ P) ↔ P).
  { intros P. split; [|intros HP; right; by exists mn].
    by intros [[e [=]]|(l & _ & _ & HP)]. }
  destruct (DataAnalyzer.max series) as [mx|e4]; cbn [bind d_type].
  2:{ split; [|split].
      - split; [done|]. intros _. apply (proj2 (Hreached _)), (proj2 (Hlate _)). eauto.
      - split; [done|]. intros _. apply (proj2 (Hreached _)), (proj2 (Hlate _)). eauto.
      - intros []. apply (proj2 (Hreached _)), (proj2 (Hlate _)). eauto. }
  destruct (DataAnalyzer.std series) as [sd|e5]; cbn [bind d_type].
  2:{ split; [|split].
      - split; [done|]. intros _. apply (proj2 (Hreached _)), (proj2 (Hlate _)). eauto.
      - split; [done|]. intros _. apply (proj2 (Hreached _)), (proj2 (Hlate _)). eauto.
      - intros []. apply (proj2 (Hreached _)), (proj2 (Hlate _)). eauto. }
  assert (Hnone : ¬ ((∃ e : exn, Ok mx = Raise e) ∨ ∃ e : exn, Ok sd = Raise e)).
  { by intros [[e [=]]|[e [=]]]. }
  destruct (PrimFloat.ltb ((mx - mn) / sd) 2); cbn [bind d_type].
  - split; [|split].
    + split; [|discriminate].
      intros H. apply (proj1 (Hreached _)), (proj1 (Hlate _)) in H. by destruct Hnone.
    + split; [|discriminate].
      intros H. apply (proj1 (Hreached _)), (proj1 (Hlate _)) in H. by destruct Hnone.
    + intros _. exists sk, ku, "uniform". repeat split. by right; left.
  - split; [|split].
    + split; [|discriminate].
      intros H. apply (proj1 (Hreached _)), (proj1 (Hlate _)) in H. by destruct Hnone.
    + split; [|discriminate].
      intros H. apply (proj1 (Hreached _)), (proj1 (Hlate _)) in H. by destruct Hnone.
    + intros _. exists sk, ku, "normal". repeat split. by do 2 right; left.
Qed.

End DistributionMore.

(** The standard deviation raises, but it is not asked for. *)
Example unreached_call_does_no_harm :
  DataAnalyzer.d_type (DataAnalyzer._get_distribution_info skewed_without_std) = "skewed".
Proof. reflexivity. Qed.

Lemma file_extension_of_last_piece_witness :
  DataAnalyzer._get_file_extension ("report.final" +:+ "." +:+ "CSV") = "." +:+ PyStr.lower "CSV" ∧
  DataAnalyzer._get_file_extension "CSV" = "." +:+ PyStr.lower "CSV".
Proof.
  apply (file_extension_of_last_piece "report.final" "CSV"). reflexivity.
Defined.

Lemma workbook_analysis_by_sheet_witness :
  ∃ names,
    two_sheets book_xlsx = Ok names ∧
    dom ({[ "a" := 1%nat; "b" := 1%nat ]} : gmap string nat) = list_to_set names ∧
    ∀ sheet_name, sheet_name ∈ names →
      ∃ df a, read_sheet book_xlsx sheet_name = Ok df ∧
              profile_length df 0.5%float = Ok a ∧
              ({[ "a" := 1%nat; "b" := 1%nat ]} : gmap string nat) !! sheet_name = Some a.
Proof.
  apply (workbook_analysis_by_sheet two_sheets read_sheet profile_length book_xlsx
           0.5%float {[ "a" := 1%nat; "b" := 1%nat ]}).
  vm_compute. reflexivity.
Defined.

(** ** The quick validation on the schema page *)

Section PageFacts.
Import SchemaParser Page.

(** X23. [validate_schema_quick] takes the
    dictionary that [parse_schema] returns for the table map. The
    dictionary always has the two keys [tables] and [dialect], so every
    text, a text without any table included, is reported as a valid schema
    with 2 tables, and [No valid tables found] is never shown. The lines
    that follow speak of a table [tables] with as many columns as tables
    were parsed and of a table [dialect] with as many columns as the dialect
    name has characters; without a dialect the loop ends in the [TypeError]
    of [len(None)], which is shown as a validation error. *)
Theorem quick_validation_counts_keys schema :
  validate_schema_quick schema
  = [ st_success "Valid schema with 2 table(s)";
      st_write ("• **tables**: "
                +:+ pretty (Z.of_nat (size (tables (parse_schema schema))))
                +:+ " columns");
      match dialect (parse_schema schema) with
      | Some d =>
          st_write ("• **dialect**: " +:+ pretty (Z.of_nat (String.length d))
                    +:+ " columns")
      | None => st_error "Validation error: object of type 'NoneType' has no len()"
      end ] ∧
  st_error "No valid tables found" ∉ validate_schema_quick schema.
Proof.
  assert (Hrun : validate_schema_quick schema
    = [ st_success "Valid schema with 2 table(s)";
        st_write ("• **tables**: "
                  +:+ pretty (Z.of_nat (size (tables (parse_schema schema))))
                  +:+ " columns");
        match dialect (parse_schema schema) with
        | Some d =>
            st_write ("• **dialect**: " +:+ pretty (Z.of_nat (String.length d))
                      +:+ " columns")
        | None => st_error "Validation error: object of type 'NoneType' has no len()"
        end ]).
  { unfold validate_schema_quick, parsed_dict. cbn [write_items py_len length].
    by destruct (dialect (parse_schema schema)). }
  split; [done|]. rewrite Hrun.
  intros [Hin|[Hin|[Hin|Hin]%elem_of_cons]%elem_of_cons]%elem_of_cons;
    try discriminate.
  - by destruct (dialect (parse_schema schema)).
  - by apply elem_of_nil in Hin.
Qed.

End PageFacts.
